(** * Wordlist generator: a shallow embedding of [wordlist_generator.py]

    The development follows the Python module function by function.
    Python values are modelled as follows.

    - [str] is [string]; a character is an [ascii] code point and the
      classification predicates below are Python's on the ASCII range
      (code points from 128 on have no case and are not alphanumeric).
      The model is that of the program on ASCII text: Python's [\w],
      [lower], [upper], [capitalize], [strip] and the [is...] tests
      know the letters, digits and blanks beyond code point 127, and
      the model does not.  A statement about the cleaned text or the
      character classes of the input that holds of the program on
      ASCII text only has the hypothesis [str_isascii] on that input.
    - [set] of [str] is [gset string]; a loop that adds to a set is the
      set of the list of everything the loop adds.  The order in which a
      set is iterated is not fixed by the language: it is a parameter
      [enum] of the functions that iterate one.
    - [datetime.now().year], read once by the constructor, is the
      parameter [current_year].
    - [int] is [Z].  An uncaught [IndexError] is [None]. *)

From Stdlib Require Import String Ascii List ZArith QArith Qround DecimalString Lia.
From Stdlib Require Import OrderedTypeEx.
From stdpp Require Import gmap strings list sorting.

Open Scope string_scope.
Open Scope Z_scope.

(** ** Characters *)

Definition code (c : ascii) : nat := nat_of_ascii c.

Definition in_range (lo hi : nat) (c : ascii) : bool :=
  (Nat.leb lo (code c)) && (Nat.leb (code c) hi).

(** [c.isdigit()], also the class [\d]. *)
Definition chr_isdigit (c : ascii) : bool := in_range 48 57 c.
Definition chr_isupper (c : ascii) : bool := in_range 65 90 c.
Definition chr_islower (c : ascii) : bool := in_range 97 122 c.
Definition chr_isalnum (c : ascii) : bool :=
  chr_isupper c || chr_islower c || chr_isdigit c.

(** The class [\w]: letters, digits and the underscore. *)
Definition chr_isword (c : ascii) : bool :=
  chr_isalnum c || Ascii.eqb c "_".

(** What [str.strip()] removes: TAB, LF, VT, FF, CR, FS, GS, RS, US, SPACE. *)
Definition chr_isspace (c : ascii) : bool :=
  in_range 9 13 c || in_range 28 32 c.

Definition chr_lower (c : ascii) : ascii :=
  if chr_isupper c then ascii_of_nat (code c + 32) else c.
Definition chr_upper (c : ascii) : ascii :=
  if chr_islower c then ascii_of_nat (code c - 32) else c.

(** ** Strings *)

Fixpoint str_map (f : ascii → ascii) (s : string) : string :=
  match s with
  | EmptyString => EmptyString
  | String c r => String (f c) (str_map f r)
  end.

Fixpoint str_filter (p : ascii → bool) (s : string) : string :=
  match s with
  | EmptyString => EmptyString
  | String c r => if p c then String c (str_filter p r) else str_filter p r
  end.

Fixpoint str_all (p : ascii → bool) (s : string) : bool :=
  match s with
  | EmptyString => true
  | String c r => p c && str_all p r
  end.

Fixpoint str_any (p : ascii → bool) (s : string) : bool :=
  match s with
  | EmptyString => false
  | String c r => p c || str_any p r
  end.

Definition str_empty (s : string) : bool :=
  match s with EmptyString => true | _ => false end.

(** [bool(s)] of a string: true when it is not empty. *)
Definition truthy (s : string) : bool := negb (str_empty s).

Definition str_lower : string → string := str_map chr_lower.
Definition str_upper : string → string := str_map chr_upper.

(** [s.capitalize()]: first character upper-cased, the rest lower-cased. *)
Definition str_capitalize (s : string) : string :=
  match s with
  | EmptyString => EmptyString
  | String c r => String (chr_upper c) (str_lower r)
  end.

(** [s.isdigit()]: not empty and digits only. *)
Definition str_isdigit (s : string) : bool :=
  truthy s && str_all chr_isdigit s.

(** [s.islower()]: at least one cased character and none upper-case. *)
Definition str_islower (s : string) : bool :=
  str_any chr_islower s && negb (str_any chr_isupper s).

(** [s.isupper()]: at least one cased character and none lower-case. *)
Definition str_isupper (s : string) : bool :=
  str_any chr_isupper s && negb (str_any chr_islower s).

Fixpoint str_lstrip (s : string) : string :=
  match s with
  | EmptyString => EmptyString
  | String c r => if chr_isspace c then str_lstrip r else s
  end.

Fixpoint str_rstrip (s : string) : string :=
  match s with
  | EmptyString => EmptyString
  | String c r =>
      let r' := str_rstrip r in
      if str_empty r' && chr_isspace c then EmptyString else String c r'
  end.

Definition str_strip (s : string) : string := str_rstrip (str_lstrip s).

(** [needle in hay] for strings. *)
Fixpoint str_contains (needle hay : string) : bool :=
  String.prefix needle hay ||
  match hay with
  | EmptyString => false
  | String _ r => str_contains needle r
  end.

(** [c in s] for a character [c]. *)
Definition chr_in (c : ascii) (s : string) : bool := str_any (Ascii.eqb c) s.

(** [s.replace(a, b)] for one-character [a] and [b]. *)
Definition str_replace (a b : ascii) (s : string) : string :=
  str_map (λ c, if Ascii.eqb c a then b else c) s.

(** [s[0]] and [s[1:]]; indexing the empty string raises [IndexError]. *)
Definition str_head (s : string) : option ascii :=
  match s with EmptyString => None | String c _ => Some c end.
Definition str_tail (s : string) : string :=
  match s with EmptyString => EmptyString | String _ r => r end.

(** [str(n)] of an integer. *)
Definition str_of_int (n : Z) : string := NilZero.string_of_int (Z.to_int n).

(** [''.join(cs)] of a sequence of characters. *)
Definition str_join (cs : list ascii) : string := string_of_list_ascii cs.

(** ** Lists *)

(** [l[:n]]; a negative [n] counts from the end. *)
Definition slice_to {A} (n : Z) (l : list A) : list A :=
  if 0 <=? n then take (Z.to_nat n) l
  else take (length l - Z.to_nat (- n)) l.

(** [range(a, b)] *)
Definition py_range (a b : Z) : list Z := seqZ a (b - a).

(** [enumerate(l)] *)
Definition enumerate {A} (l : list A) : list (nat * A) := imap pair l.

(** [itertools.product] of the lists [ls], in the order Python yields it. *)
Fixpoint product {A} (ls : list (list A)) : list (list A) :=
  match ls with
  | [] => [[]]
  | l :: ls' => x ← l; (cons x) <$> product ls'
  end.

(** A stable sort, as [sorted] and [list.sort] are: [x] is placed before
    the first element it is [le] to, and elements are inserted from the
    right, so elements that compare equal keep their order. *)
Section sort.
Context {A : Type} (le : A → A → bool).

Fixpoint sort_insert (x : A) (l : list A) : list A :=
  match l with
  | [] => [x]
  | y :: l' => if le x y then x :: l else y :: sort_insert x l'
  end.

Definition stable_sort (l : list A) : list A := foldr sort_insert [] l.

End sort.

(** [sorted(l)] on strings: ascending, by code point. *)
Definition sorted (l : list string) : list string := stable_sort String.leb l.

(** [l.sort(key=k, reverse=True)]: descending by key, and still stable. *)
Definition sort_by_key_desc {A} (k : A → Z) (l : list A) : list A :=
  stable_sort (λ x y, k y <=? k x) l.

(** ** Regular expressions

    The date formats are sequences of capturing groups [(\d{lo,hi})] and
    literal characters.  Matching is greedy with backtracking, as in
    [re]: a group first tries [hi] digits, then fewer, down to [lo]. *)

Inductive re_item :=
  | Digits (lo hi : nat)
  | Lit (c : ascii).

Definition regex := list re_item.

(** The first [n] characters of [s] when they are all digits, and the rest. *)
Fixpoint split_digits (n : nat) (s : string) : option (string * string) :=
  match n with
  | O => Some (EmptyString, s)
  | S n' =>
      match s with
      | EmptyString => None
      | String c r =>
          if chr_isdigit c
          then (λ dr, (String c dr.1, dr.2)) <$> split_digits n' r
          else None
      end
  end.

Fixpoint match_digits {R} (cont : string → option R) (lo n : nat) (s : string)
    : option (string * R) :=
  let here :=
    if Nat.leb lo n
    then dr ← split_digits n s; (λ r, (dr.1, r)) <$> cont dr.2
    else None in
  match here with
  | Some r => Some r
  | None =>
      match n with
      | O => None
      | S n' => match_digits cont lo n' s
      end
  end.

(** A match of [p] at the start of [s]: the groups and the number of
    characters consumed. *)
Fixpoint match_here (p : regex) (s : string) : option (list string * nat) :=
  match p with
  | [] => Some ([], O)
  | Lit c :: p' =>
      match s with
      | EmptyString => None
      | String c' r =>
          if Ascii.eqb c c'
          then (λ gn, (gn.1, S gn.2)) <$> match_here p' r
          else None
      end
  | Digits lo hi :: p' =>
      (λ dgn, (dgn.1 :: dgn.2.1, (String.length dgn.1 + dgn.2.2)%nat))
        <$> match_digits (match_here p') lo hi s
  end.

(** [re.findall]: the non-overlapping matches, scanning left to right;
    [skip] counts the characters of the last match still to step over.
    A match is returned as the list of its groups (a one-group pattern
    yields the group itself in Python, a tuple otherwise).  None of the
    patterns used here matches the empty string. *)
Fixpoint findall_from (p : regex) (skip : nat) (s : string) : list (list string) :=
  match s with
  | EmptyString => []
  | String _ r =>
      match skip with
      | S k => findall_from p k r
      | O =>
          match match_here p s with
          | Some (g, n) => g :: findall_from p (n - 1) r
          | None => findall_from p 0 r
          end
      end
  end.

Definition findall (p : regex) (s : string) : list (list string) :=
  findall_from p 0 s.

(** [re.sub(r'[^\w]', '', s)] *)
Definition strip_nonword (s : string) : string := str_filter chr_isword s.

(** [re.search(r'\d+$', s)]: [$] matches at the end of the string and
    also just before a newline that ends it. *)
Definition at_dollar (s : string) : bool :=
  match s with
  | EmptyString => true
  | String c EmptyString => Ascii.eqb c "010"
  | _ => false
  end.

Fixpoint match_digits_dollar (s : string) : bool :=
  match s with
  | EmptyString => false
  | String c r => chr_isdigit c && (match_digits_dollar r || at_dollar r)
  end.

Fixpoint search_digits_dollar (s : string) : bool :=
  match_digits_dollar s ||
  match s with
  | EmptyString => false
  | String _ r => search_digits_dollar r
  end.

(** ** [WordlistGenerator]: the tables set up by [__init__] *)

Definition common_numbers : list string :=
  ["1"; "12"; "123"; "1234"; "01"; "001"; "2024"; "2025"].

Definition prefixes : list string := [""; "my"; "the"; "i"; "love"].

Definition suffixes : list string :=
  [""; "!"; "!!"; "123"; "12"; "1"; "01"; "001"; "@"; "#"].

(** A [dict] from characters to lists of characters, in insertion order. *)
Definition leet_substitutions : list (ascii * list ascii) :=
  [ ("a", ["@"; "4"]); ("e", ["3"]); ("i", ["1"; "!"]); ("o", ["0"]);
    ("s", ["5"; "$"]); ("t", ["7"]); ("l", ["1"]); ("g", ["9"]);
    ("b", ["6"]) ]%char.

Definition separators : list string := [""; "_"; "-"; "."; "!"; "@"; "#"].

(** [d.get(k)] on such a [dict]. *)
Fixpoint dict_get {V} (k : ascii) (d : list (ascii * V)) : option V :=
  match d with
  | [] => None
  | (k', v) :: d' => if Ascii.eqb k k' then Some v else dict_get k d'
  end.

(** [_process_dates] *)
Definition date_formats : list regex :=
  [ [Digits 4 4];
    [Digits 1 2; Lit "/"; Digits 1 2; Lit "/"; Digits 4 4];
    [Digits 1 2; Lit "-"; Digits 1 2; Lit "-"; Digits 4 4];
    [Digits 4 4; Lit "-"; Digits 1 2; Lit "-"; Digits 1 2];
    [Digits 1 2; Lit "."; Digits 1 2; Lit "."; Digits 4 4] ]%char.

(** What one date string appends to [date_words]. *)
Definition date_fragments (date_str : string) : list string :=
  if truthy (str_strip date_str)
  then pattern ← date_formats; matched ← findall pattern (str_strip date_str); matched
  else [].

Definition _process_dates (dates : list string) : list string :=
  let date_words := date_str ← dates; date_fragments date_str in
  List.filter str_isdigit date_words.

(** The cleaning step shared by the expander and the combiner:
    [re.sub(r'[^\w]', '', word.lower())]. *)
Definition clean (word : string) : string := strip_nonword (str_lower word).

(** [_generate_leet_variations] *)
Definition leet_options (char : ascii) : list ascii :=
  match dict_get char leet_substitutions with
  | Some subs => char :: subs
  | None => [char]
  end.

Definition leet_emit (original leet_word : string) : list string :=
  if String.eqb leet_word original then []
  else [leet_word; str_capitalize leet_word].

Definition _generate_leet_variations (word : string) : gset string :=
  let lowered := str_lower word in
  let leet_chars := leet_options <$> list_ascii_of_string lowered in
  if Nat.leb (length leet_chars) 6
  then list_to_set
         (combination ← product leet_chars;
          leet_emit lowered (str_join combination))
  else list_to_set
         (entry ← leet_substitutions; sub ← entry.2;
          leet_emit lowered (str_replace entry.1 sub lowered)).

Section generator.

(** The year the constructor reads from the clock, and the order in which
    a set of strings is iterated. *)
Context (current_year : Z) (enum : gset string → list string).

Definition years : list string :=
  str_of_int <$> py_range (current_year - 50) (current_year + 5).

(** [_generate_word_variations]: everything added to [variations], then
    the final length filter. *)
Definition affix_forms (clean_word : string) : list string :=
  prefix ← prefixes; suffix ← suffixes;
  if truthy prefix || truthy suffix
  then [prefix ++ clean_word ++ suffix;
        prefix ++ str_capitalize clean_word ++ suffix]
  else [].

Definition number_forms (clean_word : string) : list string :=
  num ← common_numbers;
  [clean_word ++ num; str_capitalize clean_word ++ num; num ++ clean_word].

Definition year_forms (clean_word : string) : list string :=
  year ← years;
  [clean_word ++ year; str_capitalize clean_word ++ year].

Definition plain_forms (clean_word : string) (include_years : bool) : list string :=
  [clean_word; str_capitalize clean_word; str_upper clean_word]
  ++ affix_forms clean_word
  ++ number_forms clean_word
  ++ (if include_years then year_forms clean_word else []).

Definition raw_variations (clean_word : string) (include_leet include_years : bool)
    : gset string :=
  list_to_set (plain_forms clean_word include_years)
  ∪ (if include_leet then _generate_leet_variations clean_word else ∅).

Definition _generate_word_variations (word : string) (include_leet include_years : bool)
    : gset string :=
  let clean_word := clean word in
  if str_empty clean_word then ∅
  else filter (λ v, (3 ≤ String.length v)%nat)
         (raw_variations clean_word include_leet include_years).

(** [_generate_combinations]: the set built by the loops, then the cap,
    which keeps the first 1000 strings in iteration order. *)
Definition combo_forms (combo : string) (include_years : bool) : list string :=
  [combo; str_capitalize combo]
  ++ ((λ num, combo ++ num) <$> take 3 common_numbers)
  ++ (if include_years then (λ year, combo ++ year) <$> take 5 years else []).

Definition pair_forms (word1 word2 : string) (include_years : bool) : list string :=
  let clean_word1 := clean word1 in
  let clean_word2 := clean word2 in
  if str_empty clean_word1 || str_empty clean_word2 then []
  else sep ← separators;
       combo_forms (clean_word1 ++ sep ++ clean_word2) include_years.

Definition combination_list (words : list string) (include_years : bool) : list string :=
  iw1 ← enumerate words; jw2 ← enumerate words;
  if Nat.eqb iw1.1 jw2.1 then []
  else pair_forms iw1.2 jw2.2 include_years.

Definition all_combinations (words : list string) (include_years : bool) : gset string :=
  list_to_set (combination_list words include_years).

Definition _generate_combinations (words : list string) (include_leet include_years : bool)
    : gset string :=
  if Nat.ltb (length words) 2 then ∅
  else list_to_set (take 1000 (enum (all_combinations words include_years))).

(** [_prioritize_words] and its local function [word_score]; [word[0]]
    raises on the empty word. *)
Fixpoint year_bonus (ys : list string) (word : string) : Z :=
  match ys with
  | [] => 0
  | year :: ys' => if str_contains year word then 15 else year_bonus ys' word
  end.

Definition leet_count (word : string) : Z :=
  Z.of_nat (String.length (str_filter (λ char, chr_in char "@31057!") word)).

Definition word_score (word : string) : option Z :=
  let score := 0 in
  let score := score + Z.max 0 (20 - Z.of_nat (String.length word)) in
  let score := if search_digits_dollar word then score + 10 else score in
  first ← str_head word;
  let score :=
    if chr_isupper first && str_islower (str_tail word)
    then score + 5 else score in
  let score := score + year_bonus (take 10 years) word in
  let score := score + Z.min (leet_count word * 3) 10 in
  Some score.

Definition _prioritize_words (wordlist : list string) (max_words : Z)
    : option (list string) :=
  scored_words ← mapM (λ word, pair word <$> word_score word) wordlist;
  let scored_words := sort_by_key_desc snd scored_words in
  Some (fst <$> slice_to max_words scored_words).

(** [generate_wordlist]; the keyword arguments are its parameters. *)
Definition base_words_of (names dates pets interests : list string) : list string :=
  let kept l := List.filter truthy (str_strip <$> l) in
  kept names ++ kept pets ++ kept interests ++ _process_dates dates.

(** The set [wordlist] once every update has been made. *)
Definition wordlist_set (names dates pets interests : list string)
    (include_years include_leet include_combinations : bool) : gset string :=
  let base_words := base_words_of names dates pets interests in
  let wordlist :=
    ⋃ ((λ word,
          if truthy word
          then _generate_word_variations word include_leet include_years
          else ∅) <$> base_words) in
  if include_combinations && negb (bool_decide (base_words = []))
  then wordlist ∪ _generate_combinations (take 5 base_words) include_leet include_years
  else wordlist.

Definition generate_wordlist (names dates pets interests : list string)
    (include_years include_leet include_combinations : bool) (max_words : Z)
    : option (list string) :=
  let wordlist :=
    wordlist_set names dates pets interests
      include_years include_leet include_combinations in
  let final_wordlist := sorted (enum wordlist) in
  if negb (max_words =? 0) && (max_words <? Z.of_nat (length final_wordlist))
  then _prioritize_words final_wordlist max_words
  else Some final_wordlist.

End generator.

(** ** [get_wordlist_stats]

    The statistics are a [dict] from field names to values.  A float is
    modelled as a rational: the quotient is exact, and [round(x, 2)]
    keeps two decimals, ties to even. *)

Inductive stat_value :=
  | StatInt (n : Z)
  | StatFloat (q : Q)
  | StatDict (d : gmap string Z).

Definition round2 (q : Q) : Q :=
  let scaled := (q * 100)%Q in
  let low := Qfloor scaled in
  let nearest :=
    match (scaled - inject_Z low ?= 1 # 2)%Q with
    | Lt => low
    | Gt => low + 1
    | Eq => if Z.even low then low else low + 1
    end in
  (nearest # 100)%Q.

(** [d[k] += 1] *)
Definition incr (k : string) (d : gmap string Z) : gmap string Z :=
  <[k := d !!! k + 1]> d.

Definition count_charsets (distribution : gmap string Z) (word : string)
    : gmap string Z :=
  let has_lower := str_any chr_islower word in
  let has_upper := str_any chr_isupper word in
  let has_digit := str_any chr_isdigit word in
  let has_symbol := str_any (λ c, negb (chr_isalnum c)) word in
  let distribution :=
    if has_lower && negb has_upper then incr "lowercase_only" distribution
    else if has_upper && negb has_lower then incr "uppercase_only" distribution
    else if has_lower && has_upper then incr "mixed_case" distribution
    else distribution in
  let distribution :=
    if has_digit then incr "with_numbers" distribution else distribution in
  if has_symbol then incr "with_symbols" distribution else distribution.

Definition _analyze_charset_distribution (wordlist : list string) : gmap string Z :=
  foldl count_charsets
    (list_to_map
       [("lowercase_only", 0); ("uppercase_only", 0); ("mixed_case", 0);
        ("with_numbers", 0); ("with_symbols", 0)])
    wordlist.

Definition get_wordlist_stats (wordlist : list string) : gmap string stat_value :=
  match wordlist with
  | [] =>
      list_to_map
        [("total_words", StatInt 0); ("avg_length", StatInt 0);
         ("min_length", StatInt 0); ("max_length", StatInt 0);
         ("unique_words", StatInt 0)]
  | first :: rest =>
      let lengths := (λ word, Z.of_nat (String.length word)) <$> wordlist in
      let total := Z.of_nat (length lengths) in
      list_to_map
        [("total_words", StatInt (Z.of_nat (length wordlist)));
         ("avg_length",
          StatFloat (round2 (inject_Z (foldr Z.add 0 lengths) / inject_Z total)));
         ("min_length", StatInt (foldr Z.min (Z.of_nat (String.length first)) lengths));
         ("max_length", StatInt (foldr Z.max (Z.of_nat (String.length first)) lengths));
         ("unique_words",
          StatInt (Z.of_nat (size (list_to_set wordlist : gset string))));
         ("charset_distribution",
          StatDict (_analyze_charset_distribution wordlist))]
  end.

(** ** Export

    [export_wordlist] opens the file for writing, which empties it, and
    writes each word followed by a newline.  The file system is a map
    from paths to contents; [writable] tells for which paths [open]
    succeeds.  For the others the exception is caught: the call returns
    [False] and no file changes.  Every string of the model is encoded
    by UTF-8, so that no write fails on its text; a failure of the
    device during a write, which the code also catches, leaving a part
    of the words in the file, is not modelled: what is proved of a
    successful export is stated of a call that returns [True]. *)

Definition newline : string := String "010" EmptyString.

(** [f.write(s)] on the text written so far. *)
Definition write (f : string) (s : string) : string := (f ++ s)%string.

Definition export_wordlist (writable : string → bool) (fs : gmap string string)
    (wordlist : list string) (filename : string) : bool * gmap string string :=
  if writable filename
  then
    let f := foldl (λ f word, write f (word ++ newline)%string) EmptyString wordlist in
    (true, <[filename := f]> fs)
  else (false, fs).

(** ** Notions used to state the properties *)

(** An iteration order lists every element of the set exactly once. *)
Definition valid_enum (enum : gset string → list string) : Prop :=
  ∀ X, enum X ≡ₚ elements X.

(** The characters that may replace a letter. *)
Definition is_substitute (c : ascii) : bool :=
  existsb (λ entry, existsb (Ascii.eqb c) entry.2) leet_substitutions.

(** [v] has a substitute character at a position where it differs from
    [original]. *)
Fixpoint marked (v original : string) : bool :=
  match v, original with
  | String a v', String b original' =>
      (negb (Ascii.eqb a b) && is_substitute a) || marked v' original'
  | _, _ => false
  end.

(** [x] occurs in [l] with [y] somewhere after it. *)
Inductive before {A} (x y : A) : list A → Prop :=
  | before_here l : y ∈ l → before x y (x :: l)
  | before_later z l : before x y l → before x y (z :: l).

(** The score of a word, for words on which [word_score] does not fail. *)
Definition score_of (current_year : Z) (word : string) : Z :=
  default 0 (word_score current_year word).

(** The fields of the statistics record. *)
Definition stats_fields : list string :=
  ["total_words"; "avg_length"; "min_length"; "max_length"; "unique_words";
   "charset_distribution"].

(** A bound on the number of variations of one seed: the forms built from
    the affix, number and year tables, and the leetspeak forms. *)
Definition variations_bound (word : string) : nat :=
  (235 + size (_generate_leet_variations (clean word)))%nat.

(** A string without a line feed. *)
Definition chr_notnl (c : ascii) : bool := negb (Ascii.eqb c "010").
Definition no_newline (s : string) : bool := str_all chr_notnl s.

(** The score as the specification words it, over a set of leet marker
    characters and the first ten years of the window. *)
Fixpoint str_last (s : string) : option ascii :=
  match s with
  | EmptyString => None
  | String c EmptyString => Some c
  | String _ r => str_last r
  end.

Definition ends_in_digit (w : string) : bool :=
  match str_last w with
  | Some c => chr_isdigit c
  | None => false
  end.

(** First character upper-case and the rest lower-case, in the sense of
    [islower]: no upper-case character and at least one lower-case one. *)
Definition is_capitalized (w : string) : bool :=
  match w with
  | EmptyString => false
  | String c r =>
      chr_isupper c
      && str_all (λ x, negb (chr_isupper x)) r
      && str_any chr_islower r
  end.

Definition has_year (top_years : list string) (w : string) : bool :=
  existsb (λ year, str_contains year w) top_years.

Definition marker_count (markers : list ascii) (w : string) : Z :=
  Z.of_nat (length (List.filter (λ c, bool_decide (c ∈ markers))
                      (list_ascii_of_string w))).

Definition score_formula (markers : list ascii) (top_years : list string)
    (w : string) : Z :=
  Z.max 0 (20 - Z.of_nat (String.length w))
  + (if ends_in_digit w then 10 else 0)
  + (if is_capitalized w then 5 else 0)
  + (if has_year top_years w then 15 else 0)
  + Z.min (3 * marker_count markers w) 10.

(** The marker set of the specification, and the one of the code. *)
Definition spec_markers : list ascii := ["@"; "3"; "1"; "0"; "5"; "7"]%char.
Definition code_markers : list ascii := ["@"; "3"; "1"; "0"; "5"; "7"; "!"]%char.

(** Two iteration orders: one yields the word [w] first, the other
    yields it last. *)
Definition enum_first (w : string) (X : gset string) : list string :=
  if decide (w ∈ X) then w :: elements (X ∖ {[w]}) else elements X.

Definition enum_last (w : string) (X : gset string) : list string :=
  if decide (w ∈ X) then elements (X ∖ {[w]}) ++ [w] else elements X.

(** Each string is smaller than the next one. *)
Fixpoint strictly_increasing (l : list string) : bool :=
  match l with
  | x :: (y :: _) as l' => String.ltb x y && strictly_increasing l'
  | _ => true
  end.

(** A letter that has leetspeak substitutes. *)
Definition is_leet_letter (c : ascii) : bool :=
  match dict_get c leet_substitutions with
  | Some _ => true
  | None => false
  end.

(** A group captured by pattern [p]: a run of digits whose length is
    allowed by one of the digit items of [p]. *)
Definition group_of (p : regex) (g : string) : Prop :=
  str_all chr_isdigit g = true
  ∧ ∃ lo hi, Digits lo hi ∈ p ∧ (lo ≤ String.length g ≤ hi)%nat.

(** How many words of the list satisfy [P]. *)
Definition count_where (P : string → bool) (wordlist : list string) : Z :=
  Z.of_nat (length (List.filter P wordlist)).

(** The keys of the character set distribution and the class of words
    each one counts. *)
Definition charset_keys : gset string :=
  {[ "lowercase_only"; "uppercase_only"; "mixed_case"; "with_numbers";
     "with_symbols" ]}.

Definition lowercase_only (w : string) : bool :=
  str_any chr_islower w && negb (str_any chr_isupper w).
Definition uppercase_only (w : string) : bool :=
  str_any chr_isupper w && negb (str_any chr_islower w).
Definition mixed_case (w : string) : bool :=
  str_any chr_islower w && str_any chr_isupper w.
Definition with_numbers (w : string) : bool := str_any chr_isdigit w.
Definition with_symbols (w : string) : bool :=
  str_any (λ c, negb (chr_isalnum c)) w.
Definition has_cased (w : string) : bool :=
  str_any chr_islower w || str_any chr_isupper w.

Definition bump (b : bool) : Z := if b then 1 else 0.

(** The lines of a text, without their newlines; [current] is the part
    of the line read so far.  Text after the last newline is a line of
    its own when it is not empty. *)
Fixpoint lines_from (current content : string) : list string :=
  match content with
  | EmptyString => if str_empty current then [] else [current]
  | String c r =>
      if Ascii.eqb c "010" then current :: lines_from EmptyString r
      else lines_from (current ++ String c EmptyString) r
  end.

Definition lines (content : string) : list string :=
  lines_from EmptyString content.

(** The alphabet of the generated words: letters, digits, the underscore
    and the symbols of the affix, separator and substitution tables. *)
Definition chr_allowed (c : ascii) : bool :=
  chr_isword c || chr_in c "!@#$-.".
Definition in_alphabet (s : string) : bool := str_all chr_allowed s.

(** Two seeds with the same cleaned form, both blank or both not. *)
Definition same_seed (a b : string) : Prop :=
  clean a = clean b ∧ truthy (str_strip a) = truthy (str_strip b).

(** Two base words with the same cleaned form, both empty or both not. *)
Definition same_word (a b : string) : Prop :=
  clean a = clean b ∧ truthy a = truthy b.

(** [s.isascii()]: the text on which the model and Python agree. *)
Definition chr_isascii (c : ascii) : bool := Nat.ltb (code c) 128.
Definition str_isascii (s : string) : bool := str_all chr_isascii s.
Definition ascii_text (l : list string) : Prop :=
  Forall (λ s, str_isascii s = true) l.

(** * Properties *)

(** ** Characters and strings *)

Ltac by_cases_on c :=
  destruct c as [[] [] [] [] [] [] [] []]; vm_compute; intuition congruence.

Lemma substitute_upper c : is_substitute c = true → chr_upper c = c.
Proof. by_cases_on c. Qed.

Lemma substitute_lower c : is_substitute c = true → chr_lower c = c.
Proof. by_cases_on c. Qed.

Lemma table_entry_spec entry sub :
  entry ∈ leet_substitutions → sub ∈ entry.2 →
  sub ≠ entry.1 ∧ is_substitute sub = true.
Proof.
  unfold leet_substitutions. rewrite !elem_of_cons, elem_of_nil.
  intros H Hs.
  repeat (destruct H as [-> | H]); try tauto; simpl in Hs;
    rewrite ?elem_of_cons, elem_of_nil in Hs;
    repeat (destruct Hs as [-> | Hs]); try tauto; split;
    (discriminate || reflexivity).
Qed.

Lemma dict_get_Some {V} k (d : list (ascii * V)) v :
  dict_get k d = Some v → (k, v) ∈ d.
Proof.
  induction d as [|[k' v'] d IH]; simpl; [done|].
  destruct (Ascii.eqb_spec k k') as [->|]; [|right; auto].
  intros [= ->]. left.
Qed.

Lemma leet_options_spec c x :
  x ∈ leet_options c → x = c ∨ (x ≠ c ∧ is_substitute x = true).
Proof.
  unfold leet_options. destruct (dict_get c leet_substitutions) as [subs|] eqn:E.
  - apply dict_get_Some in E. rewrite elem_of_cons. intros [-> | Hx]; [by left|].
    right. exact (table_entry_spec (c, subs) x E Hx).
  - rewrite list_elem_of_singleton. by left.
Qed.

Lemma marked_irrefl s : marked s s = false.
Proof.
  induction s as [|c s IH]; simpl; [done|].
  by rewrite Ascii.eqb_refl, IH.
Qed.

Lemma marked_neq v s : marked v s = true → v ≠ s.
Proof. intros H ->. by rewrite marked_irrefl in H. Qed.

Lemma marked_map f v s :
  (∀ c, is_substitute c = true → f c = c) →
  marked v s = true → marked (str_map f v) s = true.
Proof.
  intros Hf. revert s. induction v as [|a v IH]; intros [|b s]; simpl; try done.
  rewrite !orb_true_iff, !andb_true_iff, !negb_true_iff.
  intros [[Hab Ha] | H]; [left | right; by apply IH].
  by rewrite (Hf a Ha).
Qed.

Lemma marked_capitalize v s :
  marked v s = true → marked (str_capitalize v) s = true.
Proof.
  destruct v as [|a v], s as [|b s]; simpl; try done.
  rewrite !orb_true_iff, !andb_true_iff, !negb_true_iff.
  intros [[Hab Ha] | H].
  - left. by rewrite (substitute_upper a Ha).
  - right. apply marked_map; [apply substitute_lower | done].
Qed.

Lemma elem_of_product {A} (xs : list A) (ls : list (list A)) :
  xs ∈ product ls ↔ Forall2 (λ x l, x ∈ l) xs ls.
Proof.
  revert xs. induction ls as [|l ls IH]; intros xs; simpl.
  - rewrite list_elem_of_singleton. split; [intros ->; constructor | by inversion 1].
  - rewrite list_elem_of_bind. split.
    + intros (x & Hxs & Hx). apply list_elem_of_fmap in Hxs as (ys & -> & Hys).
      constructor; [done | by apply IH].
    + inversion 1 as [|x l' ys ls' Hx Hys]; subst.
      exists x. split; [|done]. apply list_elem_of_fmap. exists ys. split; [done | by apply IH].
Qed.

(** A choice of options that is not the word itself is marked. *)
Lemma product_marked (comb : list ascii) (s : string) :
  Forall2 (λ x l, x ∈ l) comb (leet_options <$> list_ascii_of_string s) →
  str_join comb ≠ s → marked (str_join comb) s = true.
Proof.
  revert comb. induction s as [|c s IH]; intros comb; simpl.
  - inversion 1; subst. done.
  - inversion 1 as [|x l comb' ls Hx Hrest]; subst. simpl. intros Hne.
    apply leet_options_spec in Hx as [-> | [Hxc Hsub]].
    + rewrite Ascii.eqb_refl. simpl. apply IH; [done | congruence].
    + apply Ascii.eqb_neq in Hxc. by rewrite Hxc, Hsub.
Qed.

Lemma replace_marked a b (s : string) :
  b ≠ a → is_substitute b = true →
  str_replace a b s ≠ s → marked (str_replace a b s) s = true.
Proof.
  intros Hba Hb. unfold str_replace.
  induction s as [|c s IH]; simpl; [done|]. intros Hne.
  destruct (Ascii.eqb_spec c a) as [->|Hca].
  - apply Ascii.eqb_neq in Hba. by rewrite Hba, Hb.
  - rewrite Ascii.eqb_refl. simpl. apply IH. congruence.
Qed.

Lemma leet_emit_marked original leet_word v :
  (leet_word ≠ original → marked leet_word original = true) →
  v ∈ leet_emit original leet_word → marked v original = true.
Proof.
  unfold leet_emit. intros Hm.
  destruct (String.eqb_spec leet_word original) as [|Hne]; [by rewrite elem_of_nil|].
  rewrite !elem_of_cons, elem_of_nil. intros [-> | [-> | []]].
  - by apply Hm.
  - by apply marked_capitalize, Hm.
Qed.

Lemma leet_variations_marked word v :
  v ∈ _generate_leet_variations word → marked v (str_lower word) = true.
Proof.
  unfold _generate_leet_variations.
  destruct (Nat.leb _ 6); rewrite elem_of_list_to_set, list_elem_of_bind.
  - intros (comb & Hv & Hcomb). apply elem_of_product in Hcomb.
    eapply leet_emit_marked; [|done]. by apply product_marked.
  - intros (entry & Hv & Hentry). apply list_elem_of_bind in Hv as (sub & Hv & Hsub).
    destruct (table_entry_spec entry sub Hentry Hsub) as [Hne Hs].
    eapply leet_emit_marked; [|done]. by apply replace_marked.
Qed.

(** ** The stable sort *)

Section sort_facts.
Context {A : Type} (le : A → A → bool).
#[local] Abbreviation R := (λ a b, le a b = true).

Lemma sort_insert_perm x l : sort_insert le x l ≡ₚ x :: l.
Proof.
  induction l as [|y l IH]; simpl; [done|].
  destruct (le x y); [done|]. by rewrite IH, Permutation_swap.
Qed.

Lemma stable_sort_perm l : stable_sort le l ≡ₚ l.
Proof.
  induction l as [|x l IH]; simpl; [done|].
  by rewrite sort_insert_perm, IH.
Qed.

Lemma stable_sort_length l : length (stable_sort le l) = length l.
Proof. by rewrite stable_sort_perm. Qed.

Lemma elem_of_stable_sort x l : x ∈ stable_sort le l ↔ x ∈ l.
Proof. by rewrite stable_sort_perm. Qed.

Hypothesis le_total : ∀ a b, le a b = true ∨ le b a = true.
Hypothesis le_trans : ∀ a b c, le a b = true → le b c = true → le a c = true.

Lemma sort_insert_sorted x l :
  StronglySorted R l → StronglySorted R (sort_insert le x l).
Proof.
  induction 1 as [|y l Hl IH Hy]; simpl; [by repeat constructor|].
  destruct (le x y) eqn:Hxy.
  - constructor; [by constructor|]. constructor; [done|].
    eapply Forall_impl; [exact Hy|]. simpl. eauto.
  - constructor; [done|]. rewrite sort_insert_perm. constructor; [|done].
    destruct (le_total x y); congruence.
Qed.

Lemma stable_sort_sorted l : StronglySorted R (stable_sort le l).
Proof.
  induction l as [|x l IH]; simpl; [constructor|]. by apply sort_insert_sorted.
Qed.

(** Stability: the sort never moves an element past one it is [le] to. *)
Lemma before_sort_insert x y z l :
  before x y l → before x y (sort_insert le z l).
Proof.
  induction 1 as [l Hy|w l Hb IH]; simpl.
  - destruct (le z x); [by do 2 constructor|].
    constructor. rewrite sort_insert_perm. by right.
  - destruct (le z w); by repeat constructor.
Qed.

Lemma before_sort_insert_new x y l :
  y ∈ l → le x y = true → before x y (sort_insert le x l).
Proof.
  induction l as [|z l IH]; [by rewrite elem_of_nil|]. simpl. intros Hy Hxy.
  destruct (le x z) eqn:Hxz; [by constructor|].
  apply elem_of_cons in Hy as [->|Hy]; [congruence|].
  constructor. by apply IH.
Qed.

Lemma stable_sort_stable x y l :
  before x y l → le x y = true → before x y (stable_sort le l).
Proof.
  induction 1 as [l Hy|z l Hb IH]; simpl; intros Hxy.
  - apply before_sort_insert_new; [|done]. by rewrite elem_of_stable_sort.
  - by apply before_sort_insert, IH.
Qed.

End sort_facts.

Lemma before_elem_of {A} (x y : A) l : before x y l → x ∈ l ∧ y ∈ l.
Proof.
  induction 1 as [l Hy|z l Hb [IHx IHy]]; split; try (by left); try (by right).
Qed.

Lemma before_take {A} (x y : A) l n :
  NoDup l → before x y l → y ∈ take n l → x ∈ take n l.
Proof.
  intros Hnd Hb. revert n Hnd.
  induction Hb as [l Hy|z l Hb IH]; intros [|n] Hnd; simpl;
    rewrite ?elem_of_nil; try done.
  - intros _. by left.
  - apply NoDup_cons in Hnd as [Hz Hnd].
    rewrite !elem_of_cons. intros [->|H].
    + destruct Hz. by apply before_elem_of in Hb as [_ ?].
    + right. by apply IH.
Qed.

Lemma stable_sort_fmap {A B} (f : A → B) (leA : A → A → bool) (leB : B → B → bool) l :
  (∀ a b, leB (f a) (f b) = leA a b) →
  stable_sort leB (f <$> l) = f <$> stable_sort leA l.
Proof.
  intros Hle. unfold stable_sort.
  induction l as [|x l IH]; csimpl; [done|]. rewrite IH.
  generalize (foldr (sort_insert leA) [] l). intros s.
  induction s as [|y s IHs]; csimpl; [done|].
  rewrite Hle. destruct (leA x y); csimpl; [done|]. by rewrite IHs.
Qed.

(** ** The order on strings *)

Lemma leb_trans (a b c : string) :
  String.leb a b = true → String.leb b c = true → String.leb a c = true.
Proof.
  unfold String.leb.
  destruct (String.compare a b) eqn:Hab; try done;
    destruct (String.compare b c) eqn:Hbc; try done; intros _ _.
  - apply String.compare_eq_iff in Hab as ->. by rewrite Hbc.
  - apply String.compare_eq_iff in Hab as ->. by rewrite Hbc.
  - apply String.compare_eq_iff in Hbc as ->. by rewrite Hab.
  - apply String_as_OT.cmp_lt in Hab, Hbc.
    pose proof (String_as_OT.lt_trans _ _ _ Hab Hbc) as Hac.
    apply String_as_OT.cmp_lt in Hac. unfold String_as_OT.cmp in Hac.
    by rewrite Hac.
Qed.

Lemma ltb_leb_neq (a b : string) :
  String.ltb a b = true ↔ String.leb a b = true ∧ a ≠ b.
Proof.
  unfold String.ltb, String.leb.
  destruct (String.compare a b) eqn:Hab.
  - apply String.compare_eq_iff in Hab. split; [done|]. by intros [_ ?].
  - split; [|done]. intros _. split; [done|]. intros ->.
    pose proof (String.compare_antisym b b) as H. by rewrite Hab in H.
  - split; [done|]. by intros [? _].
Qed.

#[local] Instance leb_antisym_inst : AntiSymm (=) (λ a b, String.leb a b = true).
Proof. intros a b Hab Hba. by apply String.leb_antisym. Qed.

Lemma sorted_sorted l : StronglySorted (λ a b, String.leb a b = true) (sorted l).
Proof. apply stable_sort_sorted; [apply String.leb_total | apply leb_trans]. Qed.

Lemma sorted_perm l : sorted l ≡ₚ l.
Proof. apply stable_sort_perm. Qed.

(** The result of [sorted] does not depend on the order of its input. *)
Lemma sorted_unique l1 l2 : l1 ≡ₚ l2 → sorted l1 = sorted l2.
Proof.
  intros H. apply (StronglySorted_unique (λ a b, String.leb a b = true));
    [apply sorted_sorted..|].
  by rewrite !sorted_perm.
Qed.

Lemma sorted_strict l :
  NoDup l → StronglySorted (λ a b, String.ltb a b = true) (sorted l).
Proof.
  intros Hnd. rewrite <- sorted_perm in Hnd.
  pose proof (sorted_sorted l) as Hs.
  induction Hs as [|x s Hs IH Hx]; [constructor|].
  apply NoDup_cons in Hnd as [Hnotin Hnd].
  constructor; [by apply IH|].
  apply Forall_forall. intros y Hy. apply ltb_leb_neq. split.
  - by eapply Forall_forall in Hx.
  - intros ->. done.
Qed.

(** In a strictly sorted list the smaller of two members comes first. *)
Lemma strict_sorted_before (x y : string) l :
  StronglySorted (λ a b, String.ltb a b = true) l →
  x ∈ l → y ∈ l → String.ltb x y = true → before x y l.
Proof.
  induction 1 as [|z l Hs IH Hz]; [by rewrite elem_of_nil|].
  rewrite !elem_of_cons. intros [->|Hx] [->|Hy] Hxy.
  - apply ltb_leb_neq in Hxy as [_ Hne]. by destruct Hne.
  - by constructor.
  - eapply Forall_forall in Hz; [|exact Hx].
    apply ltb_leb_neq in Hxy as [Hxy Hne], Hz as [Hz _].
    destruct Hne. by apply String.leb_antisym.
  - constructor. by apply IH.
Qed.

(** A list whose sorted form is strictly increasing has no duplicates. *)
Lemma ltb_trans (a b c : string) :
  String.ltb a b = true → String.ltb b c = true → String.ltb a c = true.
Proof.
  rewrite !ltb_leb_neq. intros [Hab Hne] [Hbc _]. split.
  - by eapply leb_trans.
  - intros <-. apply Hne. by apply String.leb_antisym.
Qed.

Lemma strictly_increasing_sorted l :
  strictly_increasing l = true →
  StronglySorted (λ a b, String.ltb a b = true) l.
Proof.
  intros H. apply Sorted_StronglySorted; [intros a b c; apply ltb_trans|].
  induction l as [|x [|y l] IH]; [constructor | by repeat constructor |].
  simpl in H. apply andb_true_iff in H as [Hxy H].
  constructor; [by apply IH | by constructor].
Qed.

Lemma strictly_increasing_NoDup l : strictly_increasing l = true → NoDup l.
Proof.
  intros H%strictly_increasing_sorted.
  induction H as [|x l Hl IH Hx]; constructor; [|done].
  intros Hin. eapply Forall_forall in Hx; [|exact Hin].
  apply ltb_leb_neq in Hx as [_ Hx]. done.
Qed.

Lemma NoDup_by_sorting (l : list string) :
  strictly_increasing (merge_sort String.le l) = true → NoDup l.
Proof.
  intros H%strictly_increasing_NoDup. by rewrite merge_sort_Permutation in H.
Qed.

(** ** Lengths of strings *)

Lemma app_cons c (a b : string) : (String c a ++ b)%string = String c (a ++ b).
Proof. reflexivity. Qed.

Lemma str_length_app (a b : string) :
  String.length (a ++ b) = (String.length a + String.length b)%nat.
Proof. induction a as [|c a IH]; [done|]. rewrite app_cons. simpl. by rewrite IH. Qed.

Lemma str_length_map f s : String.length (str_map f s) = String.length s.
Proof. induction s as [|c s IH]; simpl; [done|]. by rewrite IH. Qed.

Lemma str_length_capitalize s : String.length (str_capitalize s) = String.length s.
Proof. destruct s; simpl; [done|]. unfold str_lower. by rewrite str_length_map. Qed.

Lemma str_empty_length s : str_empty s = false ↔ (1 ≤ String.length s)%nat.
Proof. destruct s; simpl; split; (done || lia). Qed.

Lemma str_empty_false s : s ≠ "" → str_empty s = false.
Proof. by destruct s. Qed.

(** ** Iterating a set *)

Section enum_facts.
Context (enum : gset string → list string) (Henum : valid_enum enum).

Lemma elem_of_enum x X : x ∈ enum X ↔ x ∈ X.
Proof. by rewrite (Henum X), elem_of_elements. Qed.

Lemma enum_length X : length (enum X) = size X.
Proof. by rewrite (Henum X). Qed.

Lemma enum_NoDup X : NoDup (enum X).
Proof. rewrite (Henum X). apply NoDup_elements. Qed.

Lemma list_to_set_enum X : list_to_set (enum X) = X.
Proof. apply set_eq. intros x. by rewrite elem_of_list_to_set, elem_of_enum. Qed.

Lemma sorted_enum X : sorted (enum X) = sorted (elements X).
Proof. apply sorted_unique, Henum. Qed.

End enum_facts.

Lemma elem_of_take_1 {A} (x : A) n l : x ∈ take n l → x ∈ l.
Proof.
  rewrite elem_of_take. intros (i & Hi & _). by eapply list_elem_of_lookup_2.
Qed.

(** ** The generator *)

Section generator_facts.
Context (current_year : Z) (enum : gset string → list string).
Context (Henum : valid_enum enum).

Lemma combinations_subset words include_leet include_years w :
  w ∈ _generate_combinations current_year enum words include_leet include_years →
  w ∈ all_combinations current_year words include_years.
Proof.
  unfold _generate_combinations. destruct (Nat.ltb _ 2); [set_solver|].
  rewrite elem_of_list_to_set. intros H%elem_of_take_1. by apply elem_of_enum in H.
Qed.

(** Below the cap, the iteration order plays no part. *)
Lemma combinations_uncapped words include_leet include_years :
  (size (all_combinations current_year words include_years) ≤ 1000)%nat →
  _generate_combinations current_year enum words include_leet include_years
  = if Nat.ltb (length words) 2 then ∅
    else all_combinations current_year words include_years.
Proof.
  intros Hsize. unfold _generate_combinations. destruct (Nat.ltb _ 2); [done|].
  rewrite take_ge by (by rewrite enum_length). by apply list_to_set_enum.
Qed.

Lemma variations_min_length word include_leet include_years w :
  w ∈ _generate_word_variations current_year word include_leet include_years →
  (3 ≤ String.length w)%nat.
Proof.
  unfold _generate_word_variations. destruct (str_empty _); [set_solver|].
  rewrite elem_of_filter. tauto.
Qed.

Lemma combo_forms_min_length combo include_years w :
  w ∈ combo_forms current_year combo include_years →
  (String.length combo ≤ String.length w)%nat.
Proof.
  unfold combo_forms. rewrite !elem_of_app, !elem_of_cons, elem_of_nil.
  intros [[-> | [-> | []]] | [H | H]].
  - done.
  - by rewrite str_length_capitalize.
  - apply list_elem_of_fmap in H as (num & -> & _). rewrite str_length_app. lia.
  - destruct include_years; [|by apply elem_of_nil in H].
    apply list_elem_of_fmap in H as (year & -> & _). rewrite str_length_app. lia.
Qed.

Lemma pair_forms_min_length word1 word2 include_years w :
  w ∈ pair_forms current_year word1 word2 include_years →
  (2 ≤ String.length w)%nat.
Proof.
  unfold pair_forms.
  destruct (str_empty (clean word1)) eqn:H1; [by rewrite elem_of_nil|].
  destruct (str_empty (clean word2)) eqn:H2; [by rewrite elem_of_nil|].
  cbn [orb]. rewrite list_elem_of_bind. intros (sep & Hw & _).
  apply combo_forms_min_length in Hw.
  apply str_empty_length in H1, H2. rewrite !str_length_app in Hw. lia.
Qed.

Lemma all_combinations_min_length words include_years w :
  w ∈ all_combinations current_year words include_years →
  (2 ≤ String.length w)%nat.
Proof.
  unfold all_combinations, combination_list.
  rewrite elem_of_list_to_set, list_elem_of_bind.
  intros (iw1 & Hw & _). apply list_elem_of_bind in Hw as (jw2 & Hw & _).
  destruct (Nat.eqb _ _); [by apply elem_of_nil in Hw|].
  by eapply pair_forms_min_length.
Qed.

Lemma wordlist_set_cases names dates pets interests
    include_years include_leet include_combinations w :
  w ∈ wordlist_set current_year enum names dates pets interests
        include_years include_leet include_combinations →
  (∃ word, word ∈ base_words_of names dates pets interests
     ∧ w ∈ _generate_word_variations current_year word include_leet include_years)
  ∨ w ∈ all_combinations current_year
          (take 5 (base_words_of names dates pets interests)) include_years.
Proof.
  unfold wordlist_set.
  set (base_words := base_words_of names dates pets interests).
  assert (Hvar : ∀ v,
    v ∈ ⋃ ((λ word, if truthy word
                    then _generate_word_variations current_year word
                           include_leet include_years
                    else ∅) <$> base_words) →
    ∃ word, word ∈ base_words
      ∧ v ∈ _generate_word_variations current_year word include_leet include_years).
  { intros v. rewrite elem_of_union_list. intros (X & HX & Hv).
    apply list_elem_of_fmap in HX as (word & -> & Hword).
    destruct (truthy word); [by exists word | set_solver]. }
  destruct (include_combinations && _).
  - rewrite elem_of_union. intros [H | H]; [left; by apply Hvar|].
    right. by eapply combinations_subset.
  - intros H. left. by apply Hvar.
Qed.

(** Every word of the aggregate has at least two characters. *)
Lemma wordlist_set_min_length names dates pets interests
    include_years include_leet include_combinations w :
  w ∈ wordlist_set current_year enum names dates pets interests
        include_years include_leet include_combinations →
  (2 ≤ String.length w)%nat.
Proof.
  intros [(word & _ & H) | H]%wordlist_set_cases.
  - apply variations_min_length in H. lia.
  - by eapply all_combinations_min_length.
Qed.

(** When the ceiling is zero or is not exceeded, the sorted aggregate is
    returned as it is. *)
Lemma generate_untruncated names dates pets interests
    include_years include_leet include_combinations max_words :
  let wordlist := wordlist_set current_year enum names dates pets interests
                    include_years include_leet include_combinations in
  max_words = 0 ∨ Z.of_nat (size wordlist) ≤ max_words →
  generate_wordlist current_year enum names dates pets interests
    include_years include_leet include_combinations max_words
  = Some (sorted (elements wordlist)).
Proof.
  intros wordlist H. unfold generate_wordlist. fold wordlist.
  rewrite (sorted_enum enum Henum).
  assert (Hlen : length (sorted (elements wordlist)) = size wordlist).
  { by rewrite sorted_perm. }
  rewrite Hlen.
  destruct H as [-> | H]; [done|].
  replace (max_words <? Z.of_nat (size wordlist)) with false by lia.
  by rewrite andb_false_r.
Qed.

End generator_facts.

(** ** Scoring and truncation *)

Lemma valid_enum_elements : valid_enum elements.
Proof. by intros X. Qed.

Lemma valid_enum_reverse : valid_enum (reverse ∘ elements).
Proof. intros X. simpl. apply reverse_Permutation. Qed.

Lemma word_score_nonempty current_year word :
  word ≠ "" → word_score current_year word = Some (score_of current_year word).
Proof. unfold score_of. by destruct word. Qed.

Lemma slice_to_fmap {A B} (f : A → B) n l :
  slice_to n (f <$> l) = f <$> slice_to n l.
Proof. unfold slice_to. rewrite length_fmap. destruct (0 <=? n); by rewrite fmap_take. Qed.

(** On non-empty words [_prioritize_words] sorts the words by score,
    best first and stably, and keeps the head of the list. *)
Lemma prioritize_spec current_year wordlist max_words :
  (∀ w, w ∈ wordlist → w ≠ "") →
  _prioritize_words current_year wordlist max_words
  = Some (slice_to max_words (sort_by_key_desc (score_of current_year) wordlist)).
Proof.
  intros Hne. unfold _prioritize_words.
  assert (Hscored :
    mapM (λ word, pair word <$> word_score current_year word) wordlist
    = Some ((λ word, (word, score_of current_year word)) <$> wordlist)).
  { apply mapM_Some_2, Forall2_fmap_r, Forall_Forall2_diag, Forall_forall.
    intros w Hw. by rewrite word_score_nonempty by auto. }
  rewrite Hscored. simpl. f_equal. unfold sort_by_key_desc.
  rewrite (stable_sort_fmap (λ word, (word, score_of current_year word))
             (λ x y, score_of current_year y <=? score_of current_year x))
    by done.
  rewrite slice_to_fmap, <- list_fmap_compose. apply list_fmap_id.
Qed.

(** ** How large the aggregate can be *)

Lemma size_list_to_set_le (l : list string) :
  (size (list_to_set l : gset string) ≤ length l)%nat.
Proof.
  induction l as [|x l IH].
  - by rewrite list_to_set_nil, size_empty.
  - rewrite list_to_set_cons, size_union_alt, size_singleton. simpl.
    assert (size ((list_to_set l : gset string) ∖ {[x]})
            ≤ size (list_to_set l : gset string))%nat
      by (apply subseteq_size; intros y; rewrite elem_of_difference; tauto).
    lia.
Qed.

Lemma size_union_le (X Y : gset string) : (size (X ∪ Y) ≤ size X + size Y)%nat.
Proof.
  rewrite size_union_alt.
  assert (size (Y ∖ X) ≤ size Y)%nat
    by (apply subseteq_size; intros y; rewrite elem_of_difference; tauto).
  lia.
Qed.

Lemma size_filter_le (P : string → Prop) `{!∀ x, Decision (P x)} (X : gset string) :
  (size (filter P X) ≤ size X)%nat.
Proof. apply subseteq_size. intros x. rewrite elem_of_filter. tauto. Qed.

Lemma length_bind_le {A B} (f : A → list B) (l : list A) k :
  (∀ x, length (f x) ≤ k)%nat → (length (l ≫= f) ≤ k * length l)%nat.
Proof.
  intros Hf. induction l as [|x l IH]; csimpl; [lia|].
  rewrite length_app. specialize (Hf x). lia.
Qed.

Lemma years_length current_year : length (years current_year) = 55%nat.
Proof. unfold years, py_range. rewrite length_fmap, length_seqZ. lia. Qed.

Section size_facts.
Context (current_year : Z) (enum : gset string → list string).
Context (Henum : valid_enum enum).

Lemma plain_forms_length clean_word (include_years : bool) :
  (length (plain_forms current_year clean_word include_years) ≤ 235)%nat.
Proof.
  unfold plain_forms. rewrite !length_app.
  assert (length (affix_forms clean_word) = 98%nat) as -> by reflexivity.
  assert (length (number_forms clean_word) = 24%nat) as -> by reflexivity.
  assert (length (year_forms current_year clean_word) ≤ 110)%nat.
  { unfold year_forms.
    etrans; [apply (length_bind_le _ _ 2); by intros|]. rewrite years_length. lia. }
  destruct include_years; simpl; lia.
Qed.

Lemma variations_size word include_leet include_years :
  (size (_generate_word_variations current_year word include_leet include_years)
   ≤ 235 + size (_generate_leet_variations (clean word)))%nat.
Proof.
  unfold _generate_word_variations.
  destruct (str_empty _); [rewrite size_empty; lia|].
  etrans; [apply size_filter_le|]. unfold raw_variations.
  etrans; [apply size_union_le|].
  apply Nat.add_le_mono.
  - etrans; [apply size_list_to_set_le | apply plain_forms_length].
  - destruct include_leet; [done|]. rewrite size_empty. lia.
Qed.

Lemma combo_forms_length combo include_years :
  (length (combo_forms current_year combo include_years) ≤ 10)%nat.
Proof.
  unfold combo_forms. rewrite !length_app, length_fmap. simpl.
  destruct include_years; simpl; [|lia].
  rewrite length_fmap, length_take. lia.
Qed.

Lemma pair_forms_length word1 word2 include_years :
  (length (pair_forms current_year word1 word2 include_years) ≤ 70)%nat.
Proof.
  unfold pair_forms. destruct (_ || _); [simpl; lia|].
  etrans; [apply (length_bind_le _ _ 10); intros; apply combo_forms_length|].
  simpl. lia.
Qed.

Lemma all_combinations_size words include_years :
  (size (all_combinations current_year words include_years)
   ≤ 70 * length words * length words)%nat.
Proof.
  unfold all_combinations, combination_list. etrans; [apply size_list_to_set_le|].
  etrans; [apply (length_bind_le _ _ (70 * length words))|].
  - intros iw1.
    etrans; [apply (length_bind_le _ _ 70)|].
    + intros jw2. destruct (Nat.eqb _ _); simpl; [lia|apply pair_forms_length].
    + unfold enumerate. by rewrite length_imap.
  - unfold enumerate. rewrite length_imap. lia.
Qed.

(** Membership in the set the combiner builds. *)
Lemma elem_of_all_combinations words include_years i j word1 word2 sep w :
  words !! i = Some word1 → words !! j = Some word2 → i ≠ j →
  clean word1 ≠ "" → clean word2 ≠ "" → sep ∈ separators →
  w ∈ combo_forms current_year (clean word1 ++ sep ++ clean word2) include_years →
  w ∈ all_combinations current_year words include_years.
Proof.
  intros Hi Hj Hij H1 H2 Hsep Hw.
  unfold all_combinations, combination_list. rewrite elem_of_list_to_set.
  apply list_elem_of_bind. exists (i, word1). split.
  2:{ unfold enumerate. apply list_elem_of_lookup. exists i.
      by rewrite list_lookup_imap, Hi. }
  apply list_elem_of_bind. exists (j, word2). split.
  2:{ unfold enumerate. apply list_elem_of_lookup. exists j.
      by rewrite list_lookup_imap, Hj. }
  simpl. apply Nat.eqb_neq in Hij. rewrite Hij.
  unfold pair_forms.
  rewrite (str_empty_false _ H1), (str_empty_false _ H2). cbn [orb].
  apply list_elem_of_bind. by exists sep.
Qed.

End size_facts.

(** ** What the aggregate contains *)

Section aggregate_facts.
Context (current_year : Z) (enum : gset string → list string).
Context (Henum : valid_enum enum).

Lemma base_words_truthy names dates pets interests word :
  word ∈ base_words_of names dates pets interests → truthy word = true.
Proof.
  unfold base_words_of. rewrite !elem_of_app.
  intros [H | [H | [H | H]]];
    try (apply list_elem_of_In, List.filter_In in H; tauto).
  apply list_elem_of_In, List.filter_In in H as [_ H].
  unfold str_isdigit in H. by apply andb_true_iff in H as [? _].
Qed.

Lemma elem_of_wordlist_set_variation names dates pets interests
    include_years include_leet include_combinations word w :
  word ∈ base_words_of names dates pets interests →
  w ∈ _generate_word_variations current_year word include_leet include_years →
  w ∈ wordlist_set current_year enum names dates pets interests
        include_years include_leet include_combinations.
Proof.
  intros Hword Hw. unfold wordlist_set.
  assert (w ∈ ⋃ ((λ word, if truthy word
                    then _generate_word_variations current_year word
                           include_leet include_years
                    else ∅) <$> base_words_of names dates pets interests)).
  { apply elem_of_union_list.
    exists (_generate_word_variations current_year word include_leet include_years).
    split; [|done]. apply list_elem_of_fmap. exists word.
    by rewrite (base_words_truthy _ _ _ _ _ Hword). }
  destruct (_ && _); [apply elem_of_union; by left | done].
Qed.

Lemma elem_of_wordlist_set_combination names dates pets interests
    include_years include_leet w :
  let base_words := base_words_of names dates pets interests in
  (2 ≤ length base_words ≤ 3)%nat →
  w ∈ all_combinations current_year (take 5 base_words) include_years →
  w ∈ wordlist_set current_year enum names dates pets interests
        include_years include_leet true.
Proof.
  intros base_words Hlen Hw. unfold wordlist_set. fold base_words.
  assert (base_words ≠ []) by (intros E; rewrite E in Hlen; simpl in Hlen; lia).
  rewrite bool_decide_eq_false_2 by done. simpl.
  apply elem_of_union. right.
  assert (length (take 5 base_words) = length base_words) as Hl
    by (rewrite length_take; lia).
  rewrite combinations_uncapped; [|done|].
  - replace (Nat.ltb (length (take 5 base_words)) 2) with false; [done|].
    symmetry. apply Nat.ltb_ge. lia.
  - etrans; [apply all_combinations_size|]. rewrite Hl. nia.
Qed.

(** A bound on the size of the aggregate, from the seeds alone. *)
Lemma wordlist_set_size names dates pets interests
    include_years include_leet include_combinations :
  (size (wordlist_set current_year enum names dates pets interests
           include_years include_leet include_combinations)
   ≤ sum_list (variations_bound <$> base_words_of names dates pets interests)
     + 1000)%nat.
Proof.
  unfold wordlist_set.
  set (base_words := base_words_of names dates pets interests).
  assert (Hvar :
    (size (⋃ ((λ word, if truthy word
                 then _generate_word_variations current_year word
                        include_leet include_years
                 else ∅) <$> base_words))
     ≤ sum_list (variations_bound <$> base_words))%nat).
  { induction base_words as [|word ws IH].
    { rewrite fmap_nil, union_list_nil, size_empty. simpl. lia. }
    rewrite !fmap_cons, union_list_cons.
    change (sum_list (variations_bound word :: (variations_bound <$> ws)))
      with (variations_bound word + sum_list (variations_bound <$> ws))%nat.
    etrans; [apply size_union_le|]. apply Nat.add_le_mono; [|done].
    destruct (truthy word); [apply variations_size | rewrite size_empty; lia]. }
  assert (Hcomb : ∀ words,
    (size (_generate_combinations current_year enum words include_leet include_years)
     ≤ 1000)%nat).
  { intros words. unfold _generate_combinations.
    destruct (Nat.ltb _ 2); [rewrite size_empty; lia|].
    etrans; [apply size_list_to_set_le|]. rewrite length_take. lia. }
  destruct (_ && _); [|lia].
  etrans; [apply size_union_le|]. specialize (Hcomb (take 5 base_words)). lia.
Qed.

End aggregate_facts.

(** ** Generated words have no line feed *)

Lemma no_newline_app (a b : string) :
  no_newline (a ++ b) = no_newline a && no_newline b.
Proof.
  unfold no_newline. induction a as [|c a IH]; [done|].
  rewrite app_cons. simpl. by rewrite IH, andb_assoc.
Qed.

Lemma no_newline_map f s :
  (∀ c, chr_notnl c = true → chr_notnl (f c) = true) →
  no_newline s = true → no_newline (str_map f s) = true.
Proof.
  intros Hf. unfold no_newline. induction s as [|c s IH]; simpl; [done|].
  rewrite !andb_true_iff. intros [Hc Hs]. auto.
Qed.

Lemma chr_notnl_upper c : chr_notnl c = true → chr_notnl (chr_upper c) = true.
Proof. by_cases_on c. Qed.

Lemma chr_notnl_lower c : chr_notnl c = true → chr_notnl (chr_lower c) = true.
Proof. by_cases_on c. Qed.

Lemma chr_isword_notnl c : chr_isword c = true → chr_notnl c = true.
Proof. by_cases_on c. Qed.

Lemma substitute_notnl c : is_substitute c = true → chr_notnl c = true.
Proof. by_cases_on c. Qed.

Lemma no_newline_upper s : no_newline s = true → no_newline (str_upper s) = true.
Proof. apply no_newline_map, chr_notnl_upper. Qed.

Lemma no_newline_lower s : no_newline s = true → no_newline (str_lower s) = true.
Proof. apply no_newline_map, chr_notnl_lower. Qed.

Lemma no_newline_capitalize s :
  no_newline s = true → no_newline (str_capitalize s) = true.
Proof.
  destruct s as [|c s]; [done|]. unfold no_newline. simpl.
  rewrite !andb_true_iff. intros [Hc Hs]. split.
  - by apply chr_notnl_upper.
  - by apply no_newline_lower.
Qed.

Lemma no_newline_clean word : no_newline (clean word) = true.
Proof.
  unfold clean, strip_nonword, no_newline.
  induction (str_lower word) as [|c s IH]; simpl; [done|].
  destruct (chr_isword c) eqn:Hc; [|done]. simpl.
  by rewrite (chr_isword_notnl c Hc).
Qed.

Lemma no_newline_uint d : no_newline (NilEmpty.string_of_uint d) = true.
Proof. induction d; simpl; done. Qed.

Lemma no_newline_uint0 d : no_newline (NilZero.string_of_uint d) = true.
Proof. destruct d; [done | apply no_newline_uint ..]. Qed.

Lemma no_newline_str_of_int n : no_newline (str_of_int n) = true.
Proof.
  unfold str_of_int, NilZero.string_of_int.
  destruct (Z.to_int n) as [d|d]; [apply no_newline_uint0|].
  pose proof (no_newline_uint0 d) as H. unfold no_newline in *. exact H.
Qed.

Lemma no_newline_year current_year year :
  year ∈ years current_year → no_newline year = true.
Proof.
  unfold years. intros (n & -> & _)%list_elem_of_fmap. apply no_newline_str_of_int.
Qed.

Lemma tables_no_newline :
  Forall (λ s, no_newline s = true)
    (prefixes ++ suffixes ++ common_numbers ++ separators).
Proof. repeat constructor. Qed.

Lemma prefix_no_newline s : s ∈ prefixes → no_newline s = true.
Proof.
  intros H. eapply (proj1 (Forall_forall _ _) tables_no_newline).
  rewrite !elem_of_app. tauto.
Qed.

Lemma suffix_no_newline s : s ∈ suffixes → no_newline s = true.
Proof.
  intros H. eapply (proj1 (Forall_forall _ _) tables_no_newline).
  rewrite !elem_of_app. tauto.
Qed.

Lemma number_no_newline s : s ∈ common_numbers → no_newline s = true.
Proof.
  intros H. eapply (proj1 (Forall_forall _ _) tables_no_newline).
  rewrite !elem_of_app. tauto.
Qed.

Lemma separator_no_newline s : s ∈ separators → no_newline s = true.
Proof.
  intros H. eapply (proj1 (Forall_forall _ _) tables_no_newline).
  rewrite !elem_of_app. tauto.
Qed.

(** Each character of a leetspeak form is a character of the token or a
    substitute. *)
Lemma no_newline_join_product (comb : list ascii) (s : string) :
  Forall2 (λ x l, x ∈ l) comb (leet_options <$> list_ascii_of_string s) →
  no_newline s = true → no_newline (str_join comb) = true.
Proof.
  unfold no_newline. revert comb. induction s as [|c s IH]; intros comb; simpl.
  - by inversion 1.
  - inversion 1 as [|x l comb' ls Hx Hrest]; subst. simpl.
    rewrite !andb_true_iff. intros [Hc Hs]. split; [|by apply IH].
    apply leet_options_spec in Hx as [-> | [_ Hx]]; [done|].
    by apply substitute_notnl.
Qed.

Lemma no_newline_replace a b s :
  chr_notnl b = true → no_newline s = true →
  no_newline (str_replace a b s) = true.
Proof.
  intros Hb. apply no_newline_map. intros c Hc. by destruct (Ascii.eqb c a).
Qed.

Lemma no_newline_leet_emit original leet_word v :
  no_newline leet_word = true →
  v ∈ leet_emit original leet_word → no_newline v = true.
Proof.
  unfold leet_emit. intros Hl. destruct (String.eqb _ _); [by rewrite elem_of_nil|].
  rewrite !elem_of_cons, elem_of_nil. intros [-> | [-> | []]]; [done|].
  by apply no_newline_capitalize.
Qed.

Lemma no_newline_leet word v :
  no_newline word = true →
  v ∈ _generate_leet_variations word → no_newline v = true.
Proof.
  intros Hw%no_newline_lower. unfold _generate_leet_variations.
  destruct (Nat.leb _ 6); rewrite elem_of_list_to_set, list_elem_of_bind.
  - intros (comb & Hv & Hcomb%elem_of_product).
    eapply no_newline_leet_emit; [|done].
    by apply (no_newline_join_product comb (str_lower word)).
  - intros (entry & Hv & Hentry). apply list_elem_of_bind in Hv as (sub & Hv & Hsub).
    destruct (table_entry_spec entry sub Hentry Hsub) as [_ Hs].
    eapply no_newline_leet_emit; [|done].
    apply no_newline_replace; [by apply substitute_notnl | done].
Qed.

Section newline_facts.
Context (current_year : Z) (enum : gset string → list string).
Context (Henum : valid_enum enum).

Lemma no_newline_variation word include_leet include_years w :
  w ∈ _generate_word_variations current_year word include_leet include_years →
  no_newline w = true.
Proof.
  unfold _generate_word_variations. destruct (str_empty _); [by rewrite elem_of_empty|].
  rewrite elem_of_filter. intros [_ Hw]. unfold raw_variations in Hw.
  pose proof (no_newline_clean word) as Hc.
  pose proof (no_newline_capitalize _ Hc) as Hcap.
  apply elem_of_union in Hw as [Hw | Hw].
  - unfold plain_forms in Hw. rewrite elem_of_list_to_set, !elem_of_app in Hw.
    destruct Hw as [Hw | [Hw | [Hw | Hw]]].
    + rewrite !elem_of_cons, elem_of_nil in Hw.
      destruct Hw as [-> | [-> | [-> | []]]]; [done..|]. by apply no_newline_upper.
    + unfold affix_forms in Hw.
      apply list_elem_of_bind in Hw as (p & Hw & Hp%prefix_no_newline).
      apply list_elem_of_bind in Hw as (s & Hw & Hs%suffix_no_newline).
      destruct (_ || _); [|by apply elem_of_nil in Hw].
      rewrite !elem_of_cons, elem_of_nil in Hw.
      destruct Hw as [-> | [-> | []]]; rewrite !no_newline_app; by rewrite ?Hp, ?Hs, ?Hc, ?Hcap.
    + unfold number_forms in Hw.
      apply list_elem_of_bind in Hw as (n & Hw & Hn%number_no_newline).
      rewrite !elem_of_cons, elem_of_nil in Hw.
      destruct Hw as [-> | [-> | [-> | []]]]; rewrite !no_newline_app; by rewrite ?Hn, ?Hc, ?Hcap.
    + destruct include_years; [|by apply elem_of_nil in Hw].
      unfold year_forms in Hw.
      apply list_elem_of_bind in Hw as (y & Hw & Hy%no_newline_year).
      rewrite !elem_of_cons, elem_of_nil in Hw.
      destruct Hw as [-> | [-> | []]]; rewrite !no_newline_app; by rewrite ?Hy, ?Hc, ?Hcap.
  - destruct include_leet; [|by apply elem_of_empty in Hw].
    by apply (no_newline_leet (clean word) w Hc).
Qed.

Lemma no_newline_combination words include_years w :
  w ∈ all_combinations current_year words include_years → no_newline w = true.
Proof.
  unfold all_combinations, combination_list.
  rewrite elem_of_list_to_set, list_elem_of_bind.
  intros (iw1 & Hw & _). apply list_elem_of_bind in Hw as (jw2 & Hw & _).
  destruct (Nat.eqb _ _); [by apply elem_of_nil in Hw|].
  unfold pair_forms in Hw. destruct (_ || _); [by apply elem_of_nil in Hw|].
  apply list_elem_of_bind in Hw as (sep & Hw & Hsep%separator_no_newline).
  assert (Hcombo : no_newline (clean iw1.2 ++ sep ++ clean jw2.2) = true).
  { by rewrite !no_newline_app, !no_newline_clean, Hsep. }
  unfold combo_forms in Hw. rewrite !elem_of_app, !elem_of_cons, elem_of_nil in Hw.
  destruct Hw as [[-> | [-> | []]] | [Hw | Hw]].
  - done.
  - by apply no_newline_capitalize.
  - apply list_elem_of_fmap in Hw as (n & -> & Hn%elem_of_take_1%number_no_newline).
    by rewrite no_newline_app, Hcombo, Hn.
  - destruct include_years; [|by apply elem_of_nil in Hw].
    apply list_elem_of_fmap in Hw as (y & -> & Hy%elem_of_take_1%no_newline_year).
    by rewrite no_newline_app, Hcombo, Hy.
Qed.

Lemma no_newline_wordlist_set names dates pets interests
    include_years include_leet include_combinations w :
  w ∈ wordlist_set current_year enum names dates pets interests
        include_years include_leet include_combinations →
  no_newline w = true.
Proof.
  intros [(word & _ & H) | H]%(wordlist_set_cases _ _ Henum).
  - by eapply no_newline_variation.
  - by eapply no_newline_combination.
Qed.

End newline_facts.

(** ** The score in closed form *)

Lemma prefix_spec (a b : string) :
  String.prefix a b = true ↔ ∃ s, b = (a ++ s)%string.
Proof.
  revert b. induction a as [|c a IH]; intros b.
  - split; [intros _; by exists b | by destruct b].
  - destruct b as [|d b]; simpl.
    + split; [done | by intros [s Hs]].
    + destruct (ascii_dec c d) as [<-|Hcd].
      * rewrite IH. split; intros [s Hs]; exists s.
        -- by rewrite app_cons, <- Hs.
        -- rewrite app_cons in Hs. by injection Hs.
      * split; [done|]. intros [s Hs]. rewrite app_cons in Hs. by injection Hs.
Qed.

(** [year in word] holds exactly when [word] has [year] as a substring. *)
Lemma str_contains_spec (needle hay : string) :
  str_contains needle hay = true ↔ ∃ p s, hay = (p ++ needle ++ s)%string.
Proof.
  induction hay as [|c hay IH].
  - change (str_contains needle "") with (String.prefix needle "" || false).
    rewrite orb_true_iff, prefix_spec. split.
    + intros [[s Hs] | ?]; [|done]. by exists "", s.
    + intros (p & s & Hps). left. destruct p; [by exists s | done].
  - change (str_contains needle (String c hay))
      with (String.prefix needle (String c hay) || str_contains needle hay).
    rewrite orb_true_iff, prefix_spec, IH. split.
    + intros [[s Hs] | (p & s & Hps)]; [by exists "", s|].
      exists (String c p), s. by rewrite app_cons, <- Hps.
    + intros (p & s & Hps). destruct p as [|d p].
      * left. by exists s.
      * right. rewrite app_cons in Hps. injection Hps as _ Hps. by exists p, s.
Qed.

Lemma no_newline_tail c s : no_newline (String c s) = true → no_newline s = true.
Proof. unfold no_newline. simpl. rewrite andb_true_iff. tauto. Qed.

Lemma at_dollar_no_newline s :
  s ≠ "" → no_newline s = true → at_dollar s = false.
Proof.
  destruct s as [|d [|e s]]; [done| |done]. intros _. unfold no_newline. simpl.
  rewrite andb_true_r. apply negb_true_iff.
Qed.

Lemma match_digits_dollar_spec s :
  no_newline s = true →
  match_digits_dollar s = truthy s && str_all chr_isdigit s.
Proof.
  induction s as [|c s IH]; [done|]. intros Hnl.
  pose proof (no_newline_tail _ _ Hnl) as Hs.
  change (match_digits_dollar (String c s))
    with (chr_isdigit c && (match_digits_dollar s || at_dollar s)).
  rewrite (IH Hs). destruct s as [|d s].
  - simpl. by destruct (chr_isdigit c).
  - by rewrite at_dollar_no_newline, orb_false_r.
Qed.

Lemma all_digits_ends_in_digit s :
  truthy s = true → str_all chr_isdigit s = true → ends_in_digit s = true.
Proof.
  unfold ends_in_digit. induction s as [|c s IH]; simpl; [done|].
  intros _. rewrite andb_true_iff. intros [Hc Hs].
  destruct s as [|d s]; [done|]. by apply IH.
Qed.

Lemma search_digits_dollar_spec s :
  no_newline s = true → search_digits_dollar s = ends_in_digit s.
Proof.
  intros Hnl. induction s as [|c s IH]; [done|].
  pose proof (no_newline_tail _ _ Hnl) as Hs.
  change (search_digits_dollar (String c s))
    with (match_digits_dollar (String c s) || search_digits_dollar s).
  rewrite (match_digits_dollar_spec _ Hnl), (IH Hs). simpl.
  destruct s as [|d s]; [by rewrite andb_true_r, orb_false_r|].
  change (ends_in_digit (String c (String d s))) with (ends_in_digit (String d s)).
  destruct (chr_isdigit c); [|done]. simpl.
  destruct (chr_isdigit d && str_all chr_isdigit s) eqn:Hd; [|done].
  symmetry. by apply all_digits_ends_in_digit.
Qed.

Lemma year_bonus_spec ys w : year_bonus ys w = if has_year ys w then 15 else 0.
Proof.
  unfold has_year. induction ys as [|y ys IH]; simpl; [done|].
  by destruct (str_contains y w).
Qed.

Lemma chr_in_markers c : chr_in c "@31057!" = bool_decide (c ∈ code_markers).
Proof. by_cases_on c. Qed.

Lemma leet_count_spec w : leet_count w = marker_count code_markers w.
Proof.
  unfold leet_count, marker_count. f_equal.
  induction w as [|c w IH]; simpl; [done|].
  rewrite chr_in_markers. destruct (bool_decide _); simpl; by rewrite IH.
Qed.

Lemma str_all_negb p s : str_all (λ x, negb (p x)) s = negb (str_any p s).
Proof.
  induction s as [|c s IH]; simpl; [done|]. by rewrite IH, negb_orb.
Qed.

Lemma capitalized_spec c r :
  chr_isupper c && str_islower r = is_capitalized (String c r).
Proof.
  unfold str_islower, is_capitalized. rewrite str_all_negb.
  destruct (chr_isupper c), (str_any chr_islower r), (str_any chr_isupper r); done.
Qed.

(** The score of a non-empty word without a line feed. *)
Lemma word_score_formula current_year w :
  w ≠ "" → no_newline w = true →
  word_score current_year w
  = Some (score_formula code_markers (take 10 (years current_year)) w).
Proof.
  intros Hne Hnl. destruct w as [|c r]; [done|].
  unfold word_score, score_formula.
  rewrite (search_digits_dollar_spec _ Hnl), year_bonus_spec, leet_count_spec.
  cbn [str_head str_tail mbind option_bind]. rewrite capitalized_spec.
  f_equal.
  destruct (ends_in_digit _), (is_capitalized _), (has_year _ _); lia.
Qed.

(** ** Two iteration orders *)

Lemma elements_remove (w : string) (X : gset string) :
  w ∈ X → elements X ≡ₚ w :: elements (X ∖ {[w]}).
Proof.
  intros Hw. rewrite <- elements_union_singleton.
  - by rewrite <- union_difference_singleton_L.
  - rewrite elem_of_difference, elem_of_singleton. tauto.
Qed.

Lemma valid_enum_first w : valid_enum (enum_first w).
Proof.
  intros X. unfold enum_first. destruct (decide (w ∈ X)); [|done].
  by rewrite <- elements_remove.
Qed.

Lemma valid_enum_last w : valid_enum (enum_last w).
Proof.
  intros X. unfold enum_last. destruct (decide (w ∈ X)); [|done].
  by rewrite <- Permutation_cons_append, <- elements_remove.
Qed.

Lemma take_enum_first w X n : w ∈ X → w ∈ take (S n) (enum_first w X).
Proof.
  intros Hw. unfold enum_first. rewrite decide_True by done. simpl. by left.
Qed.

Lemma take_enum_last w X n : (n < size X)%nat → w ∉ take n (enum_last w X).
Proof.
  intros Hn. unfold enum_last. destruct (decide (w ∈ X)) as [Hw|Hw].
  - assert (size (X ∖ {[w]}) = size X - 1)%nat as Hsize.
    { rewrite size_difference, size_singleton; [done|].
      intros x ->%elem_of_singleton. done. }
    rewrite take_app_le.
    + intros H%elem_of_take_1%elem_of_elements.
      apply elem_of_difference in H as [_ H]. by apply H, elem_of_singleton.
    + change (length (elements (X ∖ {[w]}))) with (size (X ∖ {[w]})). lia.
  - intros H%elem_of_take_1%elem_of_elements. done.
Qed.

Section capped_facts.
Context (current_year : Z) (enum : gset string → list string).

Lemma wordlist_set_cases_capped names dates pets interests
    include_years include_leet include_combinations w :
  w ∈ wordlist_set current_year enum names dates pets interests
        include_years include_leet include_combinations →
  (∃ word, word ∈ base_words_of names dates pets interests
     ∧ w ∈ _generate_word_variations current_year word include_leet include_years)
  ∨ w ∈ _generate_combinations current_year enum
          (take 5 (base_words_of names dates pets interests))
          include_leet include_years.
Proof.
  unfold wordlist_set.
  set (base_words := base_words_of names dates pets interests).
  assert (Hvar : ∀ v,
    v ∈ ⋃ ((λ word, if truthy word
                    then _generate_word_variations current_year word
                           include_leet include_years
                    else ∅) <$> base_words) →
    ∃ word, word ∈ base_words
      ∧ v ∈ _generate_word_variations current_year word include_leet include_years).
  { intros v. rewrite elem_of_union_list. intros (X & HX & Hv).
    apply list_elem_of_fmap in HX as (word & -> & Hword).
    destruct (truthy word); [by exists word | by apply elem_of_empty in Hv]. }
  destruct (include_combinations && _).
  - rewrite elem_of_union. intros [H | H]; [left; by apply Hvar | by right].
  - intros H. left. by apply Hvar.
Qed.

Lemma elem_of_wordlist_set_capped names dates pets interests
    include_years include_leet w :
  base_words_of names dates pets interests ≠ [] →
  w ∈ _generate_combinations current_year enum
        (take 5 (base_words_of names dates pets interests))
        include_leet include_years →
  w ∈ wordlist_set current_year enum names dates pets interests
        include_years include_leet true.
Proof.
  intros Hne Hw. unfold wordlist_set.
  rewrite bool_decide_eq_false_2 by done. simpl. apply elem_of_union. by right.
Qed.

Lemma variations_in_plain_forms word include_years w :
  w ∈ _generate_word_variations current_year word false include_years →
  w ∈ plain_forms current_year (clean word) include_years.
Proof.
  unfold _generate_word_variations. destruct (str_empty _); [by rewrite elem_of_empty|].
  rewrite elem_of_filter. intros [_ Hw]. unfold raw_variations in Hw.
  apply elem_of_union in Hw as [Hw | Hw]; [|by apply elem_of_empty in Hw].
  by apply elem_of_list_to_set in Hw.
Qed.

Lemma plain_forms_in_variations word include_leet include_years w :
  clean word ≠ "" → (3 ≤ String.length w)%nat →
  w ∈ plain_forms current_year (clean word) include_years →
  w ∈ _generate_word_variations current_year word include_leet include_years.
Proof.
  intros Hne Hlen Hw. unfold _generate_word_variations.
  rewrite (str_empty_false _ Hne). apply elem_of_filter. split; [done|].
  unfold raw_variations. apply elem_of_union. left.
  by apply elem_of_list_to_set.
Qed.

End capped_facts.

(** Above the cap, a combination is kept when it is iterated first and
    dropped when it is iterated last. *)
Lemma capped_keeps_first current_year words include_leet include_years w :
  (2 ≤ length words)%nat →
  w ∈ all_combinations current_year words include_years →
  w ∈ _generate_combinations current_year (enum_first w) words
        include_leet include_years.
Proof.
  intros Hlen Hw. unfold _generate_combinations.
  replace (Nat.ltb (length words) 2) with false by (symmetry; apply Nat.ltb_ge; lia).
  rewrite elem_of_list_to_set. by apply (take_enum_first w _ 999).
Qed.

Lemma capped_drops_last current_year words include_leet include_years w :
  (1000 < size (all_combinations current_year words include_years))%nat →
  w ∉ _generate_combinations current_year (enum_last w) words
        include_leet include_years.
Proof.
  intros Hsize. unfold _generate_combinations.
  destruct (Nat.ltb _ 2); [apply not_elem_of_empty|].
  rewrite elem_of_list_to_set. by apply take_enum_last.
Qed.

(** ** The leetspeak expander *)

(** C7: for a lower-cased token, no string the leetspeak expander emits is
    the token itself, on the cartesian-product path and on the
    single-substitution path alike, capitalized forms included. *)
Theorem leet_never_emits_original (word v : string) :
  str_lower word = word →
  v ∈ _generate_leet_variations word →
  v ≠ word.
Proof.
  intros Hlow Hv. apply leet_variations_marked in Hv.
  rewrite Hlow in Hv. by apply marked_neq.
Qed.

Lemma leet_never_emits_original_witness :
  "6ob" ∈ _generate_leet_variations "bob" ∧ "6ob" ≠ "bob".
Proof.
  assert (H : "6ob" ∈ _generate_leet_variations "bob") by (by vm_compute).
  split; [exact H|].
  exact (leet_never_emits_original "bob" "6ob" eq_refl H).
Defined.

(** ** Cleaning a seed *)

Lemma chr_isword_lower c : chr_isword (chr_lower c) = chr_isword c.
Proof. by_cases_on c. Qed.

Lemma clean_no_word_chars word :
  str_any chr_isword word = false → clean word = "".
Proof.
  unfold clean, strip_nonword, str_lower.
  induction word as [|c word IH]; simpl; [done|].
  rewrite orb_false_iff. intros [Hc Hrest].
  by rewrite chr_isword_lower, Hc, IH.
Qed.

(** C8, as the code has it: an ASCII seed with no word character
    (letter, digit or underscore) is cleaned to the empty string, yields
    no variations and takes part in no combination. *)
Theorem no_word_chars_dropped (current_year : Z) (word other : string)
    (include_leet include_years : bool) :
  str_isascii word = true →
  str_any chr_isword word = false →
  clean word = ""
  ∧ _generate_word_variations current_year word include_leet include_years = ∅
  ∧ pair_forms current_year word other include_years = []
  ∧ pair_forms current_year other word include_years = [].
Proof.
  intros _ H. apply clean_no_word_chars in H.
  unfold _generate_word_variations, pair_forms. rewrite H. simpl.
  split; [done|]. split; [done|]. split; [done|]. by rewrite orb_true_r.
Qed.

Lemma no_word_chars_dropped_witness :
  clean "!? #" = ""
  ∧ _generate_word_variations 2026 "!? #" true true = ∅
  ∧ pair_forms 2026 "!? #" "max" true = []
  ∧ pair_forms 2026 "max" "!? #" true = [].
Proof.
  exact (no_word_chars_dropped 2026 "!? #" "max" true true eq_refl eq_refl).
Defined.

(** C8 fails as stated: the underscore is an ASCII character that is
    not alphanumeric, yet it is a word character, so the seed ["_"]
    survives cleaning and is expanded. *)
Lemma underscore_survives_cleaning :
  str_any chr_isalnum "_" = false
  ∧ clean "_" = "_"
  ∧ "my_" ∈ _generate_word_variations 2026 "_" true true.
Proof.
  split; [done|]. split; [done|].
  apply plain_forms_in_variations; [done | simpl; lia |].
  apply (bool_decide_unpack _). by vm_compute.
Qed.

(** ** Dates *)

Lemma process_dates_app l1 l2 :
  _process_dates (l1 ++ l2) = (_process_dates l1 ++ _process_dates l2)%list.
Proof. unfold _process_dates. by rewrite bind_app, List.filter_app. Qed.

Lemma date_fragments_no_match d :
  (∀ p, p ∈ date_formats → findall p (str_strip d) = []) →
  date_fragments d = [].
Proof.
  intros H. unfold date_fragments. destruct (truthy _); [|done].
  induction date_formats as [|p ps IH]; csimpl; [done|].
  rewrite (H p) by left. csimpl. apply IH. intros q Hq. apply H. by right.
Qed.

(** C9: every fragment [_process_dates] returns is a non-empty string of
    digits, a date that matches none of the five patterns adds nothing to
    the output, and the function is total (it has no failing case). *)
Theorem process_dates_numeric :
  (∀ dates w, w ∈ _process_dates dates →
     w ≠ "" ∧ str_all chr_isdigit w = true)
  ∧ (∀ l1 d l2,
       (∀ p, p ∈ date_formats → findall p (str_strip d) = []) →
       _process_dates (l1 ++ d :: l2) = _process_dates (l1 ++ l2)).
Proof.
  split.
  - intros dates w. unfold _process_dates.
    rewrite list_elem_of_In, List.filter_In. intros [_ H].
    unfold str_isdigit in H. apply andb_true_iff in H as [Hne Hall].
    split; [|done]. by destruct w.
  - intros l1 d l2 H.
    rewrite (process_dates_app l1 (d :: l2)), process_dates_app.
    f_equal. change (d :: l2) with ([d] ++ l2)%list. rewrite process_dates_app.
    unfold _process_dates at 1. csimpl.
    by rewrite app_nil_r, (date_fragments_no_match d H).
Qed.

Lemma process_dates_numeric_witness :
  "15" ∈ _process_dates ["12/15/1990"]
  ∧ str_all chr_isdigit "15" = true
  ∧ _process_dates (["1990"] ++ "next May" :: ["3.4.2001"])
    = _process_dates (["1990"] ++ ["3.4.2001"]).
Proof.
  destruct process_dates_numeric as [Hdigits Hskip].
  assert (Hin : "15" ∈ _process_dates ["12/15/1990"]).
  { apply (bool_decide_unpack _). by vm_compute. }
  split; [exact Hin|]. split; [exact (proj2 (Hdigits _ _ Hin))|].
  apply Hskip. intros p Hp. unfold date_formats in Hp.
  rewrite !elem_of_cons, elem_of_nil in Hp.
  repeat (destruct Hp as [-> | Hp]); try done.
Defined.

(** ** Statistics *)

Lemma stats_nonempty_has_all_fields (wordlist : list string) (field : string) :
  wordlist ≠ [] → field ∈ stats_fields →
  is_Some (get_wordlist_stats wordlist !! field).
Proof.
  intros Hne Hf. destruct wordlist as [|first rest]; [done|].
  unfold stats_fields in Hf. rewrite !elem_of_cons, elem_of_nil in Hf.
  unfold get_wordlist_stats.
  repeat (destruct Hf as [-> | Hf]); try done; by eexists.
Qed.

(** C5 at the empty list: the record has the five numeric fields and no
    [charset_distribution], so not all six fields are present. *)
Theorem stats_of_empty_list_lacks_distribution :
  get_wordlist_stats [] !! "charset_distribution" = None
  ∧ "charset_distribution" ∈ stats_fields
  ∧ dom (get_wordlist_stats []) =
      {[ "total_words"; "avg_length"; "min_length"; "max_length"; "unique_words" ]}.
Proof.
  split; [done|]. split; [by apply (bool_decide_unpack _)|].
  unfold get_wordlist_stats. by rewrite dom_list_to_map_L.
Qed.

(** ** The ceiling *)

(** C10: with [max_words = 0] the truncation step is skipped: the call
    returns the whole aggregate, sorted, each word once, whatever its
    size. *)
Theorem zero_ceiling_returns_everything (current_year : Z)
    (enum : gset string → list string)
    (names dates pets interests : list string)
    (include_years include_leet include_combinations : bool) :
  valid_enum enum →
  let wordlist := wordlist_set current_year enum names dates pets interests
                    include_years include_leet include_combinations in
  ∃ res,
    generate_wordlist current_year enum names dates pets interests
      include_years include_leet include_combinations 0 = Some res
    ∧ res = sorted (enum wordlist)
    ∧ StronglySorted (λ a b, String.ltb a b = true) res
    ∧ (∀ w, w ∈ res ↔ w ∈ wordlist)
    ∧ length res = size wordlist.
Proof.
  intros Henum wordlist. exists (sorted (enum wordlist)).
  split; [|split; [done|split; [|split]]].
  - unfold generate_wordlist. by fold wordlist.
  - apply sorted_strict. by apply enum_NoDup.
  - intros w. by rewrite sorted_perm, elem_of_enum.
  - by rewrite sorted_perm, enum_length.
Qed.

Lemma zero_ceiling_returns_everything_witness :
  let wordlist := wordlist_set 2026 elements ["max"] [] [] [] false false false in
  ∃ res,
    generate_wordlist 2026 elements ["max"] [] [] [] false false false 0 = Some res
    ∧ res = sorted (elements wordlist)
    ∧ StronglySorted (λ a b, String.ltb a b = true) res
    ∧ (∀ w, w ∈ res ↔ w ∈ wordlist)
    ∧ length res = size wordlist.
Proof.
  exact (zero_ceiling_returns_everything 2026 elements ["max"] [] [] []
           false false false valid_enum_elements).
Defined.

(** C3: when the aggregate has more than [max_words] words, for a
    positive [max_words], the call returns exactly [max_words] of them;
    no discarded word scores higher than a retained one; and of two words
    with the same score the one that comes first in the sorted aggregate
    is retained whenever the other is. *)
Theorem truncation_keeps_best (current_year : Z)
    (enum : gset string → list string)
    (names dates pets interests : list string)
    (include_years include_leet include_combinations : bool) (max_words : Z) :
  valid_enum enum →
  let wordlist := wordlist_set current_year enum names dates pets interests
                    include_years include_leet include_combinations in
  0 < max_words →
  max_words < Z.of_nat (size wordlist) →
  ∃ res,
    generate_wordlist current_year enum names dates pets interests
      include_years include_leet include_combinations max_words = Some res
    ∧ length res = Z.to_nat max_words
    ∧ (∀ w, w ∈ res → w ∈ wordlist)
    ∧ (∀ w, w ∈ wordlist →
         word_score current_year w = Some (score_of current_year w))
    ∧ (∀ w w', w ∈ res → w' ∈ wordlist → w' ∉ res →
         score_of current_year w' ≤ score_of current_year w)
    ∧ (∀ w w', w ∈ wordlist → w' ∈ res →
         score_of current_year w = score_of current_year w' →
         String.ltb w w' = true → w ∈ res).
Proof.
  intros Henum wordlist Hpos Hbig.
  set (final := sorted (elements wordlist)).
  set (le := λ x y, score_of current_year y <=? score_of current_year x).
  set (ranked := stable_sort le final).
  assert (Hne : ∀ w, w ∈ wordlist → w ≠ "").
  { intros w Hw%(wordlist_set_min_length _ _ Henum) ->. simpl in Hw. lia. }
  assert (Hfinal : ∀ w, w ∈ final ↔ w ∈ wordlist).
  { intros w. unfold final. by rewrite sorted_perm, elem_of_elements. }
  assert (Hranked : ∀ w, w ∈ ranked ↔ w ∈ wordlist).
  { intros w. unfold ranked. by rewrite elem_of_stable_sort. }
  assert (Hlen : length ranked = size wordlist).
  { unfold ranked, final. by rewrite stable_sort_length, sorted_perm. }
  assert (Hnd : NoDup ranked).
  { unfold ranked, final. rewrite stable_sort_perm, sorted_perm.
    apply NoDup_elements. }
  assert (Hsorted : StronglySorted (λ a b, le a b = true) ranked).
  { apply stable_sort_sorted; unfold le; intros; lia. }
  exists (take (Z.to_nat max_words) ranked).
  split; [|split; [|split; [|split; [|split]]]].
  - unfold generate_wordlist. fold wordlist.
    rewrite (sorted_enum enum Henum). fold final.
    assert (length final = size wordlist) as ->.
    { unfold final. by rewrite sorted_perm. }
    replace (max_words =? 0) with false by lia.
    replace (max_words <? Z.of_nat (size wordlist)) with true by lia.
    simpl. rewrite prioritize_spec by (intros w Hw; by apply Hne, Hfinal).
    unfold slice_to. by replace (0 <=? max_words) with true by lia.
  - rewrite length_take. lia.
  - intros w Hw%elem_of_take_1. by apply Hranked.
  - intros w Hw. by apply word_score_nonempty, Hne.
  - intros w w' Hw Hw' Hout.
    apply Hranked in Hw'.
    rewrite <- (take_drop (Z.to_nat max_words) ranked) in Hw', Hsorted.
    apply elem_of_app in Hw' as [|Hw']; [done|].
    pose proof (StronglySorted_app_1_elem_of _ _ _ _ _ Hsorted Hw Hw') as H.
    unfold le in H. lia.
  - intros w w' Hw Hw' Heq Hlt.
    eapply before_take; [done| |done].
    apply stable_sort_stable; [|unfold le; lia].
    apply strict_sorted_before; [|by apply Hfinal|by eapply Hfinal, Hranked, elem_of_take_1|done].
    apply sorted_strict, NoDup_elements.
Qed.

Lemma truncation_keeps_best_witness :
  let wordlist := wordlist_set 2026 elements ["max"] [] [] [] false false false in
  ∃ res,
    generate_wordlist 2026 elements ["max"] [] [] [] false false false 5 = Some res
    ∧ length res = Z.to_nat 5
    ∧ (∀ w, w ∈ res → w ∈ wordlist)
    ∧ (∀ w, w ∈ wordlist → word_score 2026 w = Some (score_of 2026 w))
    ∧ (∀ w w', w ∈ res → w' ∈ wordlist → w' ∉ res →
         score_of 2026 w' ≤ score_of 2026 w)
    ∧ (∀ w w', w ∈ wordlist → w' ∈ res →
         score_of 2026 w = score_of 2026 w' →
         String.ltb w w' = true → w ∈ res).
Proof.
  apply (truncation_keeps_best 2026 elements ["max"] [] [] []
           false false false 5 valid_enum_elements).
  - lia.
  - vm_compute. reflexivity.
Defined.

(** ** Combinations of two seeds *)

Section two_seeds.
Context (current_year : Z) (enum : gset string → list string).
Context (Henum : valid_enum enum).

(** With two or three seeds and a ceiling that is not reached, every
    form of every ordered pair of distinct seeds is in the result. *)
Lemma combination_in_result names dates pets interests
    include_years include_leet max_words i j word1 word2 sep w :
  let base_words := base_words_of names dates pets interests in
  (2 ≤ length base_words ≤ 3)%nat →
  max_words = 0
  ∨ Z.of_nat (sum_list (variations_bound <$> base_words) + 1000) ≤ max_words →
  base_words !! i = Some word1 → base_words !! j = Some word2 → i ≠ j →
  clean word1 ≠ "" → clean word2 ≠ "" → sep ∈ separators →
  w ∈ combo_forms current_year (clean word1 ++ sep ++ clean word2) include_years →
  ∃ res,
    generate_wordlist current_year enum names dates pets interests
      include_years include_leet true max_words = Some res
    ∧ w ∈ res.
Proof.
  intros base_words Hlen Hmw Hi Hj Hij H1 H2 Hsep Hw.
  eexists. split.
  - apply generate_untruncated; [done|].
    destruct Hmw as [-> | Hmw]; [by left | right].
    pose proof (wordlist_set_size current_year enum names dates pets interests
                  include_years include_leet true) as Hsize.
    fold base_words in Hsize. lia.
  - rewrite sorted_perm, elem_of_elements.
    apply (elem_of_wordlist_set_combination current_year enum Henum
             names dates pets interests include_years include_leet w Hlen).
    fold base_words. rewrite take_ge by lia.
    by apply (elem_of_all_combinations current_year base_words include_years
                i j word1 word2 sep w).
Qed.

End two_seeds.

(** C6: with the seeds ["john"] and ["smith"] and combinations switched
    on, the result has ["john_smith"], its capitalization
    ["John_smith"], and ["john_smith123"]; this holds for every clock
    year, iteration order and setting of the other two switches, when
    the ceiling is the default one (or any one from 2000 up, or zero). *)
Theorem john_smith_combinations (current_year : Z)
    (enum : gset string → list string)
    (include_years include_leet : bool) (max_words : Z) :
  valid_enum enum →
  max_words = 0 ∨ 2000 ≤ max_words →
  ∃ res,
    generate_wordlist current_year enum ["john"; "smith"] [] [] []
      include_years include_leet true max_words = Some res
    ∧ "john_smith" ∈ res
    ∧ "John_smith" ∈ res
    ∧ "john_smith123" ∈ res.
Proof.
  intros Henum Hmw.
  assert (Hin : ∀ w,
    w ∈ combo_forms current_year "john_smith" include_years →
    ∃ res,
      generate_wordlist current_year enum ["john"; "smith"] [] [] []
        include_years include_leet true max_words = Some res
      ∧ w ∈ res).
  { intros w Hw.
    apply (combination_in_result current_year enum Henum
             ["john"; "smith"] [] [] [] include_years include_leet max_words
             0%nat 1%nat "john" "smith" "_" w); try done.
    - simpl. lia.
    - destruct Hmw as [-> | Hmw]; [by left | right].
      assert (sum_list (variations_bound
                <$> base_words_of ["john"; "smith"] [] [] []) ≤ 1000)%nat
        by (apply Nat.leb_le; by vm_compute).
      lia.
    - by apply (bool_decide_unpack _). }
  destruct (Hin "john_smith") as (res & Hres & H1).
  { unfold combo_forms. rewrite !elem_of_app, !elem_of_cons. tauto. }
  destruct (Hin "John_smith") as (res2 & Hres2 & H2).
  { unfold combo_forms. rewrite !elem_of_app, !elem_of_cons. tauto. }
  destruct (Hin "john_smith123") as (res3 & Hres3 & H3).
  { unfold combo_forms. rewrite !elem_of_app. right. left.
    by apply (bool_decide_unpack _). }
  exists res. rewrite Hres in Hres2, Hres3.
  injection Hres2 as <-. injection Hres3 as <-. done.
Qed.

Lemma john_smith_combinations_witness :
  ∃ res,
    generate_wordlist 2026 elements ["john"; "smith"] [] [] []
      true true true 10000 = Some res
    ∧ "john_smith" ∈ res
    ∧ "John_smith" ∈ res
    ∧ "john_smith123" ∈ res.
Proof.
  apply (john_smith_combinations 2026 elements true true 10000 valid_enum_elements).
  right. lia.
Defined.

(** ** Short combinations *)

(** C1 at the seeds ["a"] and ["b"]: the combiner joins them with the
    empty separator and nothing filters the result, so the two-character
    word ["ab"] is returned; this happens for every clock year and
    iteration order, with the switches and ceiling at their defaults. *)
Theorem short_combination_returned (current_year : Z)
    (enum : gset string → list string) :
  valid_enum enum →
  ∃ res,
    generate_wordlist current_year enum ["a"; "b"] [] [] []
      true true true 10000 = Some res
    ∧ "ab" ∈ res
    ∧ (String.length "ab" < 3)%nat.
Proof.
  intros Henum.
  destruct (combination_in_result current_year enum Henum
              ["a"; "b"] [] [] [] true true 10000
              0%nat 1%nat "a" "b" "" "ab") as (res & Hres & Hin); try done.
  - simpl. lia.
  - right.
    assert (sum_list (variations_bound
              <$> base_words_of ["a"; "b"] [] [] []) ≤ 1000)%nat
      by (apply Nat.leb_le; by vm_compute).
    lia.
  - by apply (bool_decide_unpack _).
  - unfold combo_forms. rewrite !elem_of_app, !elem_of_cons. tauto.
  - exists res. split; [done|]. split; [done|]. simpl. lia.
Qed.

Lemma short_combination_returned_witness :
  ∃ res,
    generate_wordlist 2026 elements ["a"; "b"] [] [] []
      true true true 10000 = Some res
    ∧ "ab" ∈ res
    ∧ (String.length "ab" < 3)%nat.
Proof. exact (short_combination_returned 2026 elements valid_enum_elements). Defined.

(** ** The relevance score *)

(** C4, as the code has it: the score of every candidate word is
    [max(0, 20 - length)], plus 10 if the word ends in a digit, plus 5 if
    its first character is upper-case and the rest is lower-case (no
    upper-case character and at least one lower-case one), plus 15 if one
    of the first ten years of the window is a substring, plus
    [min(3 * count, 10)] where the count is over the seven markers
    [@ 3 1 0 5 7 !]. *)
Theorem score_of_candidate (current_year : Z)
    (enum : gset string → list string)
    (names dates pets interests : list string)
    (include_years include_leet include_combinations : bool) (w : string) :
  valid_enum enum →
  w ∈ wordlist_set current_year enum names dates pets interests
        include_years include_leet include_combinations →
  word_score current_year w
  = Some (score_formula code_markers (take 10 (years current_year)) w).
Proof.
  intros Henum Hw. apply word_score_formula.
  - intros ->. apply (wordlist_set_min_length _ _ Henum) in Hw. simpl in Hw. lia.
  - by eapply no_newline_wordlist_set.
Qed.

Lemma score_of_candidate_witness :
  "Max1977" ∈ wordlist_set 2026 elements ["max"] [] [] [] true false false
  ∧ word_score 2026 "Max1977"
    = Some (score_formula code_markers (take 10 (years 2026)) "Max1977").
Proof.
  assert (H : "Max1977"
              ∈ wordlist_set 2026 elements ["max"] [] [] [] true false false).
  { apply (elem_of_wordlist_set_variation 2026 elements
             ["max"] [] [] [] true false false "max"); [by left|].
    apply plain_forms_in_variations; [done | simpl; lia |].
    apply (bool_decide_unpack _). by vm_compute. }
  split; [exact H|].
  exact (score_of_candidate 2026 elements ["max"] [] [] [] true false false
           "Max1977" valid_enum_elements H).
Defined.

(** C4 fails as stated: the exclamation mark is counted as a marker too.
    The candidate ["buddy!"] scores 17, and 14 by the formula with the six
    markers of the specification. *)
Lemma exclamation_mark_is_a_marker :
  "buddy!" ∈ wordlist_set 2026 elements ["Buddy"] [] [] [] false false false
  ∧ word_score 2026 "buddy!" = Some 17
  ∧ score_formula spec_markers (take 10 (years 2026)) "buddy!" = 14.
Proof.
  split; [|split; by vm_compute].
  apply (elem_of_wordlist_set_variation 2026 elements
           ["Buddy"] [] [] [] false false false "Buddy"); [by left|].
  apply plain_forms_in_variations; [done | simpl; lia |].
  apply (bool_decide_unpack _). by vm_compute.
Qed.

(** ** Reproducibility *)

(** C2, as the code has it: two calls with the same arguments, made in
    the same clock year, return the same list whatever the order in
    which each iterates its sets, provided the combiner builds at most
    1000 combinations, so that its cap removes nothing. *)
Theorem result_independent_of_iteration_order (current_year : Z)
    (enum1 enum2 : gset string → list string)
    (names dates pets interests : list string)
    (include_years include_leet include_combinations : bool) (max_words : Z) :
  valid_enum enum1 → valid_enum enum2 →
  (size (all_combinations current_year
           (take 5 (base_words_of names dates pets interests)) include_years)
   ≤ 1000)%nat →
  generate_wordlist current_year enum1 names dates pets interests
    include_years include_leet include_combinations max_words
  = generate_wordlist current_year enum2 names dates pets interests
      include_years include_leet include_combinations max_words.
Proof.
  intros H1 H2 Hsize.
  assert (Hset :
    wordlist_set current_year enum1 names dates pets interests
      include_years include_leet include_combinations
    = wordlist_set current_year enum2 names dates pets interests
        include_years include_leet include_combinations).
  { unfold wordlist_set. destruct (_ && _); [|done].
    by rewrite !combinations_uncapped. }
  unfold generate_wordlist. rewrite Hset.
  by rewrite (sorted_enum enum1 H1), (sorted_enum enum2 H2).
Qed.

Lemma result_independent_of_iteration_order_witness :
  generate_wordlist 2026 elements ["john"; "smith"] ["1990"] [] []
    true true true 100
  = generate_wordlist 2026 (reverse ∘ elements) ["john"; "smith"] ["1990"] [] []
      true true true 100.
Proof.
  apply (result_independent_of_iteration_order 2026 elements (reverse ∘ elements)
           ["john"; "smith"] ["1990"] [] [] true true true 100
           valid_enum_elements valid_enum_reverse).
  etrans; [apply all_combinations_size|].
  change (length (take 5 (base_words_of ["john"; "smith"] ["1990"] [] [])))
    with 3%nat.
  lia.
Defined.

(** C2 fails as stated.  Five seeds give 1400 combinations; the cap
    keeps the first 1000 in iteration order.  Under an order that
    iterates ["a_b"] first the word is returned, under one that iterates
    it last it is not. *)
Lemma cap_depends_on_iteration_order :
  valid_enum (enum_first "a_b")
  ∧ valid_enum (enum_last "a_b")
  ∧ generate_wordlist 2026 (enum_first "a_b") ["a"; "b"; "c"; "d"; "e"] [] [] []
      true false true 10000
    ≠ generate_wordlist 2026 (enum_last "a_b") ["a"; "b"; "c"; "d"; "e"] [] [] []
        true false true 10000.
Proof.
  split; [apply valid_enum_first|]. split; [apply valid_enum_last|].
  set (seeds := ["a"; "b"; "c"; "d"; "e"]).
  assert (Hbase : base_words_of seeds [] [] [] = seeds) by reflexivity.
  assert (Hbound : (sum_list (variations_bound <$> seeds) ≤ 2000)%nat)
    by (apply Nat.leb_le; by vm_compute).
  assert (Hgen : ∀ enum, valid_enum enum →
    generate_wordlist 2026 enum seeds [] [] [] true false true 10000
    = Some (sorted (elements
              (wordlist_set 2026 enum seeds [] [] [] true false true)))).
  { intros enum Henum. apply (generate_untruncated 2026 enum Henum). right.
    pose proof (wordlist_set_size 2026 enum seeds [] [] [] true false true) as H.
    rewrite Hbase in H. lia. }
  assert (Hpool : "a_b" ∈ all_combinations 2026 seeds true).
  { apply (elem_of_all_combinations 2026 seeds true 0 1 "a" "b" "_"); try done.
    - by apply (bool_decide_unpack _).
    - unfold combo_forms. rewrite !elem_of_app, !elem_of_cons. tauto. }
  assert (Hsize : size (all_combinations 2026 seeds true) = 1400%nat).
  { assert (Hnd : NoDup (combination_list 2026 seeds true))
      by (apply NoDup_by_sorting; by vm_compute).
    unfold all_combinations. rewrite size_list_to_set by exact Hnd.
    by vm_compute. }
  rewrite (Hgen _ (valid_enum_first "a_b")), (Hgen _ (valid_enum_last "a_b")).
  intros Heq. apply (inj Some) in Heq.
  assert (Hin : "a_b" ∈ sorted (elements
                  (wordlist_set 2026 (enum_first "a_b") seeds [] [] []
                     true false true))).
  { rewrite sorted_perm, elem_of_elements.
    apply elem_of_wordlist_set_capped; [rewrite Hbase; discriminate|].
    rewrite Hbase. apply capped_keeps_first; [simpl; lia | exact Hpool]. }
  rewrite Heq, sorted_perm, elem_of_elements in Hin.
  apply wordlist_set_cases_capped in Hin as [(word & Hword & Hin) | Hin].
  - apply variations_in_plain_forms in Hin. rewrite Hbase in Hword.
    assert (Hnone : Forall (λ word, "a_b" ∉ plain_forms 2026 (clean word) true) seeds)
      by (apply (bool_decide_unpack _); by vm_compute).
    exact (proj1 (Forall_forall _ _) Hnone word Hword Hin).
  - rewrite Hbase in Hin. revert Hin. apply capped_drops_last.
    change (take 5 seeds) with seeds. rewrite Hsize. lia.
Qed.

(** The year window comes from the clock: the same call made in another
    year returns another list. *)
Lemma result_depends_on_clock_year :
  generate_wordlist 2026 elements ["max"] [] [] [] true false false 0
  ≠ generate_wordlist 2027 elements ["max"] [] [] [] true false false 0.
Proof.
  assert (H : ∀ year,
    generate_wordlist year elements ["max"] [] [] [] true false false 0
    = Some (sorted (elements
              (wordlist_set year elements ["max"] [] [] [] true false false)))).
  { intros year. apply (generate_untruncated year elements valid_enum_elements).
    by left. }
  rewrite !H. intros Heq. apply (inj Some) in Heq.
  assert (Hin : "max2031"
                ∈ sorted (elements
                    (wordlist_set 2027 elements ["max"] [] [] [] true false false))).
  { rewrite sorted_perm, elem_of_elements.
    apply (elem_of_wordlist_set_variation 2027 elements
             ["max"] [] [] [] true false false "max"); [by left|].
    apply plain_forms_in_variations; [done | simpl; lia |].
    apply (bool_decide_unpack _). by vm_compute. }
  rewrite <- Heq, sorted_perm, elem_of_elements in Hin.
  apply wordlist_set_cases_capped in Hin as [(word & Hword & Hin) | Hin].
  - apply list_elem_of_singleton in Hword as ->.
    apply variations_in_plain_forms in Hin. revert Hin.
    apply (bool_decide_unpack _). by vm_compute.
  - by apply elem_of_empty in Hin.
Qed.

(** * Further properties of the generator *)

(** ** The shape of the result *)

Lemma before_antisym {A} (x y : A) l :
  NoDup l → before x y l → before y x l → False.
Proof.
  intros Hnd Hxy. induction Hxy as [l Hy|z l Hxy IH]; intros Hyx.
  - apply NoDup_cons in Hnd as [Hx _]. inversion Hyx as [l' Hx'|z l' Hyx']; subst.
    + done.
    + by apply before_elem_of in Hyx' as [_ ?].
  - apply NoDup_cons in Hnd as [Hz Hnd]. inversion Hyx as [l' Hx'|z' l' Hyx']; subst.
    + by apply before_elem_of in Hxy as [_ ?].
    + by apply IH.
Qed.

Lemma before_take_inv {A} (x y : A) l n : before x y (take n l) → before x y l.
Proof.
  revert n. induction l as [|z l IH]; intros [|n]; simpl; try by inversion 1.
  inversion 1 as [l' Hy|z' l' Hb]; subst.
  - constructor. by eapply elem_of_take_1.
  - constructor. by eapply IH.
Qed.

Lemma sorted_before {A} (R : relation A) (x y : A) l :
  StronglySorted R l → before x y l → R x y.
Proof.
  induction 1 as [|z l Hl IH Hz]; inversion 1 as [l' Hy|z' l' Hb]; subst.
  - by eapply Forall_forall in Hz.
  - by apply IH.
Qed.

Lemma slice_to_take {A} (n : Z) (l : list A) :
  ∃ k, slice_to n l = take k l
       ∧ k = if 0 <=? n then Z.to_nat n else (length l - Z.to_nat (- n))%nat.
Proof. unfold slice_to. destruct (0 <=? n); by eexists. Qed.

Section result_facts.
Context (current_year : Z) (enum : gset string → list string).
Context (Henum : valid_enum enum).
Context (names dates pets interests : list string).
Context (include_years include_leet include_combinations : bool).

#[local] Abbreviation wordlist :=
  (wordlist_set current_year enum names dates pets interests
     include_years include_leet include_combinations).
#[local] Abbreviation final := (sorted (elements wordlist)).
#[local] Abbreviation ranked := (sort_by_key_desc (score_of current_year) final).

Lemma elem_of_final w : w ∈ final ↔ w ∈ wordlist.
Proof. by rewrite sorted_perm, elem_of_elements. Qed.

Lemma final_NoDup : NoDup final.
Proof. rewrite sorted_perm. apply NoDup_elements. Qed.

Lemma final_length : length final = size wordlist.
Proof. by rewrite sorted_perm. Qed.

Lemma elem_of_ranked w : w ∈ ranked ↔ w ∈ wordlist.
Proof. unfold sort_by_key_desc. by rewrite elem_of_stable_sort, elem_of_final. Qed.

Lemma ranked_NoDup : NoDup ranked.
Proof. unfold sort_by_key_desc. rewrite stable_sort_perm. apply final_NoDup. Qed.

Lemma ranked_length : length ranked = size wordlist.
Proof. unfold sort_by_key_desc. by rewrite stable_sort_length, final_length. Qed.

Lemma ranked_sorted :
  StronglySorted
    (λ a b, (score_of current_year b <=? score_of current_year a) = true) ranked.
Proof. apply stable_sort_sorted; intros; lia. Qed.

Lemma wordlist_nonempty_words w : w ∈ wordlist → w ≠ "".
Proof. intros Hw%(wordlist_set_min_length _ _ Henum) ->. simpl in Hw. lia. Qed.

(** What [generate_wordlist] returns, in every case. *)
Lemma generate_result max_words :
  generate_wordlist current_year enum names dates pets interests
    include_years include_leet include_combinations max_words
  = Some (if negb (max_words =? 0) && (max_words <? Z.of_nat (size wordlist))
          then slice_to max_words ranked
          else final).
Proof.
  unfold generate_wordlist. rewrite (sorted_enum enum Henum), final_length.
  destruct (negb (max_words =? 0) && _); [|done].
  apply prioritize_spec. intros w Hw. by apply wordlist_nonempty_words, elem_of_final.
Qed.

Lemma NoDup_take_1 {A} (l : list A) k : NoDup l → NoDup (take k l).
Proof. intros H. eapply sublist_NoDup; [exact H | apply sublist_take]. Qed.

(** The result is a list of distinct words of the aggregate. *)
Lemma generate_sound max_words res :
  generate_wordlist current_year enum names dates pets interests
    include_years include_leet include_combinations max_words = Some res →
  NoDup res ∧ (∀ w, w ∈ res → w ∈ wordlist).
Proof.
  rewrite generate_result. intros [= <-].
  destruct (negb (max_words =? 0) && _).
  - destruct (slice_to_take max_words ranked) as (k & -> & _). split.
    + apply NoDup_take_1, ranked_NoDup.
    + intros w Hw%elem_of_take_1. by apply elem_of_ranked in Hw.
  - split; [apply final_NoDup|]. intros w Hw. by apply elem_of_final in Hw.
Qed.

Lemma wordlist_set_no_combinations w :
  include_combinations = false → w ∈ wordlist →
  ∃ word, word ∈ base_words_of names dates pets interests
    ∧ w ∈ _generate_word_variations current_year word include_leet include_years.
Proof.
  intros ->. unfold wordlist_set. simpl.
  rewrite elem_of_union_list. intros (X & HX & Hw).
  apply list_elem_of_fmap in HX as (word & -> & Hword).
  destruct (truthy word); [by exists word | by apply elem_of_empty in Hw].
Qed.

Lemma ranked_prefix_best k w w' :
  w ∈ take k ranked → w' ∈ wordlist → w' ∉ take k ranked →
  score_of current_year w' ≤ score_of current_year w.
Proof.
  intros Hw Hw' Hout. apply elem_of_ranked in Hw'.
  pose proof ranked_sorted as Hs.
  rewrite <- (take_drop k ranked) in Hw', Hs.
  apply elem_of_app in Hw' as [|Hw']; [done|].
  pose proof (StronglySorted_app_1_elem_of _ _ _ _ _ Hs Hw Hw') as H.
  simpl in H. lia.
Qed.

Lemma ranked_prefix_order k a b :
  before a b (take k ranked) →
  score_of current_year b ≤ score_of current_year a
  ∧ (score_of current_year a = score_of current_year b → String.ltb a b = true).
Proof.
  intros Hab%before_take_inv.
  pose proof (sorted_before _ _ _ _ ranked_sorted Hab) as Hle. simpl in Hle.
  split; [lia|]. intros Heq.
  destruct (String.ltb a b) eqn:Hlt; [done|]. exfalso.
  destruct (before_elem_of _ _ _ Hab) as [Ha Hb].
  assert (a ≠ b) as Hne.
  { intros ->. by apply (before_antisym b b ranked ranked_NoDup). }
  assert (String.ltb b a = true) as Hba.
  { apply ltb_leb_neq. split; [|done].
    destruct (String.leb_total a b) as [H|H]; [|done].
    assert (String.ltb a b = true) by (by apply ltb_leb_neq). congruence. }
  apply (before_antisym a b ranked ranked_NoDup Hab).
  apply stable_sort_stable; [|lia].
  apply strict_sorted_before; [|by apply elem_of_final, elem_of_ranked..|done].
  apply sorted_strict, NoDup_elements.
Qed.

End result_facts.

(** ** Seeds and their base words *)

Lemma chr_isword_not_space c : chr_isspace c = true → chr_isword (chr_lower c) = false.
Proof. by_cases_on c. Qed.

Lemma clean_cons c s :
  clean (String c s)
  = if chr_isword (chr_lower c) then String (chr_lower c) (clean s) else clean s.
Proof. reflexivity. Qed.

Lemma clean_lstrip s : clean (str_lstrip s) = clean s.
Proof.
  induction s as [|c s IH]; [done|]. simpl str_lstrip.
  destruct (chr_isspace c) eqn:Hc; [|done].
  by rewrite IH, clean_cons, (chr_isword_not_space c Hc).
Qed.

Lemma clean_rstrip s : clean (str_rstrip s) = clean s.
Proof.
  induction s as [|c s IH]; [done|]. simpl str_rstrip.
  destruct (str_empty (str_rstrip s)) eqn:He, (chr_isspace c) eqn:Hc; simpl;
    rewrite ?clean_cons, ?IH; try done.
  rewrite (chr_isword_not_space c Hc), <- IH.
  by destruct (str_rstrip s).
Qed.

(** Stripping a seed does not change its cleaned form. *)
Lemma clean_strip s : clean (str_strip s) = clean s.
Proof. unfold str_strip. by rewrite clean_rstrip, clean_lstrip. Qed.

Lemma clean_nonempty_truthy s : clean s ≠ "" → truthy s = true.
Proof. by destruct s. Qed.

Lemma clean_empty_iff s : clean s = "" ↔ str_any chr_isword s = false.
Proof.
  split; [|apply clean_no_word_chars].
  induction s as [|c s IH]; [done|]. rewrite clean_cons. simpl.
  rewrite chr_isword_lower. destruct (chr_isword c); [done|]. exact IH.
Qed.

Lemma elem_of_kept (l : list string) word :
  word ∈ List.filter truthy (str_strip <$> l)
  ↔ ∃ s, s ∈ l ∧ word = str_strip s ∧ truthy word = true.
Proof.
  rewrite list_elem_of_In, List.filter_In, <- list_elem_of_In, list_elem_of_fmap.
  split.
  - intros [(s & -> & Hs) Ht]. by exists s.
  - intros (s & Hs & -> & Ht). split; [by exists s | done].
Qed.

(** The base words: the stripped non-blank seeds and the date fragments. *)
Lemma elem_of_base_words names dates pets interests word :
  word ∈ base_words_of names dates pets interests
  ↔ (∃ s, s ∈ (names ++ pets ++ interests)%list ∧ word = str_strip s ∧ truthy word = true)
    ∨ word ∈ _process_dates dates.
Proof.
  unfold base_words_of. rewrite !elem_of_app, !elem_of_kept. split.
  - intros [(s & ? & ?) | [(s & ? & ?) | [(s & ? & ?) | ?]]];
      [left; exists s; rewrite !elem_of_app; tauto ..| by right].
  - intros [(s & Hs & ?) | ?]; [|tauto].
    rewrite !elem_of_app in Hs. destruct Hs as [?|[?|?]]; eauto 6.
Qed.

Lemma date_fragment_clean_nonempty dates word :
  word ∈ _process_dates dates → clean word ≠ "".
Proof.
  unfold _process_dates. rewrite list_elem_of_In, List.filter_In. intros [_ H].
  unfold str_isdigit in H. apply andb_true_iff in H as [Hne Hall].
  destruct word as [|c word]; [done|]. simpl in Hall.
  apply andb_true_iff in Hall as [Hc _]. rewrite clean_cons.
  assert (chr_isword (chr_lower c) = true) as -> by (revert Hc; by_cases_on c).
  done.
Qed.

Lemma seed_is_base_word names dates pets interests s :
  s ∈ (names ++ pets ++ interests)%list → clean s ≠ "" →
  str_strip s ∈ base_words_of names dates pets interests.
Proof.
  intros Hs Hc. apply elem_of_base_words. left. exists s.
  split; [done|]. split; [done|].
  apply clean_nonempty_truthy. by rewrite clean_strip.
Qed.

(** ** The forms of one seed and of one pair *)

Lemma str_app_assoc (a b c : string) : ((a ++ b) ++ c = a ++ b ++ c)%string.
Proof. induction a as [|x a IH]; [done|]. rewrite !app_cons. by rewrite IH. Qed.

Lemma str_app_nil_l (a : string) : ("" ++ a)%string = a.
Proof. reflexivity. Qed.

Lemma str_app_nil_r (a : string) : (a ++ "")%string = a.
Proof. induction a as [|x a IH]; [done|]. rewrite app_cons. by rewrite IH. Qed.

Lemma str_capitalize_app (a b : string) :
  a ≠ "" → str_capitalize (a ++ b) = (str_capitalize a ++ str_lower b)%string.
Proof.
  destruct a as [|x a]; [done|]. intros _. rewrite app_cons. simpl.
  rewrite app_cons. f_equal. unfold str_lower.
  induction a as [|y a IH]; [done|]. rewrite app_cons. simpl.
  by rewrite app_cons, IH.
Qed.

Section form_facts.
Context (current_year : Z).

Lemma elem_of_affix_forms c w :
  w ∈ affix_forms c
  ↔ ∃ p s, p ∈ prefixes ∧ s ∈ suffixes ∧ truthy p || truthy s = true
      ∧ (w = (p ++ c ++ s)%string ∨ w = (p ++ str_capitalize c ++ s)%string).
Proof.
  unfold affix_forms. rewrite list_elem_of_bind. split.
  - intros (p & Hw & Hp). apply list_elem_of_bind in Hw as (s & Hw & Hs).
    exists p, s. destruct (truthy p || truthy s); [|by apply elem_of_nil in Hw].
    rewrite !elem_of_cons, elem_of_nil in Hw. tauto.
  - intros (p & s & Hp & Hs & Ht & Hw). exists p. split; [|done].
    apply list_elem_of_bind. exists s. split; [|done].
    rewrite Ht, !elem_of_cons. tauto.
Qed.

Lemma elem_of_number_forms c w :
  w ∈ number_forms c
  ↔ ∃ n, n ∈ common_numbers
      ∧ (w = (c ++ n)%string ∨ w = (str_capitalize c ++ n)%string
         ∨ w = (n ++ c)%string).
Proof.
  unfold number_forms. rewrite list_elem_of_bind. split.
  - intros (n & Hw & Hn). exists n. rewrite !elem_of_cons, elem_of_nil in Hw. tauto.
  - intros (n & Hn & Hw). exists n. rewrite !elem_of_cons. tauto.
Qed.

Lemma elem_of_year_forms c w :
  w ∈ year_forms current_year c
  ↔ ∃ y, y ∈ years current_year
      ∧ (w = (c ++ y)%string ∨ w = (str_capitalize c ++ y)%string).
Proof.
  unfold year_forms. rewrite list_elem_of_bind. split.
  - intros (y & Hw & Hy). exists y. rewrite !elem_of_cons, elem_of_nil in Hw. tauto.
  - intros (y & Hy & Hw). exists y. rewrite !elem_of_cons. tauto.
Qed.

Lemma elem_of_plain_forms c include_years w :
  w ∈ plain_forms current_year c include_years
  ↔ (w = c ∨ w = str_capitalize c ∨ w = str_upper c)
    ∨ w ∈ affix_forms c
    ∨ w ∈ number_forms c
    ∨ (include_years = true ∧ w ∈ year_forms current_year c).
Proof.
  unfold plain_forms. rewrite !elem_of_app, !elem_of_cons, elem_of_nil.
  destruct include_years; [|rewrite elem_of_nil]; intuition congruence.
Qed.

(** Every plain form of a seed has the seed, in one of its three
    casings, as a substring. *)
Lemma plain_form_contains_seed c include_years w :
  w ∈ plain_forms current_year c include_years →
  ∃ core p s, core ∈ [c; str_capitalize c; str_upper c]
    ∧ w = (p ++ core ++ s)%string.
Proof.
  rewrite elem_of_plain_forms, elem_of_affix_forms, elem_of_number_forms,
    elem_of_year_forms.
  intros [[-> | [-> | ->]] | [(p & s & _ & _ & _ & [-> | ->])
          | [(n & _ & [-> | [-> | ->]]) | (_ & y & _ & [-> | ->])]]].
  - exists c, "", "". rewrite str_app_nil_r. split; [by left | done].
  - exists (str_capitalize c), "", "". rewrite str_app_nil_r.
    split; [right; by left | done].
  - exists (str_upper c), "", "". rewrite str_app_nil_r.
    split; [do 2 right; by left | done].
  - exists c, p, s. split; [by left | done].
  - exists (str_capitalize c), p, s. split; [right; by left | done].
  - exists c, "", n. split; [by left | done].
  - exists (str_capitalize c), "", n. split; [right; by left | done].
  - exists c, n, "". rewrite str_app_nil_r. split; [by left | done].
  - exists c, "", y. split; [by left | done].
  - exists (str_capitalize c), "", y. split; [right; by left | done].
Qed.

Lemma elem_of_enumerate {A} (l : list A) (ix : nat * A) :
  ix ∈ enumerate l ↔ l !! ix.1 = Some ix.2.
Proof.
  unfold enumerate. rewrite list_elem_of_lookup. destruct ix as [i x]. simpl. split.
  - intros (k & Hk). rewrite list_lookup_imap in Hk.
    destruct (l !! k) as [y|] eqn:Hy; simpl in Hk; [|done].
    injection Hk as <- <-. done.
  - intros Hi. exists i. by rewrite list_lookup_imap, Hi.
Qed.

(** The combinations are the forms of the ordered pairs of words at two
    different positions, both with a non-empty cleaned form. *)
Lemma elem_of_all_combinations_iff words include_years w :
  w ∈ all_combinations current_year words include_years
  ↔ ∃ i j word1 word2 sep,
      words !! i = Some word1 ∧ words !! j = Some word2 ∧ i ≠ j
      ∧ clean word1 ≠ "" ∧ clean word2 ≠ "" ∧ sep ∈ separators
      ∧ w ∈ combo_forms current_year (clean word1 ++ sep ++ clean word2)
              include_years.
Proof.
  split.
  - unfold all_combinations, combination_list.
    rewrite elem_of_list_to_set, list_elem_of_bind.
    intros ([i word1] & Hw & Hi%elem_of_enumerate).
    apply list_elem_of_bind in Hw as ([j word2] & Hw & Hj%elem_of_enumerate).
    simpl in *. destruct (Nat.eqb_spec i j) as [|Hij]; [by apply elem_of_nil in Hw|].
    unfold pair_forms in Hw.
    destruct (clean word1) as [|a c1] eqn:H1; [by apply elem_of_nil in Hw|].
    destruct (clean word2) as [|b c2] eqn:H2; [by apply elem_of_nil in Hw|].
    cbn [str_empty orb] in Hw.
    apply list_elem_of_bind in Hw as (sep & Hw & Hsep).
    exists i, j, word1, word2, sep. rewrite H1, H2. by repeat split.
  - intros (i & j & word1 & word2 & sep & Hi & Hj & Hij & H1 & H2 & Hsep & Hw).
    exact (elem_of_all_combinations current_year words include_years
             i j word1 word2 sep w Hi Hj Hij H1 H2 Hsep Hw).
Qed.

Lemma combo_form_contains_first c rest include_years w :
  c ≠ "" →
  w ∈ combo_forms current_year (c ++ rest) include_years →
  ∃ core s, core ∈ [c; str_capitalize c] ∧ w = (core ++ s)%string.
Proof.
  intros Hc. unfold combo_forms.
  rewrite !elem_of_app, !elem_of_cons, elem_of_nil.
  intros [[-> | [-> | []]] | [Hw | Hw]].
  - exists c, rest. split; [by left | done].
  - exists (str_capitalize c), (str_lower rest).
    split; [right; by left | by apply str_capitalize_app].
  - apply list_elem_of_fmap in Hw as (n & -> & _).
    exists c, (rest ++ n)%string. split; [by left | apply str_app_assoc].
  - destruct include_years; [|by apply elem_of_nil in Hw].
    apply list_elem_of_fmap in Hw as (y & -> & _).
    exists c, (rest ++ y)%string. split; [by left | apply str_app_assoc].
Qed.

End form_facts.

(** ** When the aggregate is empty *)

Section emptiness_facts.
Context (current_year : Z) (enum : gset string → list string).
Context (Henum : valid_enum enum).
Context (names dates pets interests : list string).
Context (include_years include_leet include_combinations : bool).

#[local] Abbreviation base_words := (base_words_of names dates pets interests).
#[local] Abbreviation aggregate :=
  (wordlist_set current_year enum names dates pets interests
     include_years include_leet include_combinations).

Lemma aggregate_empty :
  (∀ word, word ∈ base_words → clean word = "") → aggregate = ∅.
Proof.
  intros Hall. apply elem_of_equiv_empty_L. intros w Hw.
  apply (wordlist_set_cases _ _ Henum) in Hw as [(word & Hword & Hw) | Hw].
  - unfold _generate_word_variations in Hw. rewrite (Hall word Hword) in Hw.
    by apply elem_of_empty in Hw.
  - apply elem_of_all_combinations_iff in Hw
      as (i & j & word1 & word2 & sep & Hi & _ & _ & H1 & _).
    apply H1, Hall. eapply elem_of_take_1, list_elem_of_lookup_2, Hi.
Qed.

Lemma aggregate_inhabited word :
  word ∈ base_words → clean word ≠ "" → ("my" ++ clean word)%string ∈ aggregate.
Proof.
  intros Hword Hc. eapply elem_of_wordlist_set_variation; [done|].
  apply plain_forms_in_variations; [done| |].
  - rewrite str_length_app. simpl. apply str_empty_false, str_empty_length in Hc. lia.
  - apply elem_of_plain_forms. right. left. apply elem_of_affix_forms.
    exists "my", "". rewrite str_app_nil_r. repeat split; try tauto.
    + apply (bool_decide_unpack _). by vm_compute.
    + apply (bool_decide_unpack _). by vm_compute.
Qed.

Lemma generate_empty_iff max_words :
  0 ≤ max_words →
  generate_wordlist current_year enum names dates pets interests
    include_years include_leet include_combinations max_words = Some []
  ↔ aggregate = ∅.
Proof.
  intros Hmw. rewrite (generate_result _ _ Henum).
  assert (Hsize : aggregate = ∅ ↔ size aggregate = 0%nat).
  { split; [intros ->; apply size_empty|].
    intros H. by apply leibniz_equiv, size_empty_inv. }
  destruct (negb (max_words =? 0) && (max_words <? Z.of_nat (size aggregate)))
    eqn:Hcut.
  - apply andb_true_iff in Hcut as [Hnz Hlt].
    apply negb_true_iff, Z.eqb_neq in Hnz. apply Z.ltb_lt in Hlt.
    unfold slice_to. replace (0 <=? max_words) with true by lia.
    rewrite Hsize. split; [|lia]. intros [= H].
    apply (f_equal length) in H. rewrite length_take, ranked_length in H.
    simpl in H. lia.
  - rewrite Hsize. split.
    + intros [= H]. apply (f_equal length) in H. by rewrite final_length in H.
    + intros H. f_equal. apply length_zero_iff_nil. by rewrite final_length.
Qed.

End emptiness_facts.

(** ** More on the leetspeak expander *)

Lemma str_length_join cs : String.length (str_join cs) = length cs.
Proof. induction cs as [|c cs IH]; simpl; [done|]. by rewrite IH. Qed.

Lemma length_chars s : length (list_ascii_of_string s) = String.length s.
Proof. induction s as [|c s IH]; simpl; [done|]. by rewrite IH. Qed.

Lemma leet_emit_length original leet_word v :
  v ∈ leet_emit original leet_word → String.length v = String.length leet_word.
Proof.
  unfold leet_emit. destruct (String.eqb _ _); [by rewrite elem_of_nil|].
  rewrite !elem_of_cons, elem_of_nil. intros [-> | [-> | []]]; [done|].
  apply str_length_capitalize.
Qed.

Lemma leet_form_length word v :
  v ∈ _generate_leet_variations word → String.length v = String.length word.
Proof.
  unfold _generate_leet_variations.
  destruct (Nat.leb _ 6); rewrite elem_of_list_to_set, list_elem_of_bind.
  - intros (comb & Hv%leet_emit_length & Hcomb%elem_of_product%Forall2_length).
    rewrite Hv, str_length_join, Hcomb, length_fmap, length_chars.
    apply str_length_map.
  - intros (entry & Hv & _). apply list_elem_of_bind in Hv as (sub & Hv & _).
    apply leet_emit_length in Hv. rewrite Hv. unfold str_replace, str_lower.
    by rewrite !str_length_map.
Qed.

Lemma leet_emit_nonempty original leet_word :
  leet_word ≠ original → leet_word ∈ leet_emit original leet_word.
Proof.
  intros Hne. unfold leet_emit.
  destruct (String.eqb_spec leet_word original); [done | by left].
Qed.

Lemma leet_options_plain c : is_leet_letter c = false → leet_options c = [c].
Proof. unfold is_leet_letter, leet_options. by destruct (dict_get _ _). Qed.

Lemma table_keys_are_letters entry :
  entry ∈ leet_substitutions → is_leet_letter entry.1 = true ∧ entry.2 ≠ [].
Proof.
  unfold leet_substitutions. rewrite !elem_of_cons, elem_of_nil. intros H.
  repeat (destruct H as [-> | H]); try done.
Qed.

Lemma leet_letter_entry c :
  is_leet_letter c = true →
  ∃ sub subs, (c, sub :: subs) ∈ leet_substitutions.
Proof.
  unfold is_leet_letter.
  destruct (dict_get c leet_substitutions) as [subs|] eqn:E; [|done]. intros _.
  apply dict_get_Some in E.
  destruct (table_keys_are_letters _ E) as [_ Hne]. simpl in Hne.
  destruct subs as [|sub subs]; [done|]. by exists sub, subs.
Qed.

(** Without a leet letter the only choice of options is the token. *)
Lemma product_plain (comb : list ascii) (s : string) :
  str_any is_leet_letter s = false →
  Forall2 (λ x l, x ∈ l) comb (leet_options <$> list_ascii_of_string s) →
  str_join comb = s.
Proof.
  revert comb. induction s as [|c s IH]; intros comb; simpl.
  - intros _. by inversion 1.
  - rewrite orb_false_iff. intros [Hc Hs].
    inversion 1 as [|x l comb' ls Hx Hrest]; subst.
    rewrite (leet_options_plain c Hc), list_elem_of_singleton in Hx. subst.
    simpl. f_equal. by apply IH.
Qed.

Lemma replace_absent a b s :
  str_any (Ascii.eqb a) s = false → str_replace a b s = s.
Proof.
  unfold str_replace. induction s as [|c s IH]; simpl; [done|].
  rewrite orb_false_iff. intros [Hc Hs]. rewrite (IH Hs).
  rewrite Ascii.eqb_sym in Hc. by rewrite Hc.
Qed.

Lemma no_leet_letter_absent a s :
  is_leet_letter a = true → str_any is_leet_letter s = false →
  str_any (Ascii.eqb a) s = false.
Proof.
  intros Ha. induction s as [|c s IH]; simpl; [done|].
  rewrite !orb_false_iff. intros [Hc Hs]. split; [|by apply IH].
  destruct (Ascii.eqb_spec a c) as [->|]; [congruence | done].
Qed.

Lemma leet_options_self c : c ∈ leet_options c.
Proof. unfold leet_options. destruct (dict_get c _); by left. Qed.

Lemma leet_options_letter c :
  is_leet_letter c = true →
  ∃ sub rest, leet_options c = c :: sub :: rest ∧ sub ≠ c.
Proof.
  destruct c as [[] [] [] [] [] [] [] []]; vm_compute; intros H;
    try discriminate H; eexists _, _; (split; [reflexivity | discriminate]).
Qed.

Lemma chars_in_options s :
  Forall2 (λ x l, x ∈ l) (list_ascii_of_string s)
    (leet_options <$> list_ascii_of_string s).
Proof.
  induction s as [|c s IH]; simpl; constructor; [apply leet_options_self | done].
Qed.

(** With a leet letter some choice of options differs from the token. *)
Lemma product_differs (s : string) :
  str_any is_leet_letter s = true →
  ∃ comb, comb ∈ product (leet_options <$> list_ascii_of_string s)
          ∧ str_join comb ≠ s.
Proof.
  induction s as [|c s IH]; [done|].
  change (str_any is_leet_letter (String c s))
    with (is_leet_letter c || str_any is_leet_letter s).
  destruct (is_leet_letter c) eqn:Hc.
  - intros _. apply leet_options_letter in Hc as (sub & rest & Hopt & Hne).
    exists (sub :: list_ascii_of_string s). split.
    + apply elem_of_product. simpl. constructor; [|apply chars_in_options].
      rewrite Hopt. right. by left.
    + simpl. rewrite string_of_list_ascii_of_string. by intros [= ?].
  - intros Hs. destruct (IH Hs) as (comb & Hcomb & Hne).
    exists (c :: comb). split.
    + apply elem_of_product. simpl. constructor; [apply leet_options_self|].
      by apply elem_of_product.
    + simpl. intros [= ?]. done.
Qed.

Lemma replace_present a b s :
  b ≠ a → str_any (Ascii.eqb a) s = true → str_replace a b s ≠ s.
Proof.
  intros Hba. unfold str_replace. induction s as [|c s IH]; simpl; [done|].
  destruct (Ascii.eqb_spec a c) as [<-|Hac]; simpl.
  - intros _. rewrite Ascii.eqb_refl. by intros [= ? _].
  - intros Hs [= _ H]. by apply IH.
Qed.

Lemma leet_letter_present s :
  str_any is_leet_letter s = true →
  ∃ a, is_leet_letter a = true ∧ str_any (Ascii.eqb a) s = true.
Proof.
  induction s as [|c s IH]; [done|]. simpl.
  destruct (is_leet_letter c) eqn:Hc; simpl.
  - intros _. exists c. by rewrite Ascii.eqb_refl.
  - intros (a & Ha & Hs)%IH. exists a. by rewrite Hs, orb_true_r.
Qed.

(** How many forms the expander can emit. *)
Lemma leet_options_length c : (length (leet_options c) ≤ 3)%nat.
Proof.
  destruct c as [[] [] [] [] [] [] [] []]; vm_compute; lia.
Qed.

Lemma product_length_le {A} (ls : list (list A)) k :
  Forall (λ l, length l ≤ k)%nat ls → (length (product ls) ≤ k ^ length ls)%nat.
Proof.
  induction 1 as [|l ls Hl Hls IH]; simpl; [lia|].
  etrans; [apply (length_bind_le _ _ (k ^ length ls))|].
  - intros x. by rewrite length_fmap.
  - nia.
Qed.

Lemma leet_emit_length_le original leet_word :
  (length (leet_emit original leet_word) ≤ 2)%nat.
Proof. unfold leet_emit. destruct (String.eqb _ _); simpl; lia. Qed.

Lemma length_bind_le_in {A B} (f : A → list B) (l : list A) k :
  (∀ x, x ∈ l → length (f x) ≤ k)%nat → (length (l ≫= f) ≤ k * length l)%nat.
Proof.
  induction l as [|x l IH]; intros Hf; csimpl; [lia|].
  rewrite length_app.
  assert (length (f x) ≤ k)%nat by (apply Hf; by left).
  assert (length (l ≫= f) ≤ k * length l)%nat
    by (apply IH; intros y Hy; apply Hf; by right).
  lia.
Qed.

Lemma leet_size word : (size (_generate_leet_variations word) ≤ 1458)%nat.
Proof.
  unfold _generate_leet_variations.
  destruct (Nat.leb _ 6) eqn:Hlen; (etrans; [apply size_list_to_set_le|]).
  - apply Nat.leb_le in Hlen.
    etrans; [apply (length_bind_le _ _ 2); intros; apply leet_emit_length_le|].
    assert (length (product (leet_options <$> list_ascii_of_string (str_lower word)))
            ≤ 3 ^ 6)%nat; [|simpl in *; lia].
    etrans; [apply (product_length_le _ 3)|].
    + apply Forall_fmap, Forall_forall. intros c _. apply leet_options_length.
    + by apply Nat.pow_le_mono_r.
  - etrans; [apply (length_bind_le_in _ _ 4)|simpl; lia].
    intros entry Hin.
    etrans; [apply (length_bind_le _ _ 2); intros; apply leet_emit_length_le|].
    revert Hin. unfold leet_substitutions. rewrite !elem_of_cons, elem_of_nil.
    intros E. repeat (destruct E as [-> | E]; [simpl; lia|]). done.
Qed.

(** Every base word contributes at most 1693 variations. *)
Lemma variations_bound_sum (l : list string) :
  (sum_list (variations_bound <$> l) ≤ 1693 * length l)%nat.
Proof.
  induction l as [|word l IH]; [simpl; lia|].
  rewrite fmap_cons.
  change (sum_list (variations_bound word :: (variations_bound <$> l)))
    with (variations_bound word + sum_list (variations_bound <$> l))%nat.
  pose proof (leet_size (clean word)). unfold variations_bound at 1.
  simpl length. lia.
Qed.

(** ** Date fragments *)

Lemma split_digits_spec n s d rest :
  split_digits n s = Some (d, rest) →
  String.length d = n ∧ str_all chr_isdigit d = true ∧ s = (d ++ rest)%string.
Proof.
  revert s d rest. induction n as [|n IH]; intros s d rest.
  - intros [= <- <-]. done.
  - destruct s as [|c r]; [done|]. simpl split_digits.
    destruct (chr_isdigit c) eqn:Hc; [|done].
    destruct (split_digits n r) as [[d' rest']|] eqn:Hs; [|done].
    intros [= <- <-]. destruct (IH _ _ _ Hs) as (Hl & Ha & ->).
    simpl. by rewrite Hc, Hl, Ha.
Qed.

Lemma match_digits_spec {R} (cont : string → option R) lo n s d r :
  match_digits cont lo n s = Some (d, r) →
  (lo ≤ String.length d ≤ n)%nat ∧ str_all chr_isdigit d = true
  ∧ ∃ rest, s = (d ++ rest)%string ∧ cont rest = Some r.
Proof.
  assert (Hhere : ∀ m,
    (if Nat.leb lo m
     then dr ← split_digits m s; (λ r, (dr.1, r)) <$> cont dr.2
     else None) = Some (d, r) →
    (lo ≤ String.length d ≤ m)%nat ∧ str_all chr_isdigit d = true
    ∧ ∃ rest, s = (d ++ rest)%string ∧ cont rest = Some r).
  { intros m. destruct (Nat.leb lo m) eqn:Hlo; [|done].
    apply Nat.leb_le in Hlo.
    destruct (split_digits m s) as [[d' rest]|] eqn:Hs; [|done].
    simpl. destruct (cont rest) as [r'|] eqn:Hc; [|done].
    intros [= <- <-]. destruct (split_digits_spec _ _ _ _ Hs) as (Hl & Ha & ->).
    split; [lia|]. split; [done|]. by exists rest. }
  induction n as [|n IH].
  - simpl match_digits.
    destruct (if Nat.leb lo 0 then _ else _) as [x|] eqn:Hx; [|done].
    intros [= ->]. by apply Hhere.
  - simpl match_digits.
    destruct (if Nat.leb lo (S n) then _ else _) as [x|] eqn:Hx.
    + intros [= ->]. by apply Hhere.
    + intros H. destruct (IH H) as (Hl & Ha & Hr). split; [lia|]. done.
Qed.

Lemma str_contains_refl_app (g rest : string) :
  str_contains g (g ++ rest) = true.
Proof. apply str_contains_spec. by exists "", rest. Qed.

Lemma str_contains_cons (g : string) (c : ascii) (s : string) :
  str_contains g s = true → str_contains g (String c s) = true.
Proof.
  intros H. change (str_contains g (String c s))
    with (String.prefix g (String c s) || str_contains g s).
  rewrite H. apply orb_true_r.
Qed.

Lemma str_contains_app_l (g a s : string) :
  str_contains g s = true → str_contains g (a ++ s) = true.
Proof.
  intros H. induction a as [|c a IH]; [done|].
  rewrite app_cons. by apply str_contains_cons.
Qed.

Lemma str_contains_app_r (g s b : string) :
  str_contains g s = true → str_contains g (s ++ b) = true.
Proof.
  rewrite !str_contains_spec. intros (p & q & ->).
  exists p, (q ++ b)%string. by rewrite !str_app_assoc.
Qed.

(** The groups of a match are runs of digits of the lengths the pattern
    allows, and parts of the text matched. *)
Lemma match_here_groups p s g n :
  match_here p s = Some (g, n) →
  Forall (λ grp, group_of p grp ∧ str_contains grp s = true) g.
Proof.
  revert s g n. induction p as [|item p IH]; intros s g n.
  - intros [= <- <-]. constructor.
  - destruct item as [lo hi|c].
    + simpl match_here.
      destruct (match_digits (match_here p) lo hi s) as [[d [g' n']]|] eqn:Hm;
        [|done].
      intros [= <- <-].
      destruct (match_digits_spec _ _ _ _ _ _ Hm) as (Hl & Ha & rest & -> & Hr).
      constructor.
      * split; [|apply str_contains_refl_app].
        split; [done|]. exists lo, hi. split; [left|done].
      * eapply Forall_impl; [exact (IH _ _ _ Hr)|].
        intros grp [(Hd & lo' & hi' & Hin & Hlen) Hc]. split.
        -- split; [done|]. exists lo', hi'. split; [by right|done].
        -- by apply str_contains_app_l.
    + simpl match_here. destruct s as [|c' r]; [done|].
      destruct (Ascii.eqb c c'); [|done].
      destruct (match_here p r) as [[g' n']|] eqn:Hm; [|done].
      intros [= <- <-].
      eapply Forall_impl; [exact (IH _ _ _ Hm)|].
      intros grp [(Hd & lo' & hi' & Hin & Hlen) Hc]. split.
      * split; [done|]. exists lo', hi'. split; [by right|done].
      * by apply str_contains_cons.
Qed.

Lemma findall_from_groups p skip s m :
  m ∈ findall_from p skip s →
  Forall (λ grp, group_of p grp ∧ str_contains grp s = true) m.
Proof.
  revert skip. induction s as [|c r IH]; intros skip; [by intros ?%elem_of_nil|].
  assert (Hlater : ∀ k, m ∈ findall_from p k r →
    Forall (λ grp, group_of p grp ∧ str_contains grp (String c r) = true) m).
  { intros k Hk. eapply Forall_impl; [exact (IH _ Hk)|].
    intros grp [Hg Hc]. split; [done|]. by apply str_contains_cons. }
  destruct skip as [|k]; simpl findall_from; [|apply Hlater].
  destruct (match_here p (String c r)) as [[g n]|] eqn:Hm; [|apply Hlater].
  intros [-> | Hin]%elem_of_cons; [|by eapply Hlater].
  exact (match_here_groups _ _ _ _ Hm).
Qed.

Lemma str_lstrip_contained (g s : string) :
  str_contains g (str_lstrip s) = true → str_contains g s = true.
Proof.
  induction s as [|c r IH]; [done|]. simpl str_lstrip.
  destruct (chr_isspace c); [|done]. intros H. by apply str_contains_cons, IH.
Qed.

Lemma str_rstrip_prefix (s : string) : ∃ b, s = (str_rstrip s ++ b)%string.
Proof.
  induction s as [|c r [b Hb]]; [by exists ""|]. simpl str_rstrip.
  destruct (str_empty (str_rstrip r) && chr_isspace c).
  - by exists (String c r).
  - exists b. by rewrite app_cons, <- Hb.
Qed.

Lemma str_strip_contained (g s : string) :
  str_contains g (str_strip s) = true → str_contains g s = true.
Proof.
  intros H. apply str_lstrip_contained.
  destruct (str_rstrip_prefix (str_lstrip s)) as [b Hb]. rewrite Hb.
  by apply str_contains_app_r.
Qed.

Lemma date_format_lengths p lo hi :
  p ∈ date_formats → Digits lo hi ∈ p →
  (lo = 1 ∧ hi = 2)%nat ∨ (lo = 4 ∧ hi = 4)%nat.
Proof.
  unfold date_formats. rewrite !elem_of_cons, elem_of_nil. intros Hp.
  repeat (destruct Hp as [-> | Hp]); try done;
    rewrite !elem_of_cons, elem_of_nil; intros Hd;
    repeat (destruct Hd as [Hd | Hd]); try done;
    injection Hd as -> ->; lia.
Qed.

(** What one date contributes: runs of one, two or four digits taken
    from the date. *)
Lemma date_fragment_spec date_str w :
  w ∈ date_fragments date_str →
  str_isdigit w = true
  ∧ (String.length w = 1 ∨ String.length w = 2 ∨ String.length w = 4)%nat
  ∧ str_contains w date_str = true.
Proof.
  unfold date_fragments. destruct (truthy (str_strip date_str)); [|by intros ?%elem_of_nil].
  intros (p & Hw & Hp)%list_elem_of_bind.
  apply list_elem_of_bind in Hw as (m & Hw & Hm).
  pose proof (findall_from_groups _ _ _ _ Hm) as Hall.
  rewrite Forall_forall in Hall.
  destruct (Hall w Hw) as [(Hd & lo & hi & Hin & Hlen) Hc].
  destruct (date_format_lengths _ _ _ Hp Hin) as [[-> ->] | [-> ->]].
  - split; [|split; [lia | by apply str_strip_contained]].
    unfold str_isdigit. rewrite Hd. destruct w; [simpl in Hlen; lia | done].
  - split; [|split; [lia | by apply str_strip_contained]].
    unfold str_isdigit. rewrite Hd. destruct w; [simpl in Hlen; lia | done].
Qed.

Lemma filter_all {A} (f : A → bool) (l : list A) :
  (∀ x, x ∈ l → f x = true) → List.filter f l = l.
Proof.
  induction l as [|x l IH]; intros H; [done|]. simpl.
  rewrite (H x) by left. f_equal. apply IH. intros y Hy. apply H. by right.
Qed.

(** The final [isdigit] filter removes nothing. *)
Lemma process_dates_unfiltered dates :
  _process_dates dates = dates ≫= date_fragments.
Proof.
  unfold _process_dates. apply filter_all.
  intros w (d & Hw & Hd)%list_elem_of_bind.
  by destruct (date_fragment_spec d w Hw).
Qed.

Lemma chr_isdigit_not_space (c : ascii) :
  chr_isdigit c = true → chr_isspace c = false.
Proof. by destruct c as [[] [] [] [] [] [] [] []]. Qed.

Lemma str_rstrip_no_space (s : string) :
  str_any chr_isspace s = false → str_rstrip s = s.
Proof.
  induction s as [|c r IH]; [done|]. simpl.
  intros [Hc Hr]%orb_false_iff. by rewrite Hc, andb_false_r, IH.
Qed.

Lemma str_strip_no_space (s : string) :
  str_any chr_isspace s = false → str_strip s = s.
Proof.
  intros H. unfold str_strip.
  destruct s as [|c r]; [done|]. simpl str_lstrip.
  pose proof H as [-> _]%orb_false_iff. by apply str_rstrip_no_space.
Qed.

Lemma digits_no_space (s : string) :
  str_all chr_isdigit s = true → str_any chr_isspace s = false.
Proof.
  induction s as [|c r IH]; [done|]. simpl.
  intros [Hc Hr]%andb_true_iff. by rewrite (chr_isdigit_not_space c Hc), IH.
Qed.

Lemma digit_not_separator (c : ascii) :
  chr_isdigit c = true →
  Ascii.eqb "/" c = false ∧ Ascii.eqb "-" c = false ∧ Ascii.eqb "." c = false.
Proof. by destruct c as [[] [] [] [] [] [] [] []]. Qed.

(** ** Statistics of a word list *)

Lemma foldr_min_spec (x0 : Z) (l : list Z) :
  (∀ x, x ∈ x0 :: l → foldr Z.min x0 l ≤ x) ∧ foldr Z.min x0 l ∈ x0 :: l.
Proof.
  induction l as [|y l [IHle IHin]]; simpl.
  - split; [|left]. intros x ->%list_elem_of_singleton. lia.
  - split.
    + intros x Hx. rewrite !elem_of_cons in Hx.
      destruct Hx as [-> | [-> | Hx]].
      * specialize (IHle x0 ltac:(left)). lia.
      * lia.
      * specialize (IHle x ltac:(by right)). lia.
    + destruct (Z.min_spec y (foldr Z.min x0 l)) as [[_ ->] | [_ ->]].
      * right; left.
      * rewrite elem_of_cons in IHin. destruct IHin as [-> | Hin];
          [left | right; by right].
Qed.

Lemma foldr_max_spec (x0 : Z) (l : list Z) :
  (∀ x, x ∈ x0 :: l → x ≤ foldr Z.max x0 l) ∧ foldr Z.max x0 l ∈ x0 :: l.
Proof.
  induction l as [|y l [IHle IHin]]; simpl.
  - split; [|left]. intros x ->%list_elem_of_singleton. lia.
  - split.
    + intros x Hx. rewrite !elem_of_cons in Hx.
      destruct Hx as [-> | [-> | Hx]].
      * specialize (IHle x0 ltac:(left)). lia.
      * lia.
      * specialize (IHle x ltac:(by right)). lia.
    + destruct (Z.max_spec y (foldr Z.max x0 l)) as [[_ ->] | [_ ->]].
      * rewrite elem_of_cons in IHin. destruct IHin as [-> | Hin];
          [left | right; by right].
      * right; left.
Qed.

Lemma size_list_to_set_NoDup (l : list string) :
  size (list_to_set l : gset string) = length l ↔ NoDup l.
Proof.
  split; [|apply size_list_to_set].
  induction l as [|x l IH]; [constructor|].
  intros H. pose proof (size_list_to_set_le l) as Hle.
  destruct (decide (x ∈ l)) as [Hin|Hin].
  - exfalso. simpl in H.
    replace ({[x]} ∪ list_to_set l : gset string) with (list_to_set l : gset string) in H
      by (symmetry; apply subseteq_union_1_L, singleton_subseteq_l;
          by apply elem_of_list_to_set).
    lia.
  - constructor; [done|]. apply IH. simpl in H.
    rewrite size_union, size_singleton in H
      by (apply disjoint_singleton_l; by rewrite elem_of_list_to_set).
    lia.
Qed.


Ltac lookup_incr :=
  unfold incr;
  repeat first [ rewrite lookup_total_insert_eq
               | rewrite lookup_total_insert_ne by done ].

Lemma count_charsets_total (d : gmap string Z) (w : string) :
  count_charsets d w !!! "lowercase_only"
    = d !!! "lowercase_only" + bump (lowercase_only w)
  ∧ count_charsets d w !!! "uppercase_only"
    = d !!! "uppercase_only" + bump (uppercase_only w)
  ∧ count_charsets d w !!! "mixed_case"
    = d !!! "mixed_case" + bump (mixed_case w)
  ∧ count_charsets d w !!! "with_numbers"
    = d !!! "with_numbers" + bump (with_numbers w)
  ∧ count_charsets d w !!! "with_symbols"
    = d !!! "with_symbols" + bump (with_symbols w).
Proof.
  unfold count_charsets, lowercase_only, uppercase_only, mixed_case,
    with_numbers, with_symbols.
  destruct (str_any chr_islower w), (str_any chr_isupper w),
    (str_any chr_isdigit w), (str_any (λ c, negb (chr_isalnum c)) w);
    cbn [andb negb bump]; lookup_incr; repeat split; lia.
Qed.

Lemma count_where_cons (P : string → bool) (w : string) (l : list string) :
  count_where P (w :: l) = bump (P w) + count_where P l.
Proof.
  unfold count_where. simpl. destruct (P w); simpl length; unfold bump; lia.
Qed.

Lemma analyze_total (d : gmap string Z) (wordlist : list string) :
  let r := foldl count_charsets d wordlist in
  r !!! "lowercase_only"
    = d !!! "lowercase_only" + count_where lowercase_only wordlist
  ∧ r !!! "uppercase_only"
    = d !!! "uppercase_only" + count_where uppercase_only wordlist
  ∧ r !!! "mixed_case" = d !!! "mixed_case" + count_where mixed_case wordlist
  ∧ r !!! "with_numbers"
    = d !!! "with_numbers" + count_where with_numbers wordlist
  ∧ r !!! "with_symbols"
    = d !!! "with_symbols" + count_where with_symbols wordlist.
Proof.
  revert d. induction wordlist as [|w l IH]; intros d.
  - unfold count_where. simpl. repeat split; lia.
  - simpl foldl. destruct (IH (count_charsets d w)) as (H1 & H2 & H3 & H4 & H5).
    destruct (count_charsets_total d w) as (E1 & E2 & E3 & E4 & E5).
    cbv zeta. rewrite !count_where_cons, H1, H2, H3, H4, H5, E1, E2, E3, E4, E5.
    repeat split; lia.
Qed.

Lemma incr_dom (k : string) (d : gmap string Z) :
  k ∈ dom d → dom (incr k d) = dom d.
Proof.
  intros Hk. unfold incr. rewrite dom_insert_L.
  by apply subseteq_union_1_L, singleton_subseteq_l.
Qed.

Lemma count_charsets_dom (d : gmap string Z) (w : string) :
  charset_keys ⊆ dom d → dom (count_charsets d w) = dom d.
Proof.
  intros Hk. unfold count_charsets.
  assert (∀ k, k ∈ charset_keys → k ∈ dom d) as Hin by (intros k ?; by apply Hk).
  assert (∀ k, k ∈ charset_keys → ∀ d', dom d' = dom d → dom (incr k d') = dom d)
    as Hstep.
  { intros k Hkk d' Hd'. rewrite incr_dom; [done|]. rewrite Hd'. by apply Hin. }
  assert ("lowercase_only" ∈ charset_keys) by (by apply (bool_decide_unpack _)).
  assert ("uppercase_only" ∈ charset_keys) by (by apply (bool_decide_unpack _)).
  assert ("mixed_case" ∈ charset_keys) by (by apply (bool_decide_unpack _)).
  assert ("with_numbers" ∈ charset_keys) by (by apply (bool_decide_unpack _)).
  assert ("with_symbols" ∈ charset_keys) by (by apply (bool_decide_unpack _)).
  destruct (str_any chr_islower w), (str_any chr_isupper w),
    (str_any chr_isdigit w), (str_any (λ c, negb (chr_isalnum c)) w);
    cbn [andb negb]; repeat (apply Hstep; [done|]); reflexivity.
Qed.

Lemma analyze_dom (d : gmap string Z) (wordlist : list string) :
  charset_keys ⊆ dom d → dom (foldl count_charsets d wordlist) = dom d.
Proof.
  revert d. induction wordlist as [|w l IH]; intros d Hd; [done|].
  simpl foldl. rewrite IH; rewrite count_charsets_dom; done.
Qed.

Lemma analyze_lookup (wordlist : list string) :
  let d := _analyze_charset_distribution wordlist in
  dom d = charset_keys
  ∧ d !!! "lowercase_only" = count_where lowercase_only wordlist
  ∧ d !!! "uppercase_only" = count_where uppercase_only wordlist
  ∧ d !!! "mixed_case" = count_where mixed_case wordlist
  ∧ d !!! "with_numbers" = count_where with_numbers wordlist
  ∧ d !!! "with_symbols" = count_where with_symbols wordlist.
Proof.
  unfold _analyze_charset_distribution.
  set (d0 := list_to_map _ : gmap string Z).
  assert (Hdom : dom d0 = charset_keys) by (unfold d0; by rewrite dom_list_to_map_L).
  split.
  - rewrite analyze_dom; [done|]. by rewrite Hdom.
  - destruct (analyze_total d0 wordlist) as (H1 & H2 & H3 & H4 & H5).
    cbv zeta in *. rewrite H1, H2, H3, H4, H5.
    repeat split; reflexivity.
Qed.

Lemma charset_key_lookup (d : gmap string Z) (k : string) :
  dom d = charset_keys → k ∈ charset_keys → d !! k = Some (d !!! k).
Proof. intros Hd Hk. apply lookup_lookup_total_dom. by rewrite Hd. Qed.

Lemma case_classes_partition (wordlist : list string) :
  count_where lowercase_only wordlist + count_where uppercase_only wordlist
  + count_where mixed_case wordlist = count_where has_cased wordlist
  ∧ 0 ≤ count_where has_cased wordlist ≤ Z.of_nat (length wordlist).
Proof.
  induction wordlist as [|w l [IH1 IH2]]; [done|].
  rewrite !count_where_cons. simpl length.
  assert (bump (lowercase_only w) + bump (uppercase_only w)
          + bump (mixed_case w) = bump (has_cased w)
          ∧ 0 ≤ bump (has_cased w) ≤ 1) as [Hw Hb].
  { unfold lowercase_only, uppercase_only, mixed_case, has_cased.
    destruct (str_any chr_islower w), (str_any chr_isupper w);
      cbn [andb orb negb bump]; lia. }
  lia.
Qed.


(** ** Export *)

Lemma lines_from_word (current w rest : string) :
  no_newline w = true →
  lines_from current (w ++ newline ++ rest) = (current ++ w)%string :: lines rest.
Proof.
  revert current. induction w as [|c w IH]; intros current Hw.
  - rewrite str_app_nil_l, str_app_nil_r. reflexivity.
  - unfold no_newline in Hw. simpl in Hw. apply andb_true_iff in Hw as [Hc Hw].
    rewrite app_cons. simpl lines_from.
    unfold chr_notnl in Hc. apply negb_true_iff in Hc. rewrite Hc.
    rewrite (IH _ Hw). by rewrite str_app_assoc, app_cons, str_app_nil_l.
Qed.

Lemma write_lines_spec (f : string) (wordlist : list string) :
  foldl (λ f word, write f (word ++ newline)%string) f wordlist
  = (f ++ foldr (λ word text, word ++ newline ++ text) "" wordlist)%string.
Proof.
  revert f. induction wordlist as [|w l IH]; intros f; simpl.
  - by rewrite str_app_nil_r.
  - rewrite IH. unfold write. by rewrite !str_app_assoc.
Qed.

Lemma lines_of_text (wordlist : list string) :
  Forall (λ w, no_newline w = true) wordlist →
  lines (foldr (λ word text, word ++ newline ++ text) "" wordlist)%string
  = wordlist.
Proof.
  induction 1 as [|w l Hw _ IH]; [done|]. simpl foldr. unfold lines.
  rewrite lines_from_word by done. rewrite str_app_nil_l. f_equal. exact IH.
Qed.

Lemma export_content (wordlist : list string) :
  Forall (λ w, no_newline w = true) wordlist →
  lines (foldl (λ f word, write f (word ++ newline)%string) "" wordlist)
  = wordlist.
Proof.
  intros H. rewrite write_lines_spec, str_app_nil_l. by apply lines_of_text.
Qed.


(** ** The alphabet of the generated words *)

Lemma in_alphabet_app (a b : string) :
  in_alphabet (a ++ b) = in_alphabet a && in_alphabet b.
Proof.
  unfold in_alphabet. induction a as [|c a IH]; [done|].
  rewrite app_cons. simpl. by rewrite IH, andb_assoc.
Qed.

Lemma in_alphabet_map f s :
  (∀ c, chr_allowed c = true → chr_allowed (f c) = true) →
  in_alphabet s = true → in_alphabet (str_map f s) = true.
Proof.
  intros Hf. unfold in_alphabet. induction s as [|c s IH]; simpl; [done|].
  rewrite !andb_true_iff. intros [Hc Hs]. auto.
Qed.

Lemma chr_allowed_upper c : chr_allowed c = true → chr_allowed (chr_upper c) = true.
Proof. by_cases_on c. Qed.

Lemma chr_allowed_lower c : chr_allowed c = true → chr_allowed (chr_lower c) = true.
Proof. by_cases_on c. Qed.

Lemma chr_isword_allowed c : chr_isword c = true → chr_allowed c = true.
Proof. by_cases_on c. Qed.

Lemma substitute_allowed c : is_substitute c = true → chr_allowed c = true.
Proof. by_cases_on c. Qed.

Lemma in_alphabet_upper s : in_alphabet s = true → in_alphabet (str_upper s) = true.
Proof. apply in_alphabet_map, chr_allowed_upper. Qed.

Lemma in_alphabet_lower s : in_alphabet s = true → in_alphabet (str_lower s) = true.
Proof. apply in_alphabet_map, chr_allowed_lower. Qed.

Lemma in_alphabet_capitalize s :
  in_alphabet s = true → in_alphabet (str_capitalize s) = true.
Proof.
  destruct s as [|c s]; [done|]. unfold in_alphabet. simpl.
  rewrite !andb_true_iff. intros [Hc Hs]. split.
  - by apply chr_allowed_upper.
  - by apply in_alphabet_lower.
Qed.

Lemma in_alphabet_clean word : in_alphabet (clean word) = true.
Proof.
  unfold clean, strip_nonword, in_alphabet.
  induction (str_lower word) as [|c s IH]; simpl; [done|].
  destruct (chr_isword c) eqn:Hc; [|done]. simpl.
  by rewrite (chr_isword_allowed c Hc).
Qed.

Lemma in_alphabet_uint d : in_alphabet (NilEmpty.string_of_uint d) = true.
Proof. induction d; simpl; done. Qed.

Lemma in_alphabet_uint0 d : in_alphabet (NilZero.string_of_uint d) = true.
Proof. destruct d; [done | apply in_alphabet_uint ..]. Qed.

Lemma in_alphabet_str_of_int n : in_alphabet (str_of_int n) = true.
Proof.
  unfold str_of_int, NilZero.string_of_int.
  destruct (Z.to_int n) as [d|d]; [apply in_alphabet_uint0|].
  pose proof (in_alphabet_uint0 d) as H. unfold in_alphabet in *. exact H.
Qed.

Lemma in_alphabet_year current_year year :
  year ∈ years current_year → in_alphabet year = true.
Proof.
  unfold years. intros (n & -> & _)%list_elem_of_fmap. apply in_alphabet_str_of_int.
Qed.

Lemma tables_in_alphabet :
  Forall (λ s, in_alphabet s = true)
    (prefixes ++ suffixes ++ common_numbers ++ separators).
Proof. repeat constructor. Qed.

Lemma prefix_in_alphabet s : s ∈ prefixes → in_alphabet s = true.
Proof.
  intros H. eapply (proj1 (Forall_forall _ _) tables_in_alphabet).
  rewrite !elem_of_app. tauto.
Qed.

Lemma suffix_in_alphabet s : s ∈ suffixes → in_alphabet s = true.
Proof.
  intros H. eapply (proj1 (Forall_forall _ _) tables_in_alphabet).
  rewrite !elem_of_app. tauto.
Qed.

Lemma number_in_alphabet s : s ∈ common_numbers → in_alphabet s = true.
Proof.
  intros H. eapply (proj1 (Forall_forall _ _) tables_in_alphabet).
  rewrite !elem_of_app. tauto.
Qed.

Lemma separator_in_alphabet s : s ∈ separators → in_alphabet s = true.
Proof.
  intros H. eapply (proj1 (Forall_forall _ _) tables_in_alphabet).
  rewrite !elem_of_app. tauto.
Qed.

(** Each character of a leetspeak form is a character of the token or a
    substitute. *)
Lemma in_alphabet_join_product (comb : list ascii) (s : string) :
  Forall2 (λ x l, x ∈ l) comb (leet_options <$> list_ascii_of_string s) →
  in_alphabet s = true → in_alphabet (str_join comb) = true.
Proof.
  unfold in_alphabet. revert comb. induction s as [|c s IH]; intros comb; simpl.
  - by inversion 1.
  - inversion 1 as [|x l comb' ls Hx Hrest]; subst. simpl.
    rewrite !andb_true_iff. intros [Hc Hs]. split; [|by apply IH].
    apply leet_options_spec in Hx as [-> | [_ Hx]]; [done|].
    by apply substitute_allowed.
Qed.

Lemma in_alphabet_replace a b s :
  chr_allowed b = true → in_alphabet s = true →
  in_alphabet (str_replace a b s) = true.
Proof.
  intros Hb. apply in_alphabet_map. intros c Hc. by destruct (Ascii.eqb c a).
Qed.

Lemma in_alphabet_leet_emit original leet_word v :
  in_alphabet leet_word = true →
  v ∈ leet_emit original leet_word → in_alphabet v = true.
Proof.
  unfold leet_emit. intros Hl. destruct (String.eqb _ _); [by rewrite elem_of_nil|].
  rewrite !elem_of_cons, elem_of_nil. intros [-> | [-> | []]]; [done|].
  by apply in_alphabet_capitalize.
Qed.

Lemma in_alphabet_leet word v :
  in_alphabet word = true →
  v ∈ _generate_leet_variations word → in_alphabet v = true.
Proof.
  intros Hw%in_alphabet_lower. unfold _generate_leet_variations.
  destruct (Nat.leb _ 6); rewrite elem_of_list_to_set, list_elem_of_bind.
  - intros (comb & Hv & Hcomb%elem_of_product).
    eapply in_alphabet_leet_emit; [|done].
    by apply (in_alphabet_join_product comb (str_lower word)).
  - intros (entry & Hv & Hentry). apply list_elem_of_bind in Hv as (sub & Hv & Hsub).
    destruct (table_entry_spec entry sub Hentry Hsub) as [_ Hs].
    eapply in_alphabet_leet_emit; [|done].
    apply in_alphabet_replace; [by apply substitute_allowed | done].
Qed.

Section alphabet_facts.
Context (current_year : Z) (enum : gset string → list string).
Context (Henum : valid_enum enum).

Lemma in_alphabet_variation word include_leet include_years w :
  w ∈ _generate_word_variations current_year word include_leet include_years →
  in_alphabet w = true.
Proof.
  unfold _generate_word_variations. destruct (str_empty _); [by rewrite elem_of_empty|].
  rewrite elem_of_filter. intros [_ Hw]. unfold raw_variations in Hw.
  pose proof (in_alphabet_clean word) as Hc.
  pose proof (in_alphabet_capitalize _ Hc) as Hcap.
  apply elem_of_union in Hw as [Hw | Hw].
  - unfold plain_forms in Hw. rewrite elem_of_list_to_set, !elem_of_app in Hw.
    destruct Hw as [Hw | [Hw | [Hw | Hw]]].
    + rewrite !elem_of_cons, elem_of_nil in Hw.
      destruct Hw as [-> | [-> | [-> | []]]]; [done..|]. by apply in_alphabet_upper.
    + unfold affix_forms in Hw.
      apply list_elem_of_bind in Hw as (p & Hw & Hp%prefix_in_alphabet).
      apply list_elem_of_bind in Hw as (s & Hw & Hs%suffix_in_alphabet).
      destruct (_ || _); [|by apply elem_of_nil in Hw].
      rewrite !elem_of_cons, elem_of_nil in Hw.
      destruct Hw as [-> | [-> | []]]; rewrite !in_alphabet_app; by rewrite ?Hp, ?Hs, ?Hc, ?Hcap.
    + unfold number_forms in Hw.
      apply list_elem_of_bind in Hw as (n & Hw & Hn%number_in_alphabet).
      rewrite !elem_of_cons, elem_of_nil in Hw.
      destruct Hw as [-> | [-> | [-> | []]]]; rewrite !in_alphabet_app; by rewrite ?Hn, ?Hc, ?Hcap.
    + destruct include_years; [|by apply elem_of_nil in Hw].
      unfold year_forms in Hw.
      apply list_elem_of_bind in Hw as (y & Hw & Hy%in_alphabet_year).
      rewrite !elem_of_cons, elem_of_nil in Hw.
      destruct Hw as [-> | [-> | []]]; rewrite !in_alphabet_app; by rewrite ?Hy, ?Hc, ?Hcap.
  - destruct include_leet; [|by apply elem_of_empty in Hw].
    by apply (in_alphabet_leet (clean word) w Hc).
Qed.

Lemma in_alphabet_combination words include_years w :
  w ∈ all_combinations current_year words include_years → in_alphabet w = true.
Proof.
  unfold all_combinations, combination_list.
  rewrite elem_of_list_to_set, list_elem_of_bind.
  intros (iw1 & Hw & _). apply list_elem_of_bind in Hw as (jw2 & Hw & _).
  destruct (Nat.eqb _ _); [by apply elem_of_nil in Hw|].
  unfold pair_forms in Hw. destruct (_ || _); [by apply elem_of_nil in Hw|].
  apply list_elem_of_bind in Hw as (sep & Hw & Hsep%separator_in_alphabet).
  assert (Hcombo : in_alphabet (clean iw1.2 ++ sep ++ clean jw2.2) = true).
  { by rewrite !in_alphabet_app, !in_alphabet_clean, Hsep. }
  unfold combo_forms in Hw. rewrite !elem_of_app, !elem_of_cons, elem_of_nil in Hw.
  destruct Hw as [[-> | [-> | []]] | [Hw | Hw]].
  - done.
  - by apply in_alphabet_capitalize.
  - apply list_elem_of_fmap in Hw as (n & -> & Hn%elem_of_take_1%number_in_alphabet).
    by rewrite in_alphabet_app, Hcombo, Hn.
  - destruct include_years; [|by apply elem_of_nil in Hw].
    apply list_elem_of_fmap in Hw as (y & -> & Hy%elem_of_take_1%in_alphabet_year).
    by rewrite in_alphabet_app, Hcombo, Hy.
Qed.

Lemma in_alphabet_wordlist_set names dates pets interests
    include_years include_leet include_combinations w :
  w ∈ wordlist_set current_year enum names dates pets interests
        include_years include_leet include_combinations →
  in_alphabet w = true.
Proof.
  intros [(word & _ & H) | H]%(wordlist_set_cases _ _ Henum).
  - by eapply in_alphabet_variation.
  - by eapply in_alphabet_combination.
Qed.

End alphabet_facts.

(** ** Alphabet, seeds and direct calls *)

Lemma allowed_not_space (c : ascii) :
  chr_allowed c = true → chr_isspace c = false.
Proof. by_cases_on c. Qed.

Lemma in_alphabet_no_space (s : string) :
  in_alphabet s = true → str_any chr_isspace s = false.
Proof.
  unfold in_alphabet. induction s as [|c s IH]; [done|]. simpl.
  intros [Hc Hs]%andb_true_iff. by rewrite (allowed_not_space c Hc), IH.
Qed.

Lemma kept_app (l1 l2 : list string) :
  List.filter truthy (str_strip <$> (l1 ++ l2)%list)
  = (List.filter truthy (str_strip <$> l1)
     ++ List.filter truthy (str_strip <$> l2))%list.
Proof. by rewrite fmap_app, List.filter_app. Qed.

Lemma base_words_categories names dates pets interests :
  base_words_of (names ++ pets ++ interests)%list dates [] []
  = base_words_of names dates pets interests.
Proof.
  unfold base_words_of. rewrite !kept_app. simpl. by rewrite <- !app_assoc.
Qed.

Lemma kept_same_seed (l l' : list string) :
  Forall2 same_seed l l' →
  Forall2 same_word (List.filter truthy (str_strip <$> l))
                    (List.filter truthy (str_strip <$> l')).
Proof.
  induction 1 as [|a b l l' [Hc Ht] _ IH]; [constructor|].
  rewrite !fmap_cons. simpl List.filter. rewrite <- Ht.
  destruct (truthy (str_strip a)) eqn:Ha; [|exact IH].
  constructor; [|exact IH]. split.
  - by rewrite !clean_strip.
  - by rewrite Ha, Ht.
Qed.

Lemma same_word_refl (l : list string) : Forall2 same_word l l.
Proof. induction l; constructor; [split|]; done. Qed.

Lemma base_words_same_seed names names' dates pets pets' interests interests' :
  Forall2 same_seed names names' → Forall2 same_seed pets pets' →
  Forall2 same_seed interests interests' →
  Forall2 same_word (base_words_of names dates pets interests)
                    (base_words_of names' dates pets' interests').
Proof.
  intros Hn Hp Hi. unfold base_words_of.
  repeat apply Forall2_app; try by apply kept_same_seed.
  apply same_word_refl.
Qed.

Section same_words.
Context (current_year : Z) (enum : gset string → list string).

Lemma variations_same_word a b include_leet include_years :
  same_word a b →
  (if truthy a
   then _generate_word_variations current_year a include_leet include_years
   else ∅)
  = (if truthy b
     then _generate_word_variations current_year b include_leet include_years
     else ∅).
Proof. intros [Hc Ht]. unfold _generate_word_variations. by rewrite Hc, Ht. Qed.

Lemma all_combinations_subset ws ws' include_years :
  Forall2 same_word ws ws' →
  all_combinations current_year ws include_years
  ⊆ all_combinations current_year ws' include_years.
Proof.
  intros H w. rewrite !elem_of_all_combinations_iff.
  intros (i & j & w1 & w2 & sep & Hi & Hj & Hij & H1 & H2 & Hsep & Hw).
  destruct (Forall2_lookup_l _ _ _ _ _ H Hi) as (w1' & Hi' & [E1 _]).
  destruct (Forall2_lookup_l _ _ _ _ _ H Hj) as (w2' & Hj' & [E2 _]).
  exists i, j, w1', w2', sep. rewrite <- E1, <- E2. by repeat split.
Qed.

Lemma same_word_sym ws ws' : Forall2 same_word ws ws' → Forall2 same_word ws' ws.
Proof.
  intros H. apply Forall2_flip. eapply Forall2_impl; [exact H|].
  by intros a b [-> ->].
Qed.

Lemma all_combinations_same_word ws ws' include_years :
  Forall2 same_word ws ws' →
  all_combinations current_year ws include_years
  = all_combinations current_year ws' include_years.
Proof.
  intros H. apply leibniz_equiv, set_equiv_subseteq. split.
  - by apply all_combinations_subset.
  - by apply all_combinations_subset, same_word_sym.
Qed.

Lemma wordlist_set_same_seed names names' dates pets pets' interests interests'
    include_years include_leet include_combinations :
  Forall2 same_seed names names' → Forall2 same_seed pets pets' →
  Forall2 same_seed interests interests' →
  wordlist_set current_year enum names dates pets interests
    include_years include_leet include_combinations
  = wordlist_set current_year enum names' dates pets' interests'
      include_years include_leet include_combinations.
Proof.
  intros Hn Hp Hi.
  pose proof (base_words_same_seed names names' dates pets pets'
                interests interests' Hn Hp Hi) as Hb.
  unfold wordlist_set.
  set (ws := base_words_of names dates pets interests) in *.
  set (ws' := base_words_of names' dates pets' interests') in *.
  cbv zeta.
  assert (Hvar :
    ((λ word, if truthy word
              then _generate_word_variations current_year word include_leet include_years
              else ∅) <$> ws)
    = ((λ word, if truthy word
                then _generate_word_variations current_year word include_leet include_years
                else ∅) <$> ws')).
  { clear -Hb. induction Hb as [|a b l l' Hab _ IH]; [done|].
    rewrite !fmap_cons. f_equal; [by apply variations_same_word | exact IH]. }
  rewrite Hvar.
  assert (Hnil : bool_decide (ws = []) = bool_decide (ws' = [])).
  { destruct Hb; done. }
  rewrite Hnil.
  assert (Hcomb :
    _generate_combinations current_year enum (take 5 ws) include_leet include_years
    = _generate_combinations current_year enum (take 5 ws') include_leet include_years).
  { unfold _generate_combinations.
    rewrite (all_combinations_same_word (take 5 ws) (take 5 ws'))
      by (by apply Forall2_take).
    by rewrite (Forall2_length _ _ _ (Forall2_take _ _ _ 5 Hb)). }
  by rewrite Hcomb.
Qed.

End same_words.

Lemma word_score_None current_year word :
  word_score current_year word = None ↔ word = "".
Proof.
  split; [|by intros ->].
  destruct word as [|c r]; [done|]. by rewrite word_score_nonempty.
Qed.

Lemma sort_by_key_desc_perm {A} (key : A → Z) (l : list A) :
  sort_by_key_desc key l ≡ₚ l.
Proof. unfold sort_by_key_desc. apply stable_sort_perm. Qed.


(** X1: [generate_wordlist] never fails, whatever its arguments: it
    returns a list without repeated words, each of them a word of the
    aggregate. *)
Theorem generate_returns_distinct_words (current_year : Z)
    (enum : gset string → list string)
    (names dates pets interests : list string)
    (include_years include_leet include_combinations : bool) (max_words : Z) :
  valid_enum enum →
  ∃ res,
    generate_wordlist current_year enum names dates pets interests
      include_years include_leet include_combinations max_words = Some res
    ∧ NoDup res
    ∧ (∀ w, w ∈ res →
         w ∈ wordlist_set current_year enum names dates pets interests
               include_years include_leet include_combinations).
Proof.
  intros Henum.
  destruct (generate_wordlist current_year enum names dates pets interests
              include_years include_leet include_combinations max_words)
    as [res|] eqn:Hres.
  - exists res. split; [done|]. by eapply generate_sound.
  - by rewrite generate_result in Hres.
Qed.

Lemma generate_returns_distinct_words_witness :
  ∃ res,
    generate_wordlist 2026 elements ["max"] ["1990"] [] [] true true true (-3)
    = Some res
    ∧ NoDup res
    ∧ (∀ w, w ∈ res →
         w ∈ wordlist_set 2026 elements ["max"] ["1990"] [] [] true true true).
Proof.
  exact (generate_returns_distinct_words 2026 elements ["max"] ["1990"] [] []
           true true true (-3) valid_enum_elements).
Defined.

(** X2: a positive [max_words] is a ceiling: the returned list never has
    more than [max_words] words. *)
Theorem positive_ceiling_respected (current_year : Z)
    (enum : gset string → list string)
    (names dates pets interests : list string)
    (include_years include_leet include_combinations : bool) (max_words : Z) :
  valid_enum enum →
  0 < max_words →
  ∃ res,
    generate_wordlist current_year enum names dates pets interests
      include_years include_leet include_combinations max_words = Some res
    ∧ Z.of_nat (length res) ≤ max_words.
Proof.
  intros Henum Hpos. eexists. split; [by apply generate_result|].
  destruct (max_words <? _) eqn:Hlt.
  - replace (max_words =? 0) with false by lia. simpl.
    unfold slice_to. replace (0 <=? max_words) with true by lia.
    rewrite length_take. lia.
  - rewrite andb_false_r, final_length. lia.
Qed.

Lemma positive_ceiling_respected_witness :
  ∃ res,
    generate_wordlist 2026 elements ["max"] [] [] [] true true true 7 = Some res
    ∧ Z.of_nat (length res) ≤ 7.
Proof.
  apply (positive_ceiling_respected 2026 elements ["max"] [] [] []
           true true true 7 valid_enum_elements).
  lia.
Defined.

(** X3: a negative [max_words] is not rejected.  The words are ranked by
    score and the last [-max_words] of the ranking are dropped: the
    result has that many words fewer than the aggregate (none when the
    aggregate is smaller), and no dropped word scores higher than a
    returned one. *)
Theorem negative_ceiling_drops_tail (current_year : Z)
    (enum : gset string → list string)
    (names dates pets interests : list string)
    (include_years include_leet include_combinations : bool) (max_words : Z) :
  valid_enum enum →
  max_words < 0 →
  let wordlist := wordlist_set current_year enum names dates pets interests
                    include_years include_leet include_combinations in
  ∃ res,
    generate_wordlist current_year enum names dates pets interests
      include_years include_leet include_combinations max_words = Some res
    ∧ length res = (size wordlist - Z.to_nat (- max_words))%nat
    ∧ (∀ w w', w ∈ res → w' ∈ wordlist → w' ∉ res →
         score_of current_year w' ≤ score_of current_year w).
Proof.
  intros Henum Hneg wordlist. subst wordlist.
  eexists. split; [by apply generate_result|].
  set (wordlist := wordlist_set _ _ _ _ _ _ _ _ _).
  assert (Hlt : (max_words <? Z.of_nat (size wordlist)) = true)
    by (apply Z.ltb_lt; lia).
  assert (Hnz : (max_words =? 0) = false) by (apply Z.eqb_neq; lia).
  assert (Hle : (0 <=? max_words) = false) by (apply Z.leb_gt; lia).
  rewrite Hlt, Hnz. simpl. unfold slice_to. rewrite Hle.
  split.
  - subst wordlist. rewrite length_take, ranked_length. lia.
  - intros w w'. by apply ranked_prefix_best.
Qed.

Lemma negative_ceiling_drops_tail_witness :
  let wordlist := wordlist_set 2026 elements ["max"] [] [] [] false false false in
  ∃ res,
    generate_wordlist 2026 elements ["max"] [] [] [] false false false (-100)
    = Some res
    ∧ length res = (size wordlist - Z.to_nat (- (-100)))%nat
    ∧ (∀ w w', w ∈ res → w' ∈ wordlist → w' ∉ res →
         score_of 2026 w' ≤ score_of 2026 w).
Proof.
  apply (negative_ceiling_drops_tail 2026 elements ["max"] [] [] []
           false false false (-100) valid_enum_elements).
  lia.
Defined.

(** X4: when truncation applies, the returned list is no longer in
    lexicographic order: it is ordered by descending score, and words
    with the same score stay in lexicographic order. *)
Theorem truncated_result_is_ranked (current_year : Z)
    (enum : gset string → list string)
    (names dates pets interests : list string)
    (include_years include_leet include_combinations : bool) (max_words : Z)
    (res : list string) (a b : string) :
  valid_enum enum →
  max_words ≠ 0 →
  max_words < Z.of_nat (size (wordlist_set current_year enum names dates pets
                                interests include_years include_leet
                                include_combinations)) →
  generate_wordlist current_year enum names dates pets interests
    include_years include_leet include_combinations max_words = Some res →
  before a b res →
  score_of current_year b ≤ score_of current_year a
  ∧ (score_of current_year a = score_of current_year b → String.ltb a b = true).
Proof.
  intros Henum Hnz Hlt Hres Hab.
  rewrite (generate_result _ _ Henum) in Hres.
  replace (max_words =? 0) with false in Hres by lia.
  replace (max_words <? _) with true in Hres by lia.
  simpl in Hres. injection Hres as <-.
  destruct (slice_to_take max_words
              (sort_by_key_desc (score_of current_year)
                 (sorted (elements
                    (wordlist_set current_year enum names dates pets interests
                       include_years include_leet include_combinations)))))
    as (k & Hk & _).
  rewrite Hk in Hab. by eapply ranked_prefix_order.
Qed.

Lemma truncated_result_is_ranked_witness :
  score_of 2026 "Max01" ≤ score_of 2026 "Max001"
  ∧ (score_of 2026 "Max001" = score_of 2026 "Max01" →
     String.ltb "Max001" "Max01" = true).
Proof.
  apply (truncated_result_is_ranked 2026 elements ["max"] [] [] []
           false false false 5
           ["Max001"; "Max01"; "Max123"; "Max1"; "Max1234"]
           "Max001" "Max01" valid_enum_elements).
  - lia.
  - vm_compute. reflexivity.
  - vm_compute. reflexivity.
  - constructor. by left.
Defined.

(** X5: every returned word has at least two characters, and at least
    three when combinations are switched off. *)
Theorem returned_words_min_length (current_year : Z)
    (enum : gset string → list string)
    (names dates pets interests : list string)
    (include_years include_leet include_combinations : bool) (max_words : Z)
    (res : list string) (w : string) :
  valid_enum enum →
  generate_wordlist current_year enum names dates pets interests
    include_years include_leet include_combinations max_words = Some res →
  w ∈ res →
  (2 ≤ String.length w)%nat
  ∧ (include_combinations = false → (3 ≤ String.length w)%nat).
Proof.
  intros Henum Hres Hw.
  apply (generate_sound _ _ Henum) in Hres as [_ Hsub]. apply Hsub in Hw.
  split; [by eapply wordlist_set_min_length|].
  intros Hoff. apply wordlist_set_no_combinations in Hw as (word & _ & Hw); [|done].
  by eapply variations_min_length.
Qed.

Lemma returned_words_min_length_witness :
  (2 ≤ String.length "X001")%nat
  ∧ (false = false → (3 ≤ String.length "X001")%nat).
Proof.
  apply (returned_words_min_length 2026 elements ["x"] [] [] []
           false false false 3 ["X001"; "x001"; "iX001"] "X001"
           valid_enum_elements).
  - vm_compute. reflexivity.
  - by left.
Defined.

(** X6: on ASCII input and for a non-negative [max_words], the result is
    empty exactly when no name, pet or interest has a word character (a
    letter, a digit or an underscore) and the dates yield no fragment. *)
Theorem empty_result_iff (current_year : Z)
    (enum : gset string → list string)
    (names dates pets interests : list string)
    (include_years include_leet include_combinations : bool) (max_words : Z) :
  valid_enum enum →
  ascii_text (names ++ dates ++ pets ++ interests)%list →
  0 ≤ max_words →
  generate_wordlist current_year enum names dates pets interests
    include_years include_leet include_combinations max_words = Some []
  ↔ (∀ s, s ∈ (names ++ pets ++ interests)%list → str_any chr_isword s = false)
    ∧ _process_dates dates = [].
Proof.
  intros Henum _ Hmw. rewrite (generate_empty_iff _ _ Henum) by done. split.
  - intros Hempty. split.
    + intros s Hs. apply clean_empty_iff.
      destruct (decide (clean s = "")) as [|Hc]; [done|]. exfalso.
      pose proof (aggregate_inhabited current_year enum names dates pets interests
                    include_years include_leet include_combinations (str_strip s)
                    (seed_is_base_word _ _ _ _ _ Hs Hc)) as Hin.
      rewrite clean_strip, Hempty in Hin. by apply elem_of_empty in Hin.
    + destruct (_process_dates dates) as [|word rest] eqn:Hd; [done|]. exfalso.
      assert (Hword : word ∈ _process_dates dates) by (rewrite Hd; by left).
      assert (Hbase : word ∈ base_words_of names dates pets interests)
        by (apply elem_of_base_words; by right).
      pose proof (aggregate_inhabited current_year enum names dates pets interests
                    include_years include_leet include_combinations word Hbase
                    (date_fragment_clean_nonempty dates word Hword)) as Hin.
      rewrite Hempty in Hin. by apply elem_of_empty in Hin.
  - intros [Hseeds Hdates]. apply (aggregate_empty _ _ Henum).
    intros word [(s & Hs & -> & _) | Hw]%elem_of_base_words.
    + rewrite clean_strip. by apply clean_empty_iff, Hseeds.
    + rewrite Hdates in Hw. by apply elem_of_nil in Hw.
Qed.

Lemma empty_result_iff_witness :
  generate_wordlist 2026 elements [" "; "?!"] ["soon"] [] ["--"]
    true true true 10000 = Some []
  ↔ (∀ s, s ∈ ([" "; "?!"] ++ [] ++ ["--"])%list → str_any chr_isword s = false)
    ∧ _process_dates ["soon"] = [].
Proof.
  apply (empty_result_iff 2026 elements [" "; "?!"] ["soon"] [] ["--"]
           true true true 10000 valid_enum_elements).
  - repeat constructor.
  - lia.
Defined.

(** X7: on ASCII input, when no truncation takes place, every form of a
    seed whose cleaned form [c] has at least three characters is
    returned: [c]
    itself, capitalized and upper-cased, with every prefix and suffix of
    the tables, with every common number before and after, and, if years
    are switched on, with every year of the window. *)
Theorem seed_forms_returned (current_year : Z)
    (enum : gset string → list string)
    (names dates pets interests : list string)
    (include_years include_leet include_combinations : bool) (max_words : Z)
    (seed : string) :
  valid_enum enum →
  ascii_text (names ++ dates ++ pets ++ interests)%list →
  seed ∈ (names ++ pets ++ interests)%list →
  (3 ≤ String.length (clean seed))%nat →
  max_words = 0
  ∨ Z.of_nat (size (wordlist_set current_year enum names dates pets interests
                      include_years include_leet include_combinations))
    ≤ max_words →
  ∃ res,
    generate_wordlist current_year enum names dates pets interests
      include_years include_leet include_combinations max_words = Some res
    ∧ clean seed ∈ res
    ∧ str_capitalize (clean seed) ∈ res
    ∧ str_upper (clean seed) ∈ res
    ∧ (∀ p s, p ∈ prefixes → s ∈ suffixes →
         (p ++ clean seed ++ s)%string ∈ res
         ∧ (p ++ str_capitalize (clean seed) ++ s)%string ∈ res)
    ∧ (∀ n, n ∈ common_numbers →
         (clean seed ++ n)%string ∈ res
         ∧ (str_capitalize (clean seed) ++ n)%string ∈ res
         ∧ (n ++ clean seed)%string ∈ res)
    ∧ (include_years = true → ∀ y, y ∈ years current_year →
         (clean seed ++ y)%string ∈ res
         ∧ (str_capitalize (clean seed) ++ y)%string ∈ res).
Proof.
  intros Henum _ Hseed Hlen Hmw.
  set (c := clean seed) in *.
  assert (Hc : c ≠ "") by (intros E; rewrite E in Hlen; simpl in Hlen; lia).
  eexists. split; [by apply generate_untruncated|].
  assert (Hin : ∀ w,
    w ∈ plain_forms current_year c include_years → (3 ≤ String.length w)%nat →
    w ∈ sorted (elements
          (wordlist_set current_year enum names dates pets interests
             include_years include_leet include_combinations))).
  { intros w Hw Hl. apply elem_of_final.
    apply (elem_of_wordlist_set_variation current_year enum names dates pets
             interests include_years include_leet include_combinations
             (str_strip seed)); [by apply seed_is_base_word|].
    apply plain_forms_in_variations; rewrite ?clean_strip; done. }
  assert (Hcap : String.length (str_capitalize c) = String.length c)
    by apply str_length_capitalize.
  split; [|split; [|split; [|split; [|split]]]].
  - apply Hin; [|done]. apply elem_of_plain_forms. tauto.
  - apply Hin; [|lia]. apply elem_of_plain_forms. tauto.
  - apply Hin; [|unfold str_upper; rewrite str_length_map; lia].
    apply elem_of_plain_forms. tauto.
  - intros p s Hp Hs.
    destruct (truthy p || truthy s) eqn:Ht.
    + split; (apply Hin; [|rewrite !str_length_app; lia]);
        apply elem_of_plain_forms; right; left; apply elem_of_affix_forms;
        exists p, s; tauto.
    + apply orb_false_iff in Ht as [Hp0 Hs0].
      destruct p; [|done]. destruct s; [|done].
      rewrite !str_app_nil_r, !str_app_nil_l.
      split; (apply Hin; [|lia]); apply elem_of_plain_forms; tauto.
  - intros n Hn.
    repeat split; (apply Hin; [|rewrite !str_length_app; lia]);
      apply elem_of_plain_forms; do 2 right; left; apply elem_of_number_forms;
      exists n; tauto.
  - intros -> y Hy.
    split; (apply Hin; [|rewrite !str_length_app; lia]);
      apply elem_of_plain_forms; do 3 right; (split; [done|]);
      apply elem_of_year_forms; exists y; tauto.
Qed.

Lemma seed_forms_returned_witness :
  ∃ res,
    generate_wordlist 2026 elements ["Max"] [] [] [] true true true 0 = Some res
    ∧ clean "Max" ∈ res
    ∧ str_capitalize (clean "Max") ∈ res
    ∧ str_upper (clean "Max") ∈ res
    ∧ (∀ p s, p ∈ prefixes → s ∈ suffixes →
         (p ++ clean "Max" ++ s)%string ∈ res
         ∧ (p ++ str_capitalize (clean "Max") ++ s)%string ∈ res)
    ∧ (∀ n, n ∈ common_numbers →
         (clean "Max" ++ n)%string ∈ res
         ∧ (str_capitalize (clean "Max") ++ n)%string ∈ res
         ∧ (n ++ clean "Max")%string ∈ res)
    ∧ (true = true → ∀ y, y ∈ years 2026 →
         (clean "Max" ++ y)%string ∈ res
         ∧ (str_capitalize (clean "Max") ++ y)%string ∈ res).
Proof.
  apply (seed_forms_returned 2026 elements ["Max"] [] [] [] true true true 0
           "Max" valid_enum_elements).
  - repeat constructor.
  - by left.
  - simpl. lia.
  - by left.
Defined.

(** X8: on ASCII input and with leetspeak switched off, every returned
    word contains the cleaned form of one of the base words, in lower
    case or capitalized or in upper case, as a substring. *)
Theorem leet_off_keeps_seed_text (current_year : Z)
    (enum : gset string → list string)
    (names dates pets interests : list string)
    (include_years include_combinations : bool) (max_words : Z)
    (res : list string) (w : string) :
  valid_enum enum →
  ascii_text (names ++ dates ++ pets ++ interests)%list →
  generate_wordlist current_year enum names dates pets interests
    include_years false include_combinations max_words = Some res →
  w ∈ res →
  ∃ word core,
    word ∈ base_words_of names dates pets interests
    ∧ core ∈ [clean word; str_capitalize (clean word); str_upper (clean word)]
    ∧ str_contains core w = true.
Proof.
  intros Henum _ Hres Hw.
  apply (generate_sound _ _ Henum) in Hres as [_ Hsub]. apply Hsub in Hw.
  apply (wordlist_set_cases _ _ Henum) in Hw as [(word & Hword & Hw) | Hw].
  - apply variations_in_plain_forms, plain_form_contains_seed in Hw
      as (core & p & s & Hcore & ->).
    exists word, core. split; [done|]. split; [done|].
    apply str_contains_spec. by exists p, s.
  - apply elem_of_all_combinations_iff in Hw
      as (i & j & word1 & word2 & sep & Hi & _ & _ & H1 & _ & _ & Hw).
    apply combo_form_contains_first in Hw as (core & s & Hcore & ->); [|done].
    exists word1, core. split; [|split].
    + eapply elem_of_take_1, list_elem_of_lookup_2, Hi.
    + rewrite !elem_of_cons in *. tauto.
    + apply str_contains_spec. by exists "", s.
Qed.

Lemma leet_off_keeps_seed_text_witness :
  ∃ word core,
    word ∈ base_words_of ["x"] [] [] []
    ∧ core ∈ [clean word; str_capitalize (clean word); str_upper (clean word)]
    ∧ str_contains core "iX001" = true.
Proof.
  apply (leet_off_keeps_seed_text 2026 elements ["x"] [] [] []
           false false 3 ["X001"; "x001"; "iX001"] "iX001" valid_enum_elements).
  - repeat constructor.
  - vm_compute. reflexivity.
  - do 2 right. by left.
Defined.

(** X9: a leetspeak form of an ASCII token has as many characters as the
    token, so that every leetspeak form of an ASCII seed whose cleaned
    form has at least three characters passes the length filter of the
    expander. *)
Theorem leet_forms_keep_length (current_year : Z) (word v : string)
    (include_years : bool) :
  str_isascii word = true →
  v ∈ _generate_leet_variations (clean word) →
  String.length v = String.length (clean word)
  ∧ ((3 ≤ String.length (clean word))%nat →
     v ∈ _generate_word_variations current_year word true include_years).
Proof.
  intros _ Hv. pose proof (leet_form_length _ _ Hv) as Hlen. split; [done|].
  intros H3. unfold _generate_word_variations.
  destruct (clean word) as [|c r] eqn:Hc; [simpl in H3; lia|]. simpl str_empty.
  cbv iota. apply elem_of_filter. split; [lia|].
  unfold raw_variations. apply elem_of_union. by right.
Qed.

Lemma leet_forms_keep_length_witness :
  String.length "6ob" = String.length (clean "Bob")
  ∧ ((3 ≤ String.length (clean "Bob"))%nat →
     "6ob" ∈ _generate_word_variations 2026 "Bob" true false).
Proof.
  apply (leet_forms_keep_length 2026 "Bob" "6ob" false).
  - reflexivity.
  - by vm_compute.
Defined.

(** X10: the leetspeak expander emits nothing exactly when the
    lower-cased token has none of the letters of the substitution table;
    a token of digits only, such as a date fragment, has no leetspeak
    form, and a token with such a letter always has one. *)
Theorem leet_nothing_iff_no_leet_letter (word : string) :
  _generate_leet_variations word = ∅
  ↔ str_any is_leet_letter (str_lower word) = false.
Proof.
  split.
  - intros Hempty.
    destruct (str_any is_leet_letter (str_lower word)) eqn:Hany; [|done]. exfalso.
    assert (∃ v, v ∈ _generate_leet_variations word) as [v Hv];
      [|rewrite Hempty in Hv; by apply elem_of_empty in Hv].
    unfold _generate_leet_variations. destruct (Nat.leb _ 6).
    + destruct (product_differs _ Hany) as (comb & Hcomb & Hne).
      exists (str_join comb). apply elem_of_list_to_set, list_elem_of_bind.
      exists comb. split; [by apply leet_emit_nonempty | done].
    + destruct (leet_letter_present _ Hany) as (a & Ha & Hin).
      destruct (leet_letter_entry a Ha) as (sub & subs & Hentry).
      destruct (table_entry_spec _ sub Hentry) as [Hne _]; [by left|].
      exists (str_replace a sub (str_lower word)).
      apply elem_of_list_to_set, list_elem_of_bind. exists (a, sub :: subs).
      split; [|done]. apply list_elem_of_bind. exists sub. split; [|by left].
      apply leet_emit_nonempty. by apply replace_present.
  - intros Hnone. apply elem_of_equiv_empty_L. intros v.
    unfold _generate_leet_variations.
    destruct (Nat.leb _ 6); rewrite elem_of_list_to_set, list_elem_of_bind.
    + intros (comb & Hv & Hcomb%elem_of_product).
      rewrite (product_plain comb _ Hnone Hcomb) in Hv.
      unfold leet_emit in Hv. rewrite String.eqb_refl in Hv.
      by apply elem_of_nil in Hv.
    + intros (entry & Hv & Hentry). apply list_elem_of_bind in Hv as (sub & Hv & _).
      destruct (table_keys_are_letters _ Hentry) as [Hkey _].
      rewrite (replace_absent _ _ _ (no_leet_letter_absent _ _ Hkey Hnone)) in Hv.
      unfold leet_emit in Hv. rewrite String.eqb_refl in Hv.
      by apply elem_of_nil in Hv.
Qed.


(** X11: the aggregate is bounded by the number of base words alone: at
    most 1693 variations for each base word (235 plain forms and at most
    1458 leetspeak forms) and at most 1000 combinations, whatever the
    order in which sets are iterated. *)
Theorem aggregate_size_bound (current_year : Z)
    (enum : gset string → list string)
    (names dates pets interests : list string)
    (include_years include_leet include_combinations : bool) :
  (size (wordlist_set current_year enum names dates pets interests
           include_years include_leet include_combinations)
   ≤ 1693 * length (base_words_of names dates pets interests) + 1000)%nat.
Proof.
  etrans; [apply wordlist_set_size|]. apply Nat.add_le_mono_r.
  apply variations_bound_sum.
Qed.

(** X12: with at most five base words the default ceiling of 10000 is
    never reached: the call returns the whole aggregate in lexicographic
    order. *)
Theorem default_ceiling_not_reached (current_year : Z)
    (enum : gset string → list string)
    (names dates pets interests : list string)
    (include_years include_leet include_combinations : bool) :
  valid_enum enum →
  (length (base_words_of names dates pets interests) ≤ 5)%nat →
  ∃ res,
    generate_wordlist current_year enum names dates pets interests
      include_years include_leet include_combinations 10000 = Some res
    ∧ StronglySorted (λ a b, String.ltb a b = true) res
    ∧ (∀ w, w ∈ res
         ↔ w ∈ wordlist_set current_year enum names dates pets interests
                 include_years include_leet include_combinations).
Proof.
  intros Henum Hfew. eexists. split; [|split].
  - apply generate_untruncated; [done|]. right.
    pose proof (wordlist_set_size current_year enum names dates pets interests
                  include_years include_leet include_combinations) as Hsize.
    pose proof (variations_bound_sum
                  (base_words_of names dates pets interests)).
    lia.
  - apply sorted_strict, NoDup_elements.
  - intros w. by rewrite sorted_perm, elem_of_elements.
Qed.

Lemma default_ceiling_not_reached_witness :
  ∃ res,
    generate_wordlist 2026 elements ["john"; "smith"] ["1990"] ["rex"] []
      true true true 10000 = Some res
    ∧ StronglySorted (λ a b, String.ltb a b = true) res
    ∧ (∀ w, w ∈ res
         ↔ w ∈ wordlist_set 2026 elements ["john"; "smith"] ["1990"] ["rex"] []
                 true true true).
Proof.
  apply (default_ceiling_not_reached 2026 elements
           ["john"; "smith"] ["1990"] ["rex"] [] true true true
           valid_enum_elements).
  vm_compute. lia.
Defined.

(** X13: the combiner returns exactly [min(1000, n)] of the [n]
    combinations it builds from two or more words, all of them among
    those it built. *)
Theorem combinations_cap (current_year : Z) (enum : gset string → list string)
    (words : list string) (include_leet include_years : bool) :
  valid_enum enum →
  (2 ≤ length words)%nat →
  size (_generate_combinations current_year enum words include_leet include_years)
  = Nat.min 1000 (size (all_combinations current_year words include_years))
  ∧ _generate_combinations current_year enum words include_leet include_years
    ⊆ all_combinations current_year words include_years.
Proof.
  intros Henum Hlen. split.
  - unfold _generate_combinations.
    replace (Nat.ltb (length words) 2) with false
      by (symmetry; apply Nat.ltb_ge; lia).
    rewrite size_list_to_set by (apply NoDup_take_1; by apply enum_NoDup).
    by rewrite length_take, enum_length.
  - intros w. by apply combinations_subset.
Qed.

Lemma combinations_cap_witness :
  size (_generate_combinations 2026 elements ["a"; "b"] true false)
  = Nat.min 1000 (size (all_combinations 2026 ["a"; "b"] false))
  ∧ _generate_combinations 2026 elements ["a"; "b"] true false
    ⊆ all_combinations 2026 ["a"; "b"] false.
Proof.
  apply (combinations_cap 2026 elements ["a"; "b"] true false valid_enum_elements).
  simpl. lia.
Defined.

(** X24: a token of more than six characters takes the simple branch of
    the leetspeak expander, which emits at most 24 forms: one and its
    capitalization for each of the twelve substitutions. *)
Theorem long_token_leet_bound (word : string) :
  (6 < String.length word)%nat →
  (size (_generate_leet_variations word) ≤ 24)%nat.
Proof.
  intros Hlen. unfold _generate_leet_variations.
  rewrite length_fmap, length_chars. unfold str_lower at 1.
  rewrite str_length_map.
  replace (Nat.leb (String.length word) 6) with false
    by (symmetry; apply Nat.leb_gt; lia).
  etrans; [apply size_list_to_set_le|].
  unfold leet_substitutions. csimpl.
  rewrite !length_app.
  repeat match goal with
  | |- context [length (leet_emit ?a ?b)] =>
      let H := fresh in
      pose proof (leet_emit_length_le a b) as H;
      generalize dependent (length (leet_emit a b)); intros
  end.
  simpl length. lia.
Qed.

Lemma long_token_leet_bound_witness :
  (size (_generate_leet_variations "football") ≤ 24)%nat.
Proof. apply (long_token_leet_bound "football"). simpl. lia. Defined.

(** X14: the fragments [_process_dates] returns are exactly what the
    patterns capture, the final [isdigit] filter removing nothing; each
    fragment has one, two or four characters and is a substring of one
    of the dates given. *)
Theorem date_fragments_are_short_runs (dates : list string) :
  _process_dates dates = dates ≫= date_fragments
  ∧ ∀ w, w ∈ _process_dates dates →
      (String.length w = 1 ∨ String.length w = 2 ∨ String.length w = 4)%nat
      ∧ ∃ date_str, date_str ∈ dates ∧ str_contains w date_str = true.
Proof.
  split; [apply process_dates_unfiltered|].
  intros w. rewrite process_dates_unfiltered.
  intros (d & Hw & Hd)%list_elem_of_bind.
  destruct (date_fragment_spec d w Hw) as (_ & Hlen & Hc).
  split; [done|]. by exists d.
Qed.

(** X15: a date that is a bare year, four digits and nothing else,
    contributes that year once: only the first pattern matches it. *)
Theorem bare_year_is_kept (y : string) :
  String.length y = 4%nat → str_all chr_isdigit y = true →
  _process_dates [y] = [y].
Proof.
  intros Hlen Hall. rewrite process_dates_unfiltered.
  change ([y] ≫= date_fragments) with (date_fragments y ++ [])%list.
  rewrite app_nil_r. unfold date_fragments.
  rewrite (str_strip_no_space y (digits_no_space y Hall)).
  destruct y as [|a [|b [|c [|d [|e r]]]]]; try done.
  simpl in Hall. rewrite !andb_true_iff in Hall.
  destruct Hall as (Ha & Hb & Hc & Hd & _).
  destruct (digit_not_separator a Ha) as (Ha1 & Ha2 & Ha3).
  destruct (digit_not_separator b Hb) as (Hb1 & Hb2 & Hb3).
  destruct (digit_not_separator c Hc) as (Hc1 & Hc2 & Hc3).
  destruct (digit_not_separator d Hd) as (Hd1 & Hd2 & Hd3).
  simpl truthy. cbv iota. unfold date_formats, findall.
  repeat (progress (cbn -[Ascii.eqb chr_isdigit];
    rewrite ?Ha, ?Hb, ?Hc, ?Hd, ?Ha1, ?Ha2, ?Ha3, ?Hb1, ?Hb2, ?Hb3,
      ?Hc1, ?Hc2, ?Hc3, ?Hd1, ?Hd2, ?Hd3)).
  reflexivity.
Qed.

Lemma bare_year_is_kept_witness : _process_dates ["1990"] = ["1990"].
Proof. apply (bare_year_is_kept "1990"); reflexivity. Defined.

(** X16: for a non-empty list the record gives the least and the
    greatest word length: every word lies between [min_length] and
    [max_length], and each of the two is the length of some word. *)
Theorem stats_length_range (wordlist : list string) :
  wordlist ≠ [] →
  ∃ lo hi,
    get_wordlist_stats wordlist !! "min_length" = Some (StatInt lo)
    ∧ get_wordlist_stats wordlist !! "max_length" = Some (StatInt hi)
    ∧ (∀ w, w ∈ wordlist → lo ≤ Z.of_nat (String.length w) ≤ hi)
    ∧ (∃ w, w ∈ wordlist ∧ Z.of_nat (String.length w) = lo)
    ∧ (∃ w, w ∈ wordlist ∧ Z.of_nat (String.length w) = hi).
Proof.
  intros Hne. destruct wordlist as [|first rest]; [done|].
  set (len := λ word : string, Z.of_nat (String.length word)).
  exists (foldr Z.min (len first) (len <$> first :: rest)),
         (foldr Z.max (len first) (len <$> first :: rest)).
  split; [reflexivity|]. split; [reflexivity|].
  destruct (foldr_min_spec (len first) (len <$> first :: rest)) as [Hmin Hmin'].
  destruct (foldr_max_spec (len first) (len <$> first :: rest)) as [Hmax Hmax'].
  assert (Hmem : ∀ x, x ∈ len first :: (len <$> first :: rest) →
            ∃ w, w ∈ first :: rest ∧ len w = x).
  { intros x [-> | (w & -> & Hw)%list_elem_of_fmap]%elem_of_cons.
    - exists first. split; [left|done].
    - by exists w. }
  split; [|split; [by apply Hmem | by apply Hmem]].
  intros w Hw.
  assert (len w ∈ len first :: (len <$> first :: rest)).
  { right. apply list_elem_of_fmap. by exists w. }
  split; [by apply Hmin | by apply Hmax].
Qed.

Lemma stats_length_range_witness :
  ∃ lo hi,
    get_wordlist_stats ["ab"; "abcd"; "abc"] !! "min_length" = Some (StatInt lo)
    ∧ get_wordlist_stats ["ab"; "abcd"; "abc"] !! "max_length" = Some (StatInt hi)
    ∧ (∀ w, w ∈ ["ab"; "abcd"; "abc"] → lo ≤ Z.of_nat (String.length w) ≤ hi)
    ∧ (∃ w, w ∈ ["ab"; "abcd"; "abc"] ∧ Z.of_nat (String.length w) = lo)
    ∧ (∃ w, w ∈ ["ab"; "abcd"; "abc"] ∧ Z.of_nat (String.length w) = hi).
Proof. apply (stats_length_range ["ab"; "abcd"; "abc"]). discriminate. Defined.

(** X17: for a non-empty list [total_words] is the number of entries and
    [unique_words] the number of distinct ones: at least one, at most
    [total_words], and equal to it exactly when no word is repeated. *)
Theorem stats_counts (wordlist : list string) :
  wordlist ≠ [] →
  ∃ unique,
    get_wordlist_stats wordlist !! "total_words"
      = Some (StatInt (Z.of_nat (length wordlist)))
    ∧ get_wordlist_stats wordlist !! "unique_words" = Some (StatInt unique)
    ∧ 1 ≤ unique ≤ Z.of_nat (length wordlist)
    ∧ (unique = Z.of_nat (length wordlist) ↔ NoDup wordlist).
Proof.
  intros Hne. destruct wordlist as [|first rest]; [done|].
  exists (Z.of_nat (size (list_to_set (first :: rest) : gset string))).
  split; [reflexivity|]. split; [reflexivity|].
  pose proof (size_list_to_set_le (first :: rest)) as Hle.
  assert (size (list_to_set (first :: rest) : gset string) ≠ 0%nat) as Hpos.
  { intros H0. apply size_empty_inv in H0.
    assert (first ∈ (list_to_set (first :: rest) : gset string)) as Hin
      by (apply elem_of_list_to_set; left).
    rewrite H0 in Hin. by apply elem_of_empty in Hin. }
  split; [lia|]. rewrite <- size_list_to_set_NoDup. lia.
Qed.

Lemma stats_counts_witness :
  ∃ unique,
    get_wordlist_stats ["ab"; "cd"; "ab"] !! "total_words"
      = Some (StatInt (Z.of_nat (length ["ab"; "cd"; "ab"])))
    ∧ get_wordlist_stats ["ab"; "cd"; "ab"] !! "unique_words" = Some (StatInt unique)
    ∧ 1 ≤ unique ≤ Z.of_nat (length ["ab"; "cd"; "ab"])
    ∧ (unique = Z.of_nat (length ["ab"; "cd"; "ab"]) ↔ NoDup ["ab"; "cd"; "ab"]).
Proof. apply (stats_counts ["ab"; "cd"; "ab"]). discriminate. Defined.

(** X18: for ASCII words the distribution has exactly the five keys, and
    each counter is the number of words of its class: only lower-case
    letters among the cased ones, only upper-case ones, both, some
    digit, some character that is neither a letter nor a digit. *)
Theorem charset_counters (wordlist : list string) :
  ascii_text wordlist →
  let d := _analyze_charset_distribution wordlist in
  dom d = charset_keys
  ∧ d !! "lowercase_only" = Some (count_where lowercase_only wordlist)
  ∧ d !! "uppercase_only" = Some (count_where uppercase_only wordlist)
  ∧ d !! "mixed_case" = Some (count_where mixed_case wordlist)
  ∧ d !! "with_numbers" = Some (count_where with_numbers wordlist)
  ∧ d !! "with_symbols" = Some (count_where with_symbols wordlist).
Proof.
  intros _.
  destruct (analyze_lookup wordlist) as (Hdom & H1 & H2 & H3 & H4 & H5).
  cbv zeta. split; [done|].
  rewrite <- H1, <- H2, <- H3, <- H4, <- H5.
  repeat split; apply charset_key_lookup; try done;
    by apply (bool_decide_unpack _).
Qed.

Lemma charset_counters_witness :
  let d := _analyze_charset_distribution ["john"; "JOHN"; "John1"; "1990!"] in
  dom d = charset_keys
  ∧ d !! "lowercase_only"
    = Some (count_where lowercase_only ["john"; "JOHN"; "John1"; "1990!"])
  ∧ d !! "uppercase_only"
    = Some (count_where uppercase_only ["john"; "JOHN"; "John1"; "1990!"])
  ∧ d !! "mixed_case"
    = Some (count_where mixed_case ["john"; "JOHN"; "John1"; "1990!"])
  ∧ d !! "with_numbers"
    = Some (count_where with_numbers ["john"; "JOHN"; "John1"; "1990!"])
  ∧ d !! "with_symbols"
    = Some (count_where with_symbols ["john"; "JOHN"; "John1"; "1990!"]).
Proof.
  apply (charset_counters ["john"; "JOHN"; "John1"; "1990!"]).
  repeat constructor.
Defined.

(** X19: for ASCII words the three case classes are disjoint: their
    counters add up to the number of words with a cased letter, words of
    digits and symbols only being counted in none; no counter exceeds
    the number of words. *)
Theorem case_classes_are_disjoint (wordlist : list string) :
  ascii_text wordlist →
  let d := _analyze_charset_distribution wordlist in
  d !!! "lowercase_only" + d !!! "uppercase_only" + d !!! "mixed_case"
  = count_where has_cased wordlist
  ∧ d !!! "lowercase_only" + d !!! "uppercase_only" + d !!! "mixed_case"
    ≤ Z.of_nat (length wordlist)
  ∧ 0 ≤ d !!! "with_numbers" ≤ Z.of_nat (length wordlist)
  ∧ 0 ≤ d !!! "with_symbols" ≤ Z.of_nat (length wordlist).
Proof.
  intros _.
  destruct (analyze_lookup wordlist) as (_ & H1 & H2 & H3 & H4 & H5).
  cbv zeta. rewrite H1, H2, H3, H4, H5.
  destruct (case_classes_partition wordlist) as [Hp Hb].
  assert (Hle : ∀ P, 0 ≤ count_where P wordlist ≤ Z.of_nat (length wordlist)).
  { intros P. unfold count_where. pose proof (length_filter P wordlist). 
    split; [lia|]. apply inj_le. apply List.filter_length_le. }
  split; [done|]. split; [lia|]. split; apply Hle.
Qed.

Lemma case_classes_are_disjoint_witness :
  let d := _analyze_charset_distribution ["john"; "JOHN"; "John1"; "1990!"] in
  d !!! "lowercase_only" + d !!! "uppercase_only" + d !!! "mixed_case"
  = count_where has_cased ["john"; "JOHN"; "John1"; "1990!"]
  ∧ d !!! "lowercase_only" + d !!! "uppercase_only" + d !!! "mixed_case"
    ≤ Z.of_nat (length ["john"; "JOHN"; "John1"; "1990!"])
  ∧ 0 ≤ d !!! "with_numbers" ≤ Z.of_nat (length ["john"; "JOHN"; "John1"; "1990!"])
  ∧ 0 ≤ d !!! "with_symbols" ≤ Z.of_nat (length ["john"; "JOHN"; "John1"; "1990!"]).
Proof.
  apply (case_classes_are_disjoint ["john"; "JOHN"; "John1"; "1990!"]).
  repeat constructor.
Defined.

(** X20: the statistics of a generated word list: [unique_words] equals
    [total_words], the list having no repetition, and [min_length] is at
    least two. *)
Theorem generated_wordlist_stats (current_year : Z)
    (enum : gset string → list string)
    (names dates pets interests : list string)
    (include_years include_leet include_combinations : bool) (max_words : Z)
    (res : list string) :
  valid_enum enum →
  generate_wordlist current_year enum names dates pets interests
    include_years include_leet include_combinations max_words = Some res →
  res ≠ [] →
  get_wordlist_stats res !! "total_words" = Some (StatInt (Z.of_nat (length res)))
  ∧ get_wordlist_stats res !! "unique_words"
    = Some (StatInt (Z.of_nat (length res)))
  ∧ ∃ lo, get_wordlist_stats res !! "min_length" = Some (StatInt lo) ∧ 2 ≤ lo.
Proof.
  intros Henum Hres Hne.
  apply (generate_sound _ _ Henum) in Hres as [Hnd Hsub].
  destruct res as [|first rest]; [done|].
  split; [reflexivity|]. split.
  - replace (length (first :: rest))
      with (size (list_to_set (first :: rest) : gset string))
      by (by apply size_list_to_set).
    reflexivity.
  - set (len := λ word : string, Z.of_nat (String.length word)).
    exists (foldr Z.min (len first) (len <$> first :: rest)).
    split; [reflexivity|].
    destruct (foldr_min_spec (len first) (len <$> first :: rest)) as [_ Hin].
    assert (∃ w, w ∈ first :: rest
              ∧ len w = foldr Z.min (len first) (len <$> first :: rest))
      as (w & Hw & <-).
    { apply elem_of_cons in Hin as [-> | (w & -> & Hw)%list_elem_of_fmap].
      - exists first. split; [left|done].
      - by exists w. }
    apply Hsub in Hw. unfold len.
    pose proof (wordlist_set_min_length _ _ Henum _ _ _ _ _ _ _ _ Hw). lia.
Qed.

Lemma generated_wordlist_stats_witness :
  get_wordlist_stats ["X001"; "x001"; "iX001"] !! "total_words"
    = Some (StatInt (Z.of_nat (length ["X001"; "x001"; "iX001"])))
  ∧ get_wordlist_stats ["X001"; "x001"; "iX001"] !! "unique_words"
    = Some (StatInt (Z.of_nat (length ["X001"; "x001"; "iX001"])))
  ∧ ∃ lo, get_wordlist_stats ["X001"; "x001"; "iX001"] !! "min_length"
            = Some (StatInt lo) ∧ 2 ≤ lo.
Proof.
  apply (generated_wordlist_stats 2026 elements ["x"] [] [] []
           false false false 3 ["X001"; "x001"; "iX001"] valid_enum_elements).
  - vm_compute. reflexivity.
  - discriminate.
Defined.

(** X21: when the export returns [True], the file holds one line for
    each word, in order: reading its lines back gives the word list,
    provided no word contains a newline; every other file is left as it
    was. *)
Theorem export_round_trip (writable : string → bool) (fs fs' : gmap string string)
    (wordlist : list string) (filename : string) :
  export_wordlist writable fs wordlist filename = (true, fs') →
  Forall (λ w, no_newline w = true) wordlist →
  ∃ text,
    fs' !! filename = Some text
    ∧ lines text = wordlist
    ∧ (∀ other, other ≠ filename → fs' !! other = fs !! other).
Proof.
  unfold export_wordlist. destruct (writable filename); [|discriminate].
  cbv zeta. intros Hexp Hnl. apply (inj2 pair) in Hexp as [_ <-].
  eexists. split; [apply lookup_insert_eq|].
  split; [by apply export_content|].
  intros other Hne. by apply lookup_insert_ne.
Qed.

Lemma export_round_trip_witness :
  ∃ text,
    (export_wordlist (λ _, true) ∅ ["john"; "John1"] "out.txt").2 !! "out.txt"
      = Some text
    ∧ lines text = ["john"; "John1"]
    ∧ (∀ other, other ≠ "out.txt" →
         (export_wordlist (λ _, true) ∅ ["john"; "John1"] "out.txt").2 !! other
         = (∅ : gmap string string) !! other).
Proof.
  apply (export_round_trip (λ _, true) ∅
           (export_wordlist (λ _, true) ∅ ["john"; "John1"] "out.txt").2
           ["john"; "John1"] "out.txt").
  - reflexivity.
  - repeat constructor.
Defined.



(** X25: the alphabet of the words generated from ASCII input: every
    character of a returned word is a letter, a digit, an underscore or
    one of the symbols [! @ # $ - .]; in particular no returned word
    contains whitespace. *)
Theorem returned_words_alphabet (current_year : Z)
    (enum : gset string → list string)
    (names dates pets interests : list string)
    (include_years include_leet include_combinations : bool) (max_words : Z)
    (res : list string) (w : string) :
  valid_enum enum →
  ascii_text (names ++ dates ++ pets ++ interests)%list →
  generate_wordlist current_year enum names dates pets interests
    include_years include_leet include_combinations max_words = Some res →
  w ∈ res →
  str_all (λ c, chr_isword c || chr_in c "!@#$-.") w = true
  ∧ str_any chr_isspace w = false.
Proof.
  intros Henum _ Hres Hw.
  apply (generate_sound _ _ Henum) in Hres as [_ Hsub]. apply Hsub in Hw.
  pose proof (in_alphabet_wordlist_set _ _ Henum _ _ _ _ _ _ _ _ Hw) as Ha.
  split; [exact Ha | by apply in_alphabet_no_space].
Qed.

Lemma returned_words_alphabet_witness :
  str_all (λ c, chr_isword c || chr_in c "!@#$-.") "iX001" = true
  ∧ str_any chr_isspace "iX001" = false.
Proof.
  apply (returned_words_alphabet 2026 elements ["x"] [] [] []
           false false false 3 ["X001"; "x001"; "iX001"] "iX001"
           valid_enum_elements).
  - repeat constructor.
  - vm_compute. reflexivity.
  - right; right; left.
Defined.

(** X26: pets and interests are treated as further names: passing them
    in their own arguments or appended to the names, in that order, gives
    the same result. *)
Theorem categories_are_interchangeable (current_year : Z)
    (enum : gset string → list string)
    (names dates pets interests : list string)
    (include_years include_leet include_combinations : bool) (max_words : Z) :
  generate_wordlist current_year enum (names ++ pets ++ interests)%list dates [] []
    include_years include_leet include_combinations max_words
  = generate_wordlist current_year enum names dates pets interests
      include_years include_leet include_combinations max_words.
Proof.
  unfold generate_wordlist, wordlist_set. by rewrite base_words_categories.
Qed.

(** X27: on ASCII input the result depends on a name, pet or interest
    only through its cleaned form and on whether it is blank: seeds that
    differ in case, in surrounding whitespace or in characters that are
    not word characters give the same result. *)
Theorem seeds_matter_through_clean_form (current_year : Z)
    (enum : gset string → list string)
    (names names' dates pets pets' interests interests' : list string)
    (include_years include_leet include_combinations : bool) (max_words : Z) :
  ascii_text (names ++ dates ++ pets ++ interests)%list →
  ascii_text (names' ++ pets' ++ interests')%list →
  Forall2 same_seed names names' → Forall2 same_seed pets pets' →
  Forall2 same_seed interests interests' →
  generate_wordlist current_year enum names dates pets interests
    include_years include_leet include_combinations max_words
  = generate_wordlist current_year enum names' dates pets' interests'
      include_years include_leet include_combinations max_words.
Proof.
  intros _ _ Hn Hp Hi. unfold generate_wordlist.
  by rewrite (wordlist_set_same_seed current_year enum names names' dates
                pets pets' interests interests' include_years include_leet
                include_combinations Hn Hp Hi).
Qed.

Lemma seeds_matter_through_clean_form_witness :
  generate_wordlist 2026 elements ["John"; " O'Neil "] ["1990"] ["Rex!"] []
    true true true 100
  = generate_wordlist 2026 elements ["JOHN"; "oneil"] ["1990"] ["rex"] []
      true true true 100.
Proof.
  apply (seeds_matter_through_clean_form 2026 elements
           ["John"; " O'Neil "] ["JOHN"; "oneil"] ["1990"] ["Rex!"] ["rex"] [] []
           true true true 100).
  - repeat constructor.
  - repeat constructor.
  - repeat constructor.
  - repeat constructor.
  - constructor.
Defined.

(** X28: called on its own, [_prioritize_words] fails exactly when the
    list contains the empty string, whose first character the scoring
    reads, whatever [max_words] is; otherwise, for a non-negative
    [max_words], it returns [min(max_words, len(wordlist))] words of the
    list, repeated words included as often as they occur. *)
Theorem prioritize_fails_on_empty_word (current_year : Z)
    (wordlist : list string) (max_words : Z) :
  (_prioritize_words current_year wordlist max_words = None ↔ "" ∈ wordlist)
  ∧ ("" ∉ wordlist → 0 ≤ max_words →
     ∃ res,
       _prioritize_words current_year wordlist max_words = Some res
       ∧ length res = Nat.min (Z.to_nat max_words) (length wordlist)
       ∧ res ⊆+ wordlist).
Proof.
  assert (Hok : "" ∉ wordlist →
    _prioritize_words current_year wordlist max_words
    = Some (slice_to max_words (sort_by_key_desc (score_of current_year) wordlist))).
  { intros Hne. apply prioritize_spec. intros w Hw ->. by apply Hne. }
  split; [split|].
  - intros Hnone. destruct (decide ("" ∈ wordlist)) as [|Hne]; [done|].
    by rewrite (Hok Hne) in Hnone.
  - intros Hin. unfold _prioritize_words.
    assert (mapM (λ word, pair word <$> word_score current_year word) wordlist
            = None) as ->; [|done].
    induction wordlist as [|w l IH]; [by apply elem_of_nil in Hin|].
    apply elem_of_cons in Hin as [<- | Hin]; [done|].
    simpl. rewrite IH by (done || by intros ?). 
    by destruct (pair w <$> word_score current_year w).
  - intros Hne Hmw. eexists. split; [by apply Hok|].
    unfold slice_to. replace (0 <=? max_words) with true by lia.
    split.
    + by rewrite length_take, (Permutation_length (sort_by_key_desc_perm _ _)).
    + etrans; [apply sublist_submseteq, sublist_take|].
      apply Permutation_submseteq, sort_by_key_desc_perm.
Qed.

Lemma prioritize_fails_on_empty_word_witness :
  _prioritize_words 2026 ["john"; ""; "rex"] 1 = None.
Proof.
  apply (proj1 (prioritize_fails_on_empty_word 2026 ["john"; ""; "rex"] 1)).
  right; left.
Defined.
